(** * Pointer-event dispatch of react-three-fiber ([core/events.ts])

    A shallow embedding of the event layer: the interaction registry
    ([internal.interaction], [internal.hovered], [internal.capturedMap],
    [internal.initialHit]) and the dispatcher built by [createEvents]
    ([intersect], [patchIntersects], [handleIntersects], [cancelPointer],
    [handlePointer], [pointerMissed]) together with [removeInteractivity]
    and [releaseInternalPointerCapture].

    Conventions of the embedding.
    - Objects of the scene graph are references ([obj]); the graph itself is
      a read-only heap [G : obj -> Object3D] giving each object its [uuid],
      its [parent] link and its [__r3f] instance (handlers, [eventCount]).
    - JS [Map]s are [gmap]s keyed by the pointer id, a JS value of type
      [number | undefined].
    - Loops that follow [parent] links carry a fuel argument and answer
      [None] when it runs out: the source loops have no bound of their own.
    - A handler is a function from the event it receives to the calls it
      makes on that event ([stopPropagation], [target.setPointerCapture],
      [target.releasePointerCapture]); handlers reach the registry through
      these calls only.  Every invocation is appended to a trace, as are the
      calls of the per-target callback of [handleIntersects] and the native
      capture calls on the DOM target.
    - Numbers are integers: offsets, indices and pointer ids as [Z].
    - Renamed because the name is taken: [raycaster.filter] is
      [filter_hook], the store's [onPointerMissed] is [storePointerMissed].
      The loops and closures without a name in the source are [dedup] (the
      filter closure of [intersect]), [bubble] (the loop of
      [handleIntersects]), [leave_chain] (the loop of [cancelPointer]),
      [callback] (the closure passed to [handleIntersects]) and [dispatch]
      (the closure [handlePointer] returns for the raycast events). *)

From stdpp Require Import base option list gmap strings pretty.
From Stdlib Require Import ZArith Lia.

Local Open Scope Z_scope.

(** ** Data model *)

(** Reference to a [THREE.Object3D]. *)
Abbreviation obj := nat (only parsing).
(** Reference to a DOM element (the [target] of a native event). *)
Abbreviation Element := nat (only parsing).
(** A pointer id as the maps see it: [number | undefined]. *)
Abbreviation PointerId := (option Z) (only parsing).

(** Keys of [Events] and of [EventHandlers]; [handlePointer] takes one of
    them and indexes the handler set with it.  ([onLostPointerCapture] is a
    key of [Events] only, the last four are keys of [EventHandlers] only.) *)
Inductive Name :=
  | onClick | onContextMenu | onDoubleClick | onWheel
  | onPointerDown | onPointerUp | onPointerLeave | onPointerMove
  | onPointerCancel | onLostPointerCapture
  | onPointerOver | onPointerOut | onPointerEnter | onPointerMissed.

Global Instance Name_eq_dec : EqDecision Name.
Proof. solve_decision. Defined.

(** The native event: the fields the dispatcher reads.  [pointerId] is
    [None] for a plain [MouseEvent] (['pointerId' in event] is false). *)
Record MouseEvent := {
  offsetX : Z;
  offsetY : Z;
  pointerId : PointerId;
  target : Element
}.

Global Instance MouseEvent_eq_dec : EqDecision MouseEvent.
Proof. solve_decision. Defined.

(** [Intersection]: a raycast hit.  [eventObject] is absent on the records
    the raycaster returns, set to [object] by [intersect], and replaced by
    the parent (possibly [null]) while bubbling.  [distance] stands for the
    geometric payload, which the dispatcher never inspects. *)
Record Intersection := {
  object : obj;
  eventObject : option obj;
  index : option Z;
  instanceId : option Z;
  distance : Z
}.

Global Instance Intersection_eq_dec : EqDecision Intersection.
Proof. solve_decision. Defined.

Definition with_eventObject (h : Intersection) (e : option obj) : Intersection :=
  {| object := object h; eventObject := e; index := index h;
     instanceId := instanceId h; distance := distance h |}.

(** [event.AT_TARGET] and [event.BUBBLING_PHASE]. *)
Inductive Phase := AT_TARGET | BUBBLING_PHASE.

Global Instance Phase_eq_dec : EqDecision Phase.
Proof. solve_decision. Defined.

(** [ThreeEvent]: the synthesized event.  [hit] holds the spread
    intersection fields; the capture closures of [target]/[currentTarget]
    are bound to [hit] and to [nativeEvent]. *)
Record ThreeEvent := {
  hit : Intersection;
  eventPhase : Phase;
  intersections : list Intersection;
  delta : Z;
  nativeEvent : MouseEvent
}.

Global Instance ThreeEvent_eq_dec : EqDecision ThreeEvent.
Proof. solve_decision. Defined.

(** [PointerCaptureData]. *)
Record PointerCaptureData := {
  intersection : Intersection;
  domTarget : Element
}.

Global Instance PointerCaptureData_eq_dec : EqDecision PointerCaptureData.
Proof. solve_decision. Defined.

(** What a handler may do with the event it is handed. *)
Inductive Action :=
  | StopPropagation
  | SetPointerCapture (id : PointerId)
  | ReleasePointerCapture (id : PointerId).

Global Instance Action_eq_dec : EqDecision Action.
Proof. solve_decision. Defined.

Definition Handler := ThreeEvent -> list Action.

(** [Instance.__r3f]: the handler set and the derived handler count.  The
    entry under [onPointerMissed] receives the raw event; only its presence
    matters below. *)
Record Instance := {
  handlers : Name -> option Handler;
  eventCount : nat
}.

Record Object3D := {
  uuid : string;
  parent : option obj;
  __r3f : option Instance
}.

(** The trace of one run: [Deliver ev] is a call [callback(raycastEvent)] of
    [handleIntersects]; [Handle o n ev] is the handler [n] of object [o]
    called with [ev]; [Missed o e] is the [onPointerMissed] handler of [o]
    and [StoreMissed e] the one of the store, called with the raw event; the
    last two are [setPointerCapture] and [releasePointerCapture] on a DOM
    element. *)
Inductive Call :=
  | Deliver (ev : ThreeEvent)
  | Handle (o : obj) (n : Name) (ev : ThreeEvent)
  | Missed (o : obj) (ev : MouseEvent)
  | StoreMissed (ev : MouseEvent)
  | NativeSetCapture (dom : Element) (id : PointerId)
  | NativeReleaseCapture (dom : Element) (id : PointerId).

Global Instance Call_eq_dec : EqDecision Call.
Proof. solve_decision. Defined.

(** [InternalState] (the fields the event layer uses) and the trace. *)
Record State := {
  interaction : list obj;
  hovered : gmap PointerId ThreeEvent;
  capturedMap : gmap PointerId PointerCaptureData;
  initialHit : option obj;
  initialClick : Z * Z;
  trace : list Call
}.

Definition set_interaction (s : State) (l : list obj) : State :=
  {| interaction := l; hovered := hovered s; capturedMap := capturedMap s;
     initialHit := initialHit s; initialClick := initialClick s; trace := trace s |}.
Definition set_hovered (s : State) (m : gmap PointerId ThreeEvent) : State :=
  {| interaction := interaction s; hovered := m; capturedMap := capturedMap s;
     initialHit := initialHit s; initialClick := initialClick s; trace := trace s |}.
Definition set_capturedMap (s : State) (m : gmap PointerId PointerCaptureData) : State :=
  {| interaction := interaction s; hovered := hovered s; capturedMap := m;
     initialHit := initialHit s; initialClick := initialClick s; trace := trace s |}.
Definition set_initialHit (s : State) (o : option obj) : State :=
  {| interaction := interaction s; hovered := hovered s; capturedMap := capturedMap s;
     initialHit := o; initialClick := initialClick s; trace := trace s |}.
Definition set_initialClick (s : State) (c : Z * Z) : State :=
  {| interaction := interaction s; hovered := hovered s; capturedMap := capturedMap s;
     initialHit := initialHit s; initialClick := c; trace := trace s |}.
Definition emit (s : State) (c : list Call) : State :=
  {| interaction := interaction s; hovered := hovered s; capturedMap := capturedMap s;
     initialHit := initialHit s; initialClick := initialClick s; trace := trace s ++ c |}.

(** The raycaster of the store: the external hit test (for the ray that
    [prepareRay] derives from the event, over the candidate list, recursive)
    and the optional [filter] hook. *)
Record Raycaster := {
  enabled : bool;
  filter_hook : option (list Intersection -> list Intersection);
  intersectObjects : MouseEvent -> list obj -> list Intersection
}.

(** The part of [RootState] outside [internal]. *)
Record Store := {
  raycaster : Raycaster;
  storePointerMissed : bool
}.

(** JS string conversion of [number | undefined] in a concatenation. *)
Definition js_string (v : option Z) : string :=
  match v with
  | None => "undefined"
  | Some z => pretty z
  end.

Section Scene.
(** The scene graph, owned by the renderer and only read here. *)
Variable G : obj -> Object3D.
(** The store the dispatcher was created for. *)
Variable store : Store.

(** [makeId] *)
Definition makeId (event : Intersection) : string :=
  uuid (G (default (object event) (eventObject event)))
    +:+ "/" +:+ js_string (index event) +:+ js_string (instanceId event).

(** [isAncestor]: one unit of fuel per [child = child.parent]. *)
Fixpoint isAncestor (fuel : nat) (ancestor : obj) (child : option obj) : option bool :=
  match child with
  | None => Some false
  | Some c =>
      if decide (c = ancestor) then Some true
      else match fuel with
           | O => None
           | S fuel' => isAncestor fuel' ancestor (parent (G c))
           end
  end.

(** [releaseInternalPointerCapture]; [o = None] is [obj === undefined]. *)
Definition releaseInternalPointerCapture (s : State) (o : option obj)
    (captureData : option PointerCaptureData) (pointerId : PointerId) : State :=
  let captureData :=
    match captureData with
    | Some c => Some c
    | None => capturedMap s !! pointerId
    end in
  match captureData with
  | None => s
  | Some cd =>
      if bool_decide (o = None) || bool_decide (eventObject (intersection cd) = o)
      then emit (set_capturedMap s (delete pointerId (capturedMap s)))
                [NativeReleaseCapture (domTarget cd) pointerId]
      else s
  end.

(** The test of the [hovered.forEach] body of [removeInteractivity]. *)
Definition hover_mentions (o : obj) (value : ThreeEvent) : bool :=
  bool_decide (eventObject (hit value) = Some o) || bool_decide (object (hit value) = o).

(** [removeInteractivity].  The two [forEach] loops delete only the entry
    being visited, so each is a pass over the entries present at its
    start. *)
Definition removeInteractivity (s : State) (o : obj) : State :=
  let s := set_interaction s (filter (λ x, x ≠ o) (interaction s)) in
  let s := if decide (initialHit s = Some o) then set_initialHit s None else s in
  let s := set_hovered s
             (filter (λ kv : PointerId * ThreeEvent, hover_mentions o kv.2 = false) (hovered s)) in
  foldl (λ st (kv : PointerId * PointerCaptureData),
           releaseInternalPointerCapture st (Some o) (Some kv.2) kv.1)
        s (map_to_list (capturedMap s)).

(** [Math.round(Math.sqrt(n))] on a non-negative integer, computed exactly.
    The source computes it on doubles; the two agree as long as the square
    root is correctly rounded and stays away from the midpoint between two
    integers, which holds for every [n] below [2 ^ 48] (distances up to
    [2 ^ 24] pixels). *)
Definition round_sqrt (n : Z) : Z :=
  let r := Z.sqrt n in if r <? n - r * r then r + 1 else r.

(** [calculateDistance] *)
Definition calculateDistance (s : State) (event : MouseEvent) : Z :=
  let dx := offsetX event - (initialClick s).1 in
  let dy := offsetY event - (initialClick s).2 in
  round_sqrt (dx * dx + dy * dy).

Definition has_handler (o : obj) (n : Name) : bool :=
  match __r3f (G o) with
  | Some inst => bool_decide (is_Some (handlers inst n))
  | None => false
  end.

(** [filterPointerEvents] (defined in the source, called nowhere). *)
Definition filterPointerEvents (objects : list obj) : list obj :=
  filter (λ o, existsb (has_handler o)
                 [onPointerMove; onPointerOver; onPointerEnter; onPointerOut; onPointerLeave] = true)
         objects.

(** The duplicate filter of [intersect], with its [seen] set. *)
Fixpoint dedup (seen : gset string) (items : list Intersection) : list Intersection :=
  match items with
  | [] => []
  | item :: rest =>
      let id := makeId item in
      if decide (id ∈ seen) then dedup seen rest
      else item :: dedup ({[ id ]} ∪ seen) rest
  end.

(** [intersect] *)
Definition intersect (s : State) (event : MouseEvent) : list Intersection :=
  let rc := raycaster store in
  if negb (enabled rc) then []
  else
    let eventsObjects := interaction s in
    let intersects := dedup ∅ (intersectObjects rc event eventsObjects) in
    let intersects :=
      match filter_hook rc with
      | Some f => f intersects
      | None => intersects
      end in
    map (λ i, with_eventObject i (Some (object i))) intersects.

(** [patchIntersects] *)
Definition patchIntersects (s : State) (intersections : list Intersection)
    (event : MouseEvent) : list Intersection :=
  match pointerId event with
  | Some _ =>
      match capturedMap s !! pointerId event with
      | Some captureData => intersection captureData :: intersections
      | None => intersections
      end
  | None => intersections
  end.

(** One call on the event API.  [self] is the [raycastEvent] the closures
    were created for; the flag is [localState.stopped] of that dispatch. *)
Definition run_action (self : ThreeEvent) (st : State * bool) (a : Action) : State * bool :=
  match a with
  | StopPropagation => (st.1, true)
  | SetPointerCapture id =>
      let dom := target (nativeEvent self) in
      let s := set_capturedMap st.1
                 (<[id := {| intersection := hit self; domTarget := dom |}]> (capturedMap st.1)) in
      let s := set_hovered s (<[id := self]> (hovered s)) in
      (emit s [NativeSetCapture dom id], st.2)
  | ReleasePointerCapture id =>
      (releaseInternalPointerCapture st.1 (eventObject (hit self)) (capturedMap st.1 !! id) id,
       st.2)
  end.

(** [handlers.n?.(data)] on object [o]. *)
Definition invoke (self : ThreeEvent) (o : obj) (hs : Name -> option Handler) (n : Name)
    (data : ThreeEvent) (st : State * bool) : State * bool :=
  match hs n with
  | None => st
  | Some h => foldl (run_action self) (emit st.1 [Handle o n data], st.2) (h data)
  end.

(** [pointerMissed] *)
Definition pointerMissed (s : State) (event : MouseEvent) (objects : list obj) : State :=
  emit s (map (λ o, Missed o event) (filter (λ o, has_handler o onPointerMissed = true) objects)).

(** [objects.filter((object) => !isAncestor(object, child))] *)
Fixpoint filter_not_ancestor (fuel : nat) (child : option obj) (objects : list obj)
    : option (list obj) :=
  match objects with
  | [] => Some []
  | o :: rest =>
      b ← isAncestor fuel o child;
      r ← filter_not_ancestor fuel child rest;
      Some (if b : bool then r else o :: r)
  end.

Definition isClickEvent (name : Name) : bool :=
  match name with
  | onClick | onContextMenu | onDoubleClick => true
  | _ => false
  end.

(** The per-target callback that [handlePointer] hands to
    [handleIntersects]; [eventObject] is [data.eventObject]. *)
Definition callback (fuel : nat) (name : Name) (event : MouseEvent)
    (isEnteringAndOrLeaving : bool) (eventObject : obj) (data : ThreeEvent) (s : State)
    : option (State * bool) :=
  match __r3f (G eventObject) with
  | None => Some (s, false)
  | Some inst =>
      let hs := handlers inst in
      if Nat.eqb (eventCount inst) 0 then Some (s, false)
      else if bool_decide (name = onPointerMove) then
        if isEnteringAndOrLeaving then
          let s := if decide (eventPhase data = AT_TARGET)
                   then set_hovered s (<[pointerId event := data]> (hovered s))
                   else s in
          Some (invoke data eventObject hs onPointerEnter data
                  (invoke data eventObject hs onPointerOver data (s, false)))
        else Some (invoke data eventObject hs onPointerMove data (s, false))
      else
        match hs name with
        | None => Some (s, false)
        | Some _ =>
            if negb (isClickEvent name) || bool_decide (initialHit s = Some (object (hit data)))
            then
              objects ← filter_not_ancestor fuel (initialHit s) (interaction s);
              Some (invoke data eventObject hs name data (pointerMissed s event objects, false))
            else Some (s, false)
        end
  end.

Definition has_eventCount (o : obj) : bool :=
  match __r3f (G o) with
  | Some inst => negb (Nat.eqb (eventCount inst) 0)
  | None => false
  end.

(** The [for] loop of [handleIntersects]; [stopped] is
    [localState.stopped]. *)
Fixpoint bubble (fuel : nat) (cb : obj -> ThreeEvent -> State -> option (State * bool))
    (intersections : list Intersection) (event : MouseEvent) (delta : Z)
    (hit : Intersection) (eventPhase : Phase) (stopped : bool) (s : State) : option State :=
  match eventObject hit with
  | None => Some s
  | Some t =>
      if stopped then Some s
      else match fuel with
           | O => None
           | S fuel' =>
               let next := with_eventObject hit (parent (G t)) in
               if has_eventCount t then
                 let raycastEvent :=
                   {| hit := hit; eventPhase := eventPhase; intersections := intersections;
                      delta := delta; nativeEvent := event |} in
                 r ← cb t raycastEvent (emit s [Deliver raycastEvent]);
                 bubble fuel' cb intersections event delta next BUBBLING_PHASE r.2 r.1
               else bubble fuel' cb intersections event delta next BUBBLING_PHASE stopped s
           end
  end.

(** [handleIntersects] *)
Definition handleIntersects (fuel : nat)
    (cb : obj -> ThreeEvent -> State -> option (State * bool))
    (intersections : list Intersection) (event : MouseEvent) (delta : Z) (s : State)
    : option State :=
  match intersections with
  | [] => Some s
  | hit :: _ => bubble fuel cb intersections event delta hit AT_TARGET false s
  end.

(** The [for] loop of [cancelPointer] along the parents of the hovered
    object.  The handlers get a copy of [hoveredEvent]; its closures
    belong to the dispatch that created it, so a stop request made
    through them reaches no running loop. *)
Fixpoint leave_chain (fuel : nat) (hoveredEvent : ThreeEvent) (hits : list Intersection)
    (eventObject : option obj) (s : State) : option State :=
  match eventObject with
  | None => Some s
  | Some eo =>
      match fuel with
      | O => None
      | S fuel' =>
          let s :=
            match __r3f (G eo) with
            | Some inst =>
                let hs := handlers inst in
                if bool_decide (is_Some (hs onPointerOut))
                   || bool_decide (is_Some (hs onPointerLeave))
                then
                  let data :=
                    {| hit := with_eventObject (hit hoveredEvent) (Some eo);
                       eventPhase := eventPhase hoveredEvent; intersections := hits;
                       delta := delta hoveredEvent; nativeEvent := nativeEvent hoveredEvent |} in
                  (invoke hoveredEvent eo hs onPointerLeave data
                     (invoke hoveredEvent eo hs onPointerOut data (s, false))).1
                else s
            | None => s
            end in
          leave_chain fuel' hoveredEvent hits (parent (G eo)) s
      end
  end.

(** [cancelPointer] *)
Definition cancelPointer (fuel : nat) (pointerId : PointerId) (hits : list Intersection)
    (s : State) : option State :=
  match hovered s !! pointerId with
  | None => Some s
  | Some hoveredEvent =>
      let differs :=
        match hits with
        | [] => true
        | h :: _ =>
            bool_decide (object h ≠ object (hit hoveredEvent))
            || bool_decide (index h ≠ index (hit hoveredEvent))
            || bool_decide (instanceId h ≠ instanceId (hit hoveredEvent))
        end in
      if differs
      then leave_chain fuel hoveredEvent hits (Some (object (hit hoveredEvent)))
             (set_hovered s (delete pointerId (hovered s)))
      else Some s
  end.

(** The closure [handlePointer] returns for "any other pointer". *)
Definition dispatch (fuel : nat) (name : Name) (event : MouseEvent) (s : State)
    : option State :=
  let isPointerMove := bool_decide (name = onPointerMove) in
  let hits := patchIntersects s (intersect s event) event in
  let delta := if isClickEvent name then calculateDistance s event else 0 in
  let s :=
    if bool_decide (name = onPointerDown)
    then set_initialHit (set_initialClick s (offsetX event, offsetY event))
           (object <$> head hits)
    else s in
  let s :=
    if isClickEvent name && bool_decide (hits = []) && (delta <=? 2)
    then
      let s := pointerMissed s event (interaction s) in
      if storePointerMissed store then emit s [StoreMissed event] else s
    else s in
  r ← (if isPointerMove
       then
         s' ← cancelPointer fuel (pointerId event) hits s;
         let previousHover := hovered s' !! pointerId event in
         Some (s', bool_decide ((object ∘ hit) <$> previousHover ≠ object <$> head hits))
       else Some (s, false));
  handleIntersects fuel (callback fuel name event r.2) hits event delta r.1.

(** [handlePointer(name)], applied to an event. *)
Definition handlePointer (fuel : nat) (name : Name) (event : MouseEvent) (s : State)
    : option State :=
  match name with
  | onPointerLeave | onPointerCancel => cancelPointer fuel (pointerId event) [] s
  | onLostPointerCapture =>
      Some (releaseInternalPointerCapture s None None (pointerId event))
  | _ => dispatch fuel name event s
  end.

End Scene.

(** ** Notions used to state the properties *)

(** The events handed to the callback, in order. *)
Definition delivered (T : list Call) : list ThreeEvent :=
  omap (λ c, match c with Deliver ev => Some ev | _ => None end) T.

(** The object a trace entry hands the synthesized event to. *)
Definition target_of (c : Call) : option obj :=
  match c with
  | Deliver ev => eventObject (hit ev)
  | Handle o _ _ => Some o
  | _ => None
  end.

(** Entries that [cancelPointer] may add: out and leave handlers, and the
    native capture calls those make. *)
Definition leave_entry (c : Call) : Prop :=
  match c with
  | Handle _ n _ => n = onPointerOut ∨ n = onPointerLeave
  | NativeSetCapture _ _ | NativeReleaseCapture _ _ => True
  | _ => False
  end.

(** Entries of a pointer-missed notification for the raw event [event]. *)
Definition miss_entry (event : MouseEvent) (c : Call) : Prop :=
  match c with
  | Missed _ e | StoreMissed e => e = event
  | _ => False
  end.

(** The names [handlePointer] treats by raycasting and bubbling. *)
Definition raycast_name (name : Name) : bool :=
  match name with
  | onPointerLeave | onPointerCancel | onLostPointerCapture => false
  | _ => true
  end.

Definition is_Handle (c : Call) : bool :=
  match c with
  | Handle _ _ _ => true
  | _ => false
  end.

Definition is_Missed_to (o : obj) (c : Call) : bool :=
  match c with
  | Missed o' _ => bool_decide (o' = o)
  | _ => false
  end.

(** Number of entries of [T] that satisfy [f]. *)
Definition count (f : Call → bool) (T : list Call) : nat :=
  length (filter (λ c, f c = true) T).

Definition is_native (c : Call) : bool :=
  match c with
  | NativeSetCapture _ _ | NativeReleaseCapture _ _ => true
  | _ => false
  end.

Section Notions.
Variable G : obj -> Object3D.

(** [l] is the parent chain that starts at [o] and ends at a root. *)
Fixpoint is_path (o : option obj) (l : list obj) : Prop :=
  match l with
  | [] => o = None
  | x :: l' => o = Some x ∧ is_path (parent (G x)) l'
  end.

(** Every parent chain of the graph reaches a root within [n] objects. *)
Definition height_bounded (n : nat) : Prop :=
  ∀ o, ∃ l, is_path (Some o) l ∧ (length l ≤ n)%nat.

(** The handler stored on [o] under [n]. *)
Definition handler_of (o : obj) (n : Name) : option Handler :=
  match __r3f (G o) with
  | Some inst => handlers inst n
  | None => None
  end.

(** The trace entry is a handler invocation that asks to stop propagation. *)
Definition stops (c : Call) : Prop :=
  match c with
  | Handle o n ev => ∃ h, handler_of o n = Some h ∧ StopPropagation ∈ h ev
  | _ => False
  end.

(** No handler of object [o] touches the pointer capture. *)
Definition capture_free (o : obj) : Prop :=
  ∀ n h ev a, handler_of o n = Some h → a ∈ h ev → a = StopPropagation.

(** [Calls t data ns C b]: [C] is the trace of invoking, on target [t]
    with event [data], the handlers named [ns] one after the other, each
    followed by the native capture calls it caused; [b] tells whether one
    of them asked to stop propagation. *)
Inductive Calls (t : obj) (data : ThreeEvent) : list Name → list Call → bool → Prop :=
  | Calls_nil : Calls t data [] [] false
  | Calls_cons n ns h N C b :
      handler_of t n = Some h →
      Forall (λ c, is_native c = true) N →
      Calls t data ns C b →
      Calls t data (n :: ns) (Handle t n data :: N ++ C)
            (bool_decide (StopPropagation ∈ h data) || b).

(** The handlers the callback of [handlePointer] invokes on target [t]:
    [ih] is the initial hit, [entering] is [isEnteringAndOrLeaving]. *)
Definition invoked (name : Name) (entering : bool) (ih : option obj) (t : obj)
    (data : ThreeEvent) : list Name :=
  if has_eventCount G t then
    if bool_decide (name = onPointerMove) then
      filter (λ n, has_handler G t n = true)
             (if entering then [onPointerOver; onPointerEnter] else [onPointerMove])
    else if has_handler G t name
            && (negb (isClickEvent name) || bool_decide (ih = Some (object (hit data))))
         then [name]
         else []
  else [].

(** The pointer-missed notifications that precede them: to the registered
    objects [I] that have a miss handler and lie outside the parent chain
    [l0] of the initial hit. *)
Definition missed_before (name : Name) (entering : bool) (ih : option obj) (I : list obj)
    (l0 : list obj) (event : MouseEvent) (t : obj) (data : ThreeEvent) : list Call :=
  if bool_decide (name = onPointerMove) then []
  else match invoked name entering ih t data with
       | [] => []
       | _ => map (λ o, Missed o event)
                  (filter (λ o, has_handler G o onPointerMissed = true)
                          (filter (λ o, o ∉ l0) I))
       end.

(** One callback invocation on target [t], as seen in the trace. *)
Definition cb_run (name : Name) (event : MouseEvent) (entering : bool) (ih : option obj)
    (I l0 : list obj) (t : obj) (ev : ThreeEvent) (C : list Call) (b : bool) : Prop :=
  ∃ C0, C = missed_before name entering ih I l0 event t ev ++ C0
        ∧ Calls t ev (invoked name entering ih t ev) C0 b.

(** [Bubbled run mk l ph T]: [T] is the trace of a bubble walk along the
    chain [l], entered in phase [ph]; [run t ev C b] describes one
    callback invocation and [mk] builds the event of a target. *)
Inductive Bubbled (run : obj → ThreeEvent → list Call → bool → Prop)
    (mk : obj * Phase → ThreeEvent) : list obj → Phase → list Call → Prop :=
  | Bubbled_root ph : Bubbled run mk [] ph []
  | Bubbled_skip t l ph T :
      has_eventCount G t = false →
      Bubbled run mk l BUBBLING_PHASE T →
      Bubbled run mk (t :: l) ph T
  | Bubbled_stop t l ph C :
      has_eventCount G t = true →
      run t (mk (t, ph)) C true →
      Bubbled run mk (t :: l) ph (Deliver (mk (t, ph)) :: C)
  | Bubbled_next t l ph C T :
      has_eventCount G t = true →
      run t (mk (t, ph)) C false →
      Bubbled run mk l BUBBLING_PHASE T →
      Bubbled run mk (t :: l) ph (Deliver (mk (t, ph)) :: C ++ T).
End Notions.

(** The targets of a bubble walk along the chain [l], with their phases;
    the first target is visited in phase [ph]. *)
Definition walk_from (ph : Phase) (l : list obj) : list (obj * Phase) :=
  match l with
  | [] => []
  | t :: l' => (t, ph) :: map (λ x, (x, BUBBLING_PHASE)) l'
  end.

Definition walk_targets (l : list obj) : list (obj * Phase) := walk_from AT_TARGET l.

(** The fields of the registry that no handler call can reach. *)
Definition same_registry (s s' : State) : Prop :=
  interaction s' = interaction s ∧ initialHit s' = initialHit s
  ∧ initialClick s' = initialClick s.

(** The [raycastEvent] built for target [t] in phase [ph]. *)
Definition raycastEvent (intersections : list Intersection) (event : MouseEvent) (delta : Z)
    (h : Intersection) (tp : obj * Phase) : ThreeEvent :=
  {| hit := with_eventObject h (Some tp.1); eventPhase := tp.2;
     intersections := intersections; delta := delta; nativeEvent := event |}.

(** ** Scenes used in the examples *)

(** The handlers invoked, in order: object and handler name. *)
Definition handled (T : list Call) : list (obj * Name) :=
  omap (λ c, match c with Handle o n _ => Some (o, n) | _ => None end) T.

(** The objects notified of a miss, in order. *)
Definition missed (T : list Call) : list obj :=
  omap (λ c, match c with Missed o _ => Some o | _ => None end) T.

(** The deduplication identity of the specification: event target, index,
    instance index. *)
Definition triple (i : Intersection) : obj * option Z * option Z :=
  (default (object i) (eventObject i), index i, instanceId i).

(** Deduplication as the specification words it: hits with the same triple
    collapse to the first of them, the others keep their order. *)
Fixpoint dedup_by_triple (seen : list (obj * option Z * option Z))
    (items : list Intersection) : list Intersection :=
  match items with
  | [] => []
  | item :: rest =>
      if decide (triple item ∈ seen) then dedup_by_triple seen rest
      else item :: dedup_by_triple (triple item :: seen) rest
  end.

(** The capture entry [cd] is held by object [o]. *)
Definition held_by (o : obj) (cd : PointerCaptureData) : bool :=
  bool_decide (eventObject (intersection cd) = Some o).

(** The invariant as the specification words it: neither the hover map nor
    the capture map references an object that is absent from the Interaction
    Set.  An entry references the object that was hit and the event target
    it belongs to. *)
Definition registry_closed (s : State) : Prop :=
  (∀ p ev, hovered s !! p = Some ev →
     object (hit ev) ∈ interaction s
     ∧ ∀ t, eventObject (hit ev) = Some t → t ∈ interaction s)
  ∧ (∀ p cd, capturedMap s !! p = Some cd →
       object (intersection cd) ∈ interaction s
       ∧ ∀ t, eventObject (intersection cd) = Some t → t ∈ interaction s).

Definition quiet : Handler := λ _, [].
Definition stopper : Handler := λ _, [StopPropagation].
Definition capturer : Handler := λ ev, [SetPointerCapture (pointerId (nativeEvent ev))].

Definition handler_set (l : list (Name * Handler)) : Name → option Handler :=
  λ n, (λ r : nat * (Name * Handler), r.2.2) <$> list_find (λ p, p.1 = n) l.

Definition instance_of (l : list (Name * Handler)) : option Instance :=
  Some {| handlers := handler_set l; eventCount := length l |}.

(** A group (1) holding a mesh (2), and three meshes of their own: 3 has a
    click handler only, 4 a miss handler only, 5 captures the pointer on
    pointer-down. *)
Definition demo_scene (o : obj) : Object3D :=
  match o with
  | 1%nat => {| uuid := "group"; parent := None;
                __r3f := instance_of [(onPointerDown, quiet); (onClick, quiet);
                                      (onPointerOver, quiet); (onPointerMove, quiet)] |}
  | 2%nat => {| uuid := "mesh-a"; parent := Some 1%nat;
                __r3f := instance_of [(onPointerDown, stopper); (onClick, quiet);
                                      (onPointerOver, stopper); (onPointerEnter, quiet);
                                      (onPointerMove, quiet)] |}
  | 3%nat => {| uuid := "mesh-b"; parent := None;
                __r3f := instance_of [(onClick, quiet)] |}
  | 4%nat => {| uuid := "mesh-c"; parent := None;
                __r3f := instance_of [(onPointerMissed, quiet)] |}
  | 5%nat => {| uuid := "mesh-d"; parent := None;
                __r3f := instance_of [(onPointerDown, capturer); (onPointerMove, quiet)] |}
  | _ => {| uuid := "other"; parent := None; __r3f := None |}
  end.

(** The same scene with quiet handlers on the mesh, so that events bubble
    from it to the group. *)
Definition calm_scene (o : obj) : Object3D :=
  match o with
  | 2%nat => {| uuid := "mesh-a"; parent := Some 1%nat;
                __r3f := instance_of [(onPointerDown, quiet); (onClick, quiet);
                                      (onPointerOver, quiet); (onPointerEnter, quiet);
                                      (onPointerMove, quiet)] |}
  | _ => demo_scene o
  end.

(** Two objects that are each other's parent. *)
Definition cyclic_scene (o : obj) : Object3D :=
  match o with
  | 1%nat => {| uuid := "one"; parent := Some 2%nat; __r3f := None |}
  | 2%nat => {| uuid := "two"; parent := Some 1%nat; __r3f := None |}
  | _ => {| uuid := "other"; parent := None; __r3f := None |}
  end.

Definition raw_hit (o : obj) (d : Z) : Intersection :=
  {| object := o; eventObject := None; index := None; instanceId := None; distance := d |}.

Definition live_hit (o : obj) (d : Z) : Intersection :=
  with_eventObject (raw_hit o d) (Some o).

(** A hit test that depends on the horizontal offset alone: at 10 the ray
    meets mesh 2, at 20 mesh 3, at 30 mesh 5 and, behind it, mesh 2; nothing
    elsewhere.  A mesh is tested when it or an ancestor is a candidate. *)
Definition demo_intersectObjects (event : MouseEvent) (candidates : list obj)
    : list Intersection :=
  let tested o := bool_decide (o ∈ candidates) in
  if offsetX event =? 10 then
    if tested 2%nat || tested 1%nat then [raw_hit 2 1] else []
  else if offsetX event =? 20 then
    if tested 3%nat then [raw_hit 3 1] else []
  else if offsetX event =? 30 then
    (if tested 5%nat then [raw_hit 5 1] else [])
    ++ (if tested 2%nat || tested 1%nat then [raw_hit 2 4] else [])
  else [].

Definition demo_store : Store :=
  {| raycaster := {| enabled := true; filter_hook := None;
                     intersectObjects := demo_intersectObjects |};
     storePointerMissed := true |}.

Definition demo_state : State :=
  {| interaction := [1; 2; 3; 4; 5]%nat; hovered := ∅; capturedMap := ∅;
     initialHit := None; initialClick := (0, 0); trace := [] |}.

Definition pointer_at (x : Z) : MouseEvent :=
  {| offsetX := x; offsetY := 0; pointerId := Some 7; target := 0%nat |}.

(** The state after pointer 7 went down on mesh 2. *)
Definition pressed_state : State := set_initialHit (set_initialClick demo_state (10, 0)) (Some 2%nat).

(** The state in which mesh 2 holds the capture of pointer 7. *)
Definition captured_state : State :=
  set_capturedMap demo_state
    {[ Some 7 := {| intersection := live_hit 2 1; domTarget := 0%nat |} ]}.

(** Three raw hits on one object: the last two share their triple, the
    first has another one. *)
Definition collide_a : Intersection :=
  {| object := 2%nat; eventObject := None; index := Some 1; instanceId := Some 23;
     distance := 1 |}.
Definition collide_b : Intersection :=
  {| object := 2%nat; eventObject := None; index := Some 12; instanceId := Some 3;
     distance := 2 |}.
Definition collide_c : Intersection :=
  {| object := 2%nat; eventObject := None; index := Some 12; instanceId := Some 3;
     distance := 3 |}.

(** ** Further notions: the capture calls, the leave walk, the example states *)

(** [hasPointerCapture] of the [target] built for the event [self]:
    [capturedMap.get(id)?.intersection.eventObject === hit.eventObject]. *)
Definition hasPointerCapture (self : ThreeEvent) (s : State) (id : PointerId) : bool :=
  match capturedMap s !! id with
  | Some captureData =>
      bool_decide (eventObject (intersection captureData) = eventObject (hit self))
  | None => false
  end.

(** The handler invocations of a trace, with the event each one was given. *)
Definition handle_calls (T : list Call) : list (obj * Name * ThreeEvent) :=
  omap (λ c, match c with Handle o n ev => Some (o, n, ev) | _ => None end) T.

(** The test of [cancelPointer]: there is no hit, or the top hit is not the
    hovered object, index and instance. *)
Definition top_differs (hits : list Intersection) (hoveredEvent : ThreeEvent) : bool :=
  match hits with
  | [] => true
  | h :: _ =>
      bool_decide (object h ≠ object (hit hoveredEvent))
      || bool_decide (index h ≠ index (hit hoveredEvent))
      || bool_decide (instanceId h ≠ instanceId (hit hoveredEvent))
  end.

(** The event [cancelPointer] hands to object [t] on the way up:
    [{ ...hoveredEvent, eventObject, intersections: hits }]. *)
Definition leave_data (hoveredEvent : ThreeEvent) (hits : list Intersection) (t : obj)
    : ThreeEvent :=
  {| hit := with_eventObject (hit hoveredEvent) (Some t);
     eventPhase := eventPhase hoveredEvent; intersections := hits;
     delta := delta hoveredEvent; nativeEvent := nativeEvent hoveredEvent |}.

(** The out and leave handlers that [cancelPointer] owes to the chain [l] of
    the hovered object: for each object, child first, its [onPointerOut] and
    then its [onPointerLeave], as far as defined. *)
Definition leave_calls (G : obj → Object3D) (hoveredEvent : ThreeEvent)
    (hits : list Intersection) (l : list obj) : list (obj * Name * ThreeEvent) :=
  l ≫= λ t, (λ n, (t, n, leave_data hoveredEvent hits t))
              <$> filter (λ n, has_handler G t n = true) [onPointerOut; onPointerLeave].

(** Entries that the bubble walk of a pointer-move may add: deliveries, over,
    enter and move handlers, and the native capture calls those make. *)
Definition move_entry (c : Call) : Prop :=
  match c with
  | Deliver _ => True
  | Handle _ n _ => n = onPointerOver ∨ n = onPointerEnter ∨ n = onPointerMove
  | NativeSetCapture _ _ | NativeReleaseCapture _ _ => True
  | _ => False
  end.

(** No handler call recorded in [T] has taken the capture of pointer [id]:
    [setPointerCapture(id)] forwards to the DOM target, which the trace
    records. *)
Definition no_capture (id : PointerId) (T : list Call) : Prop :=
  ∀ dom, NativeSetCapture dom id ∉ T.

(** The squared length of the way from the last pointer-down to the event. *)
Definition squared_distance (s : State) (event : MouseEvent) : Z :=
  (offsetX event - (initialClick s).1) * (offsetX event - (initialClick s).1)
  + (offsetY event - (initialClick s).2) * (offsetY event - (initialClick s).2).

(** The event mesh 2 got when pointer 7 came over it. *)
Definition hover_event : ThreeEvent :=
  raycastEvent [live_hit 2 1] (pointer_at 10) 0 (live_hit 2 1) (2%nat, AT_TARGET).

(** Pointer 7 hovers mesh 2. *)
Definition hovering_state : State := set_hovered demo_state {[ Some 7 := hover_event ]}.

(** Mesh 2 holds the capture of pointer 7, as [setPointerCapture] leaves it:
    capture entry and hover entry from the same event. *)
Definition holding_state : State := set_hovered captured_state {[ Some 7 := hover_event ]}.

(** The example scene with an object (6) whose handlers hang on a group (7)
    that has out and leave handlers, for the leave walk. *)
Definition leave_scene (o : obj) : Object3D :=
  match o with
  | 6%nat => {| uuid := "mesh-e"; parent := Some 7%nat;
                __r3f := instance_of [(onPointerOut, stopper); (onPointerMove, quiet)] |}
  | 7%nat => {| uuid := "group-e"; parent := None;
                __r3f := instance_of [(onPointerOut, quiet); (onPointerLeave, quiet)] |}
  | _ => {| uuid := "other"; parent := None; __r3f := None |}
  end.

(** Pointer 7 hovers object 6 of [leave_scene]. *)
Definition leaving_state : State :=
  set_hovered demo_state
    {[ Some 7 := raycastEvent [live_hit 6 1] (pointer_at 40) 0 (live_hit 6 1) (6%nat, AT_TARGET) ]}.

(** A group (1) whose [onPointerOver] handler takes the pointer capture,
    above a mesh (2) with a quiet [onPointerOver]. *)
Definition grab_scene (o : obj) : Object3D :=
  match o with
  | 1%nat => {| uuid := "group"; parent := None;
                __r3f := instance_of [(onPointerOver, capturer)] |}
  | 2%nat => {| uuid := "mesh-a"; parent := Some 1%nat;
                __r3f := instance_of [(onPointerOver, quiet)] |}
  | _ => {| uuid := "other"; parent := None; __r3f := None |}
  end.

(** The events of a move of pointer 7 onto mesh 2, as handed to the mesh and
    then to the group above it. *)
Definition grab_event (t : obj) (ph : Phase) : ThreeEvent :=
  raycastEvent [live_hit 2 1] (pointer_at 10) 0 (live_hit 2 1) (t, ph).

(** The capture the group's handler takes with the event it was handed: the
    stored hit is on mesh 2, its event target is the group. *)
Definition ancestor_capture : PointerCaptureData :=
  {| intersection := with_eventObject (raw_hit 2 1) (Some 1%nat); domTarget := 0%nat |}.

(** The registry of [grab_scene] after that move. *)
Definition grabbed_state : State :=
  {| interaction := [1; 2; 3; 4; 5]%nat;
     hovered := {[ Some 7 := grab_event 1 BUBBLING_PHASE ]};
     capturedMap := {[ Some 7 := ancestor_capture ]};
     initialHit := None; initialClick := (0, 0);
     trace := [Deliver (grab_event 2 AT_TARGET);
               Handle 2 onPointerOver (grab_event 2 AT_TARGET);
               Deliver (grab_event 1 BUBBLING_PHASE);
               Handle 1 onPointerOver (grab_event 1 BUBBLING_PHASE);
               NativeSetCapture 0 (Some 7)] |}.

(** A hit test for [leave_scene]: at offset 40 the ray meets object 6. *)
Definition leave_intersectObjects (event : MouseEvent) (candidates : list obj)
    : list Intersection :=
  if offsetX event =? 40 then
    if bool_decide (6%nat ∈ candidates) || bool_decide (7%nat ∈ candidates)
    then [raw_hit 6 1] else []
  else [].

Definition leave_store : Store :=
  {| raycaster := {| enabled := true; filter_hook := None;
                     intersectObjects := leave_intersectObjects |};
     storePointerMissed := false |}.

(** Objects 6 and 7 registered, nothing hovered or captured. *)
Definition leave_state : State :=
  {| interaction := [6; 7]%nat; hovered := ∅; capturedMap := ∅;
     initialHit := None; initialClick := (0, 0); trace := [] |}.

(** ** Properties *)

Section Properties.
Variable G : obj -> Object3D.
Variable store : Store.

Implicit Types (s : State) (l : list obj) (T C : list Call) (ev data : ThreeEvent).

(** *** Parent chains *)

Lemma is_path_inj o l1 l2 : is_path G o l1 → is_path G o l2 → l1 = l2.
Proof.
  revert o l2. induction l1 as [|x l1 IH]; intros o [|y l2]; simpl.
  - done.
  - intros -> [? _]. done.
  - intros [-> _] ?. done.
  - intros [-> H1] [Hy H2]. injection Hy as <-. f_equal. eauto.
Qed.

Lemma is_path_suffix o l1 x l2 :
  is_path G o (l1 ++ x :: l2) → is_path G (Some x) (x :: l2).
Proof.
  revert o. induction l1 as [|y l1 IH]; intros o; simpl.
  - intros [_ H]. split; [reflexivity | exact H].
  - intros [_ H]. apply (IH _ H).
Qed.

Lemma is_path_NoDup o l : is_path G o l → NoDup l.
Proof.
  revert o. induction l as [|x l IH]; intros o; simpl.
  - constructor.
  - intros [_ H]. constructor; [|eauto].
    intros Hin. apply list_elem_of_split in Hin as (l1 & l2 & ->).
    pose proof (is_path_suffix _ _ _ _ H) as Hx.
    assert (Hfull : is_path G (Some x) (x :: l1 ++ x :: l2)) by (simpl; done).
    pose proof (is_path_inj _ _ _ Hx Hfull) as Heq.
    apply (f_equal length) in Heq. simpl in Heq. rewrite length_app in Heq.
    simpl in Heq. lia.
Qed.

Lemma height_bounded_option n (o : option obj) :
  height_bounded G n → ∃ l, is_path G o l ∧ (length l ≤ n)%nat.
Proof.
  intros Hb. destruct o as [x|]; [apply Hb|].
  exists []. split; [done | simpl; lia].
Qed.

(** *** [isAncestor] on a finite chain *)

Lemma isAncestor_path fuel a c l :
  is_path G c l → (length l ≤ fuel)%nat →
  isAncestor G fuel a c = Some (bool_decide (a ∈ l)).
Proof.
  revert fuel c. induction l as [|x l IH]; intros fuel c; simpl.
  - intros -> _. destruct fuel; simpl; f_equal; symmetry; apply bool_decide_eq_false;
      apply not_elem_of_nil.
  - intros [-> Hp] Hlen. destruct fuel as [|fuel]; [lia|]. simpl.
    destruct (decide (x = a)) as [->|Hne].
    + f_equal. symmetry. apply bool_decide_eq_true. left.
    + rewrite (IH fuel _ Hp) by lia. f_equal. apply bool_decide_ext.
      rewrite elem_of_cons. split; [by right | intros [->|?]; done].
Qed.

Lemma filter_not_ancestor_path fuel c l objects :
  is_path G c l → (length l ≤ fuel)%nat →
  filter_not_ancestor G fuel c objects = Some (filter (λ o, o ∉ l) objects).
Proof.
  intros Hp Hlen. induction objects as [|o objects IH]; simpl; [done|].
  rewrite (isAncestor_path _ _ _ _ Hp Hlen). simpl. rewrite IH. simpl.
  rewrite filter_cons. destruct (decide (o ∉ l)) as [Hn|Hn].
  - rewrite bool_decide_eq_false_2; done.
  - rewrite bool_decide_eq_true_2; [done|]. by apply dec_stable.
Qed.

(** *** Handler invocations *)

Lemma same_registry_refl s : same_registry s s.
Proof. done. Qed.

Lemma same_registry_trans s1 s2 s3 :
  same_registry s1 s2 → same_registry s2 s3 → same_registry s1 s3.
Proof. unfold same_registry. intros (-> & -> & ->) (-> & -> & ->). done. Qed.

Lemma release_spec s o cd p :
  ∃ N, trace (releaseInternalPointerCapture s o cd p) = trace s ++ N
       ∧ Forall (λ c, is_native c = true) N
       ∧ same_registry s (releaseInternalPointerCapture s o cd p).
Proof.
  unfold releaseInternalPointerCapture.
  destruct (match cd with Some c => Some c | None => capturedMap s !! p end) as [c|].
  - destruct (_ || _).
    + eexists [_]. simpl. split; [done|]. split; [|done]. by constructor.
    + exists []. rewrite app_nil_r. done.
  - exists []. rewrite app_nil_r. done.
Qed.

Lemma run_action_spec self s b a :
  ∃ N, trace (run_action self (s, b) a).1 = trace s ++ N
       ∧ Forall (λ c, is_native c = true) N
       ∧ same_registry s (run_action self (s, b) a).1
       ∧ (run_action self (s, b) a).2 = b || bool_decide (a = StopPropagation).
Proof.
  destruct a as [|id|id]; simpl.
  - exists []. rewrite app_nil_r, orb_true_r. done.
  - eexists [_]. simpl. rewrite orb_false_r. split; [done|]. split; [|done]. by constructor.
  - destruct (release_spec s (eventObject (hit self)) (capturedMap s !! id) id)
      as (N & HN & Hnat & Hreg).
    exists N. rewrite orb_false_r. done.
Qed.

Lemma stop_in_cons (a : Action) (acts : list Action) :
  bool_decide (a = StopPropagation) || bool_decide (StopPropagation ∈ acts)
  = bool_decide (StopPropagation ∈ a :: acts).
Proof.
  destruct (decide (a = StopPropagation)) as [->|Hne].
  - rewrite (bool_decide_eq_true_2 (_ ∈ _ :: _)) by left.
    by rewrite bool_decide_eq_true_2.
  - rewrite (bool_decide_eq_false_2 _ Hne). simpl. apply bool_decide_ext.
    rewrite elem_of_cons. split; [by right | intros [?|?]; [congruence | done]].
Qed.

Lemma run_actions_spec self acts s b :
  ∃ N, trace (foldl (run_action self) (s, b) acts).1 = trace s ++ N
       ∧ Forall (λ c, is_native c = true) N
       ∧ same_registry s (foldl (run_action self) (s, b) acts).1
       ∧ (foldl (run_action self) (s, b) acts).2 = b || bool_decide (StopPropagation ∈ acts).
Proof.
  revert s b. induction acts as [|a acts IH]; intros s b; simpl.
  - exists []. rewrite app_nil_r, orb_false_r. done.
  - destruct (run_action_spec self s b a) as (N1 & H1 & Hn1 & Hr1 & Hb1).
    destruct (run_action self (s, b) a) as [s1 b1] eqn:E. simpl in *.
    destruct (IH s1 b1) as (N2 & H2 & Hn2 & Hr2 & Hb2).
    exists (N1 ++ N2). rewrite H2, H1, <- app_assoc. split; [done|].
    split; [by apply Forall_app|]. split; [by eapply same_registry_trans|].
    rewrite Hb2, Hb1, <- orb_assoc. f_equal. apply stop_in_cons.
Qed.

(** Actions that only stop propagation leave the registry as it is. *)
Lemma run_actions_stop_only self acts s b :
  (∀ a, a ∈ acts → a = StopPropagation) →
  (foldl (run_action self) (s, b) acts).1 = s.
Proof.
  revert s b. induction acts as [|a acts IH]; intros s b Hall; simpl; [done|].
  rewrite (Hall a) by left. simpl. apply IH. intros a' Ha'. apply Hall. by right.
Qed.

Lemma invoke_None self o hs n data st : hs n = None → invoke self o hs n data st = st.
Proof. unfold invoke. by intros ->. Qed.

Lemma invoke_Some self o hs n data s b h :
  hs n = Some h →
  ∃ N, trace (invoke self o hs n data (s, b)).1 = trace s ++ Handle o n data :: N
       ∧ Forall (λ c, is_native c = true) N
       ∧ same_registry s (invoke self o hs n data (s, b)).1
       ∧ (invoke self o hs n data (s, b)).2 = b || bool_decide (StopPropagation ∈ h data).
Proof.
  intros Hh. unfold invoke. rewrite Hh. simpl.
  destruct (run_actions_spec self (h data) (emit s [Handle o n data]) b)
    as (N & HN & Hnat & Hreg & Hb).
  exists N. simpl in HN. rewrite HN, <- app_assoc. done.
Qed.

(** *** The callback of [handlePointer] *)

Lemma has_handler_Some t inst n h :
  __r3f (G t) = Some inst → handlers inst n = Some h →
  has_handler G t n = true ∧ handler_of G t n = Some h.
Proof.
  intros Hi Hh. unfold has_handler, handler_of. rewrite Hi, Hh.
  split; [|done]. apply bool_decide_eq_true. by eexists.
Qed.

Lemma has_handler_None t inst n :
  __r3f (G t) = Some inst → handlers inst n = None → has_handler G t n = false.
Proof.
  intros Hi Hh. unfold has_handler. rewrite Hi, Hh.
  apply bool_decide_eq_false. by intros [? ?].
Qed.

Lemma has_handler_of t n :
  has_handler G t n = true ↔ is_Some (handler_of G t n).
Proof.
  unfold has_handler, handler_of. destruct (__r3f (G t)) as [inst|].
  - apply bool_decide_eq_true.
  - split; [done | by intros [? ?]].
Qed.

(** One handler invoked through [invoke], as a [Calls] step. *)
Lemma invoke_Calls self t inst n data s b :
  __r3f (G t) = Some inst →
  ∃ C b', trace (invoke self t (handlers inst) n data (s, b)).1 = trace s ++ C
          ∧ Calls G t data (filter (λ n, has_handler G t n = true) [n]) C b'
          ∧ (invoke self t (handlers inst) n data (s, b)).2 = b || b'
          ∧ same_registry s (invoke self t (handlers inst) n data (s, b)).1.
Proof.
  intros Hi. destruct (handlers inst n) as [h|] eqn:Hh.
  - destruct (has_handler_Some _ _ _ _ Hi Hh) as [Hhas Hof].
    destruct (invoke_Some self t _ n data s b h Hh) as (N & HT & Hnat & Hreg & Hb).
    exists (Handle t n data :: N ++ []), (bool_decide (StopPropagation ∈ h data) || false).
    rewrite filter_cons_True by done. rewrite app_nil_r, orb_false_r.
    split; [done|]. split; [|done].
    rewrite <- (app_nil_r N), <- (orb_false_r (bool_decide _)).
    econstructor; [done | done | constructor].
  - rewrite invoke_None by done. exists [], false.
    rewrite filter_cons_False by (rewrite (has_handler_None _ _ _ Hi Hh); done).
    rewrite app_nil_r, orb_false_r. simpl. split; [done|]. split; [constructor | done].
Qed.

Lemma Calls_app t data ns1 ns2 C1 C2 b1 b2 :
  Calls G t data ns1 C1 b1 → Calls G t data ns2 C2 b2 →
  Calls G t data (ns1 ++ ns2) (C1 ++ C2) (b1 || b2).
Proof.
  induction 1 as [|n ns h N C b Hh HN _ IH]; intros H2; simpl; [done|].
  rewrite <- app_assoc, <- orb_assoc. econstructor; eauto.
Qed.

Lemma callback_spec fuel name event entering t data s l0 :
  is_path G (initialHit s) l0 → (length l0 ≤ fuel)%nat →
  ∃ s' b C,
    callback G fuel name event entering t data s = Some (s', b)
    ∧ trace s' = trace s
        ++ missed_before G name entering (initialHit s) (interaction s) l0 event t data ++ C
    ∧ Calls G t data (invoked G name entering (initialHit s) t data) C b
    ∧ same_registry s s'.
Proof.
  intros Hp Hlen. unfold callback, missed_before, invoked, has_eventCount.
  destruct (__r3f (G t)) as [inst|] eqn:Hi.
  2:{ exists s, false, []. rewrite !app_nil_r. repeat split; try constructor.
      destruct (bool_decide _); by rewrite app_nil_r. }
  destruct (Nat.eqb (eventCount inst) 0) eqn:Hc; simpl.
  { exists s, false, []. rewrite !app_nil_r. repeat split; try constructor.
    destruct (bool_decide _); by rewrite app_nil_r. }
  destruct (bool_decide (name = onPointerMove)) eqn:Hm; simpl.
  - (* pointer move *)
    destruct entering.
    + set (s1 := if decide (eventPhase data = AT_TARGET)
                 then set_hovered s (<[pointerId event:=data]> (hovered s)) else s).
      assert (Hs1 : trace s1 = trace s ∧ same_registry s s1)
        by (subst s1; destruct (decide _); done).
      destruct Hs1 as [Ht1 Hr1].
      destruct (invoke_Calls data t inst onPointerOver data s1 false Hi)
        as (C1 & b1 & HT1 & HC1 & Hb1 & Hreg1).
      destruct (invoke data t (handlers inst) onPointerOver data (s1, false))
        as [s2 b2] eqn:E2. simpl in *. subst b2.
      destruct (invoke_Calls data t inst onPointerEnter data s2 b1 Hi)
        as (C2 & b3 & HT2 & HC2 & Hb2 & Hreg2).
      destruct (invoke data t (handlers inst) onPointerEnter data (s2, b1))
        as [s3 b4] eqn:E3. simpl in *. subst b4.
      exists s3, (b1 || b3), (C1 ++ C2). split; [done|].
      split; [by rewrite HT2, HT1, Ht1, app_assoc|].
      split; [|by eapply same_registry_trans; [|eapply same_registry_trans]].
      change [onPointerOver; onPointerEnter] with ([onPointerOver] ++ [onPointerEnter]).
      rewrite filter_app. by apply Calls_app.
    + destruct (invoke_Calls data t inst onPointerMove data s false Hi)
        as (C1 & b1 & HT1 & HC1 & Hb1 & Hreg1).
      destruct (invoke data t (handlers inst) onPointerMove data (s, false))
        as [s2 b2] eqn:E2. simpl in *. subst b2.
      exists s2, b1, C1. done.
  - (* any other event *)
    destruct (handlers inst name) as [h|] eqn:Hh.
    2:{ rewrite (has_handler_None _ _ _ Hi Hh). simpl.
        exists s, false, []. rewrite !app_nil_r. repeat split; constructor. }
    destruct (has_handler_Some _ _ _ _ Hi Hh) as [Hhas Hof]. rewrite Hhas. simpl.
    destruct (negb (isClickEvent name) || bool_decide (initialHit s = Some (object (hit data)))).
    2:{ exists s, false, []. rewrite !app_nil_r. repeat split; constructor. }
    rewrite (filter_not_ancestor_path _ _ _ _ Hp Hlen). simpl.
    destruct (invoke_Some data t (handlers inst) name data
                (pointerMissed G s event (filter (λ o, o ∉ l0) (interaction s))) false h Hh)
      as (N & HT & Hnat & Hreg & Hb).
    destruct (invoke data t (handlers inst) name data _) as [s2 b2] eqn:E2.
    simpl in *. subst b2.
    exists s2, (bool_decide (StopPropagation ∈ h data) || false), (Handle t name data :: N ++ []).
    rewrite app_nil_r, orb_false_r. split; [done|]. split; [by rewrite HT, app_assoc|].
    split; [|done].
    rewrite <- (app_nil_r N), <- (orb_false_r (bool_decide _)).
    econstructor; [done | done | constructor].
Qed.

(** *** The bubble walk of [handleIntersects] *)

Lemma with_eventObject_same h e : eventObject h = e → with_eventObject h e = h.
Proof. intros <-. by destruct h. Qed.

Lemma bubble_stopped fuel cb ints event δ h ph s :
  bubble G fuel cb ints event δ h ph true s = Some s.
Proof. destruct fuel; simpl; by destruct (eventObject h). Qed.

Lemma bubble_spec fc name event entering ints δ l0 l :
  ∀ fuel h ph s,
    is_path G (initialHit s) l0 → (length l0 ≤ fc)%nat →
    is_path G (eventObject h) l → (length l ≤ fuel)%nat →
    ∃ s' T,
      bubble G fuel (callback G fc name event entering) ints event δ h ph false s = Some s'
      ∧ trace s' = trace s ++ T
      ∧ same_registry s s'
      ∧ Bubbled G (cb_run G name event entering (initialHit s) (interaction s) l0)
                (raycastEvent ints event δ h) l ph T.
Proof.
  induction l as [|t l IH]; intros fuel h ph s Hp0 Hl0 Hp Hlen; simpl in Hp.
  - exists s, []. rewrite app_nil_r. split; [|repeat split; constructor].
    destruct fuel; simpl; by rewrite Hp.
  - destruct Hp as [Ht Hp]. destruct fuel as [|fuel]; [simpl in Hlen; lia|].
    simpl in Hlen. simpl. rewrite Ht.
    assert (Hnext : is_path G (eventObject (with_eventObject h (parent (G t)))) l) by done.
    destruct (has_eventCount G t) eqn:Hc.
    + set (ev := {| hit := h; eventPhase := ph; intersections := ints; delta := δ;
                    nativeEvent := event |}).
      assert (Hev : ev = raycastEvent ints event δ h (t, ph)).
      { unfold ev, raycastEvent. simpl. by rewrite with_eventObject_same. }
      clearbody ev. subst ev. set (ev := raycastEvent ints event δ h (t, ph)).
      destruct (callback_spec fc name event entering t ev (emit s [Deliver ev]) l0 Hp0 Hl0)
        as (s1 & b & C & Hcb & HT & HC & Hreg).
      rewrite Hcb. simpl.
      assert (Hrun : cb_run G name event entering (initialHit s) (interaction s) l0 t ev
                       (missed_before G name entering (initialHit s) (interaction s) l0
                          event t ev ++ C) b) by (by exists C).
      simpl in HT. rewrite <- app_assoc in HT. simpl in HT.
      destruct b.
      * rewrite bubble_stopped. exists s1. eexists. split; [done|]. split; [exact HT|].
        split; [done|]. by apply Bubbled_stop.
      * destruct Hreg as (HI & Hih & Hic). simpl in HI, Hih, Hic.
        destruct (IH fuel (with_eventObject h (parent (G t))) BUBBLING_PHASE s1)
          as (s' & T & Hb & HT' & Hreg' & HB); [by rewrite Hih | done | done | lia |].
        exists s'. eexists. split; [exact Hb|]. rewrite HT', HT.
        split; [by rewrite <- app_assoc|].
        split; [by eapply same_registry_trans|].
        rewrite Hih, HI in HB. simpl. by apply Bubbled_next.
    + destruct (IH fuel (with_eventObject h (parent (G t))) BUBBLING_PHASE s)
        as (s' & T & Hb & HT' & Hreg' & HB); [done | done | done | lia |].
      exists s', T. split; [done|]. split; [done|]. split; [done|]. by apply Bubbled_skip.
Qed.

(** *** What a callback invocation leaves in the trace *)

Lemma stops_native c : is_native c = true → ¬ stops G c.
Proof. destruct c; simpl; try done; by intros _ []. Qed.

Lemma Calls_entries t ev ns C b :
  Calls G t ev ns C b →
  ∀ c, c ∈ C → (∃ n, n ∈ ns ∧ c = Handle t n ev) ∨ is_native c = true.
Proof.
  induction 1 as [|n ns h N C b Hh HN _ IH]; intros c Hc.
  - by apply elem_of_nil in Hc.
  - apply elem_of_cons in Hc as [->|Hc].
    + left. exists n. split; [left | done].
    + apply elem_of_app in Hc as [Hc|Hc].
      * right. by eapply Forall_forall in HN.
      * destruct (IH c Hc) as [(n' & Hn' & ->)|Hnat]; [left|by right].
        exists n'. split; [by right | done].
Qed.

Lemma Calls_all t ev ns C b :
  Calls G t ev ns C b → ∀ n, n ∈ ns → Handle t n ev ∈ C.
Proof.
  induction 1 as [|n ns h N C b Hh HN _ IH]; intros n' Hn'.
  - by apply elem_of_nil in Hn'.
  - apply elem_of_cons in Hn' as [->|Hn']; [left|].
    right. apply elem_of_app. right. by apply IH.
Qed.

Lemma Calls_stops t ev ns C b :
  Calls G t ev ns C b → b = true ↔ Exists (stops G) C.
Proof.
  induction 1 as [|n ns h N C b Hh HN _ IH].
  - split; [done | intros H; by apply Exists_nil in H].
  - rewrite orb_true_iff, IH, Exists_cons, Exists_app. split.
    + intros [Hs|Hs]; [left | by right; right].
      apply bool_decide_eq_true in Hs. by exists h.
    + intros [(h' & Hh' & Hs)|[Hs|Hs]]; [left | exfalso | by right].
      * rewrite Hh in Hh'. injection Hh' as <-. by apply bool_decide_eq_true.
      * apply Exists_exists in Hs as (c & Hc & Hs).
        eapply stops_native; [|exact Hs]. by eapply Forall_forall in HN.
Qed.

Lemma Calls_nil_inv t ev C b : Calls G t ev [] C b → C = [] ∧ b = false.
Proof. by inversion 1. Qed.

Lemma Calls_singleton_inv t ev n C b :
  Calls G t ev [n] C b →
  ∃ h N, handler_of G t n = Some h ∧ Forall (λ c, is_native c = true) N
         ∧ C = Handle t n ev :: N ∧ b = bool_decide (StopPropagation ∈ h ev).
Proof.
  inversion 1 as [|? ? h N C' b' Hh HN HC]; subst.
  apply Calls_nil_inv in HC as [-> ->].
  exists h, N. by rewrite app_nil_r, orb_false_r.
Qed.

Lemma missed_before_entries name entering ih I l0 event t ev c :
  c ∈ missed_before G name entering ih I l0 event t ev →
  ∃ o, c = Missed o event ∧ o ∈ I ∧ (o ∉ l0) ∧ has_handler G o onPointerMissed = true.
Proof.
  unfold missed_before. destruct (bool_decide _); [by intros ?%elem_of_nil|].
  destruct (invoked _ _ _ _ _ _); [by intros ?%elem_of_nil|].
  intros (o & -> & Ho)%list_elem_of_fmap.
  apply list_elem_of_filter in Ho as [Hm Ho].
  apply list_elem_of_filter in Ho as [Hn Ho]. by exists o.
Qed.

Lemma cb_run_entries name event entering ih I l0 t ev C b :
  cb_run G name event entering ih I l0 t ev C b →
  ∀ c, c ∈ C →
    (∃ n, n ∈ invoked G name entering ih t ev ∧ c = Handle t n ev)
    ∨ is_native c = true
    ∨ (∃ o, c = Missed o event ∧ o ∈ I ∧ (o ∉ l0) ∧ has_handler G o onPointerMissed = true).
Proof.
  intros (C0 & -> & HC) c [Hc|Hc]%elem_of_app.
  - right; right. by eapply missed_before_entries.
  - destruct (Calls_entries _ _ _ _ _ HC c Hc) as [?|?]; [by left | by right; left].
Qed.

Lemma cb_run_target name event entering ih I l0 t ev C b :
  cb_run G name event entering ih I l0 t ev C b →
  ∀ c o, c ∈ C → target_of c = Some o → o = t.
Proof.
  intros Hrun c o Hc Ho.
  destruct (cb_run_entries _ _ _ _ _ _ _ _ _ _ Hrun c Hc)
    as [(n & _ & ->)|[Hn|(o' & -> & _)]]; simpl in Ho.
  - by injection Ho.
  - by destruct c.
  - done.
Qed.

Lemma cb_run_delivered name event entering ih I l0 t ev C b :
  cb_run G name event entering ih I l0 t ev C b → delivered C = [].
Proof.
  intros Hrun. unfold delivered.
  assert (H : ∀ c, c ∈ C → ∀ e, c ≠ Deliver e).
  { intros c Hc e ->.
    destruct (cb_run_entries _ _ _ _ _ _ _ _ _ _ Hrun _ Hc)
      as [(n & _ & ?)|[?|(o' & ? & _)]]; done. }
  clear Hrun. induction C as [|c C IH]; [done|].
  assert (IH' : delivered C = []) by (apply IH; intros; apply H; by right).
  pose proof (H c ltac:(left)) as Hc.
  destruct c as [e| | | | |]; simpl; try exact IH'. by destruct (Hc e).
Qed.

Lemma cb_run_stops name event entering ih I l0 t ev C b :
  cb_run G name event entering ih I l0 t ev C b → b = true ↔ Exists (stops G) C.
Proof.
  intros (C0 & -> & HC). rewrite (Calls_stops _ _ _ _ _ HC), Exists_app.
  split; [by right|]. intros [Hm|?]; [|done].
  apply Exists_exists in Hm as (c & Hc & Hs).
  apply missed_before_entries in Hc as (o & -> & _). done.
Qed.

(** *** What a bubble walk leaves in the trace *)

Lemma delivered_app T1 T2 : delivered (T1 ++ T2) = delivered T1 ++ delivered T2.
Proof.
  induction T1 as [|c T1 IH]; [done|].
  destruct c; simpl; try exact IH. f_equal. exact IH.
Qed.

Lemma walk_from_bubbling l : walk_from BUBBLING_PHASE l = map (λ x, (x, BUBBLING_PHASE)) l.
Proof. by destruct l. Qed.

Lemma walk_from_cons ph t l :
  walk_from ph (t :: l) = (t, ph) :: walk_from BUBBLING_PHASE l.
Proof. simpl. by rewrite walk_from_bubbling. Qed.

Section Walk.
Variables (name : Name) (event : MouseEvent) (entering : bool) (ih : option obj).
Variables (I l0 : list obj) (ints : list Intersection) (δ : Z) (h : Intersection).

Let run := cb_run G name event entering ih I l0.
Let mk := raycastEvent ints event δ h.

Lemma Bubbled_delivered l ph T :
  Bubbled G run mk l ph T →
  ∃ k, (k ≤ length l)%nat
       ∧ delivered T
         = map mk (filter (λ p, has_eventCount G p.1 = true) (take k (walk_from ph l)))
       ∧ (k = length l ∨ Exists (stops G) T).
Proof.
  induction 1 as [ph|t l ph T Hc _ (k & Hk & HT & Hend)|t l ph C Hc Hrun
                 |t l ph C T Hc Hrun _ (k & Hk & HT & Hend)].
  - exists 0%nat. split; [done|]. split; [done | by left].
  - exists (S k). rewrite walk_from_cons. simpl. split; [lia|].
    rewrite filter_cons_False by (simpl; by rewrite Hc). split; [done|].
    destruct Hend as [->|?]; [by left | by right].
  - exists 1%nat. rewrite walk_from_cons. simpl. split; [lia|].
    rewrite take_0, filter_cons_True by done. simpl.
    rewrite (cb_run_delivered _ _ _ _ _ _ _ _ _ _ Hrun). split; [done|].
    right. apply Exists_cons. right. by apply (cb_run_stops _ _ _ _ _ _ _ _ _ _ Hrun).
  - exists (S k). rewrite walk_from_cons. simpl. split; [lia|].
    rewrite filter_cons_True by done. simpl.
    rewrite delivered_app, (cb_run_delivered _ _ _ _ _ _ _ _ _ _ Hrun), HT.
    split; [done|]. destruct Hend as [->|He]; [by left|].
    right. apply Exists_cons. right. apply Exists_app. by right.
Qed.

Lemma Bubbled_head l ph T :
  Bubbled G run mk l ph T →
  head (delivered T)
  = head (map mk (filter (λ p, has_eventCount G p.1 = true) (walk_from ph l))).
Proof.
  induction 1 as [ph|t l ph T Hc _ IH|t l ph C Hc Hrun|t l ph C T Hc Hrun _ IH];
    rewrite ?walk_from_cons.
  - done.
  - rewrite filter_cons_False by (simpl; by rewrite Hc). done.
  - rewrite filter_cons_True by done. done.
  - rewrite filter_cons_True by done. done.
Qed.

(** Every entry of the trace belongs to the block of one visited target. *)
Lemma Bubbled_blocks l ph T :
  Bubbled G run mk l ph T →
  ∀ c, c ∈ T →
    ∃ t ph' C b T1 T2,
      t ∈ l ∧ has_eventCount G t = true ∧ run t (mk (t, ph')) C b
      ∧ T = T1 ++ Deliver (mk (t, ph')) :: C ++ T2
      ∧ (c = Deliver (mk (t, ph')) ∨ c ∈ C).
Proof.
  induction 1 as [ph|t l ph T Hc _ IH|t l ph C Hc Hrun|t l ph C T Hc Hrun _ IH];
    intros c Hin.
  - by apply elem_of_nil in Hin.
  - destruct (IH c Hin) as (t' & ph' & C & b & T1 & T2 & Ht & ? & ? & ? & ?).
    exists t', ph', C, b, T1, T2. split; [by right | done].
  - exists t, ph, C, true, [], []. rewrite app_nil_r. split; [left|].
    split; [done|]. split; [done|]. split; [done|].
    by apply elem_of_cons in Hin.
  - rewrite app_comm_cons in Hin. apply elem_of_app in Hin as [Hin|Hin].
    + exists t, ph, C, false, [], T. split; [left|]. split; [done|]. split; [done|].
      split; [done|]. by apply elem_of_cons in Hin.
    + destruct (IH c Hin) as (t' & ph' & C' & b & T1 & T2 & Ht & ? & ? & -> & ?).
      exists t', ph', C', b, (Deliver (mk (t, ph)) :: C ++ T1), T2.
      split; [by right|]. split; [done|]. split; [done|]. split; [|done].
      simpl. by rewrite <- app_assoc.
Qed.

Lemma Bubbled_targets l ph T :
  Bubbled G run mk l ph T → ∀ c o, c ∈ T → target_of c = Some o → o ∈ l.
Proof.
  intros HB c o Hin Ho.
  destruct (Bubbled_blocks _ _ _ HB c Hin)
    as (t & ph' & C & b & T1 & T2 & Ht & _ & Hrun & _ & [->|Hc]).
  - simpl in Ho. by injection Ho as <-.
  - by rewrite (cb_run_target _ _ _ _ _ _ _ _ _ _ Hrun c o Hc Ho).
Qed.

(** Once a handler of the target at depth [j] has asked to stop, nothing
    is handed to a target at a greater depth. *)
Lemma Bubbled_stop_scope l ph T :
  Bubbled G run mk l ph T → NoDup l →
  ∀ j tj c, l !! j = Some tj → c ∈ T → target_of c = Some tj → stops G c →
  ∀ i ti c', (j < i)%nat → l !! i = Some ti → c' ∈ T → target_of c' ≠ Some ti.
Proof.
  induction 1 as [ph|t l ph T Hc HB IH|t l ph C Hc Hrun|t l ph C T Hc Hrun HB IH];
    intros Hnd j tj c Hj Hin Htj Hs i ti c' Hji Hi Hin' Hti.
  - done.
  - apply NoDup_cons in Hnd as [Hnt Hnd].
    pose proof (Bubbled_targets _ _ _ HB c tj Hin Htj) as Htjl.
    destruct j as [|j]; [simpl in Hj; injection Hj as ->; done|].
    destruct i as [|i]; [lia|]. simpl in Hj, Hi.
    eapply (IH Hnd j tj c Hj Hin Htj Hs i ti c'); [lia | done..].
  - apply NoDup_cons in Hnd as [Hnt Hnd].
    destruct i as [|i]; [lia|]. simpl in Hi.
    assert (ti = t) as ->; [|by apply list_elem_of_lookup_2 in Hi].
    apply elem_of_cons in Hin' as [->|Hin'].
    + simpl in Hti. by injection Hti.
    + by eapply cb_run_target.
  - apply NoDup_cons in Hnd as [Hnt Hnd].
    assert (HcT : c ∈ T).
    { rewrite app_comm_cons in Hin. apply elem_of_app in Hin as [Hin|Hin]; [|done].
      apply elem_of_cons in Hin as [->|Hin]; [done|].
      assert (Hb : false = true); [|done].
      apply (cb_run_stops _ _ _ _ _ _ _ _ _ _ Hrun). apply Exists_exists. eauto. }
    pose proof (Bubbled_targets _ _ _ HB c tj HcT Htj) as Htjl.
    destruct j as [|j]; [simpl in Hj; injection Hj as ->; done|].
    destruct i as [|i]; [lia|]. simpl in Hj, Hi.
    rewrite app_comm_cons in Hin'. apply elem_of_app in Hin' as [Hin'|Hin'].
    + assert (ti = t) as ->; [|by apply list_elem_of_lookup_2 in Hi].
      apply elem_of_cons in Hin' as [->|Hin'].
      * simpl in Hti. by injection Hti.
      * by eapply cb_run_target.
    + eapply (IH Hnd j tj c Hj HcT Htj Hs i ti c'); [lia | done..].
Qed.
End Walk.

(** *** [cancelPointer] *)

Lemma invoke_trace self o hs n data s b :
  ∃ C, trace (invoke self o hs n data (s, b)).1 = trace s ++ C
       ∧ same_registry s (invoke self o hs n data (s, b)).1
       ∧ Forall (λ c, c = Handle o n data ∨ is_native c = true) C.
Proof.
  destruct (hs n) as [h|] eqn:Hh.
  - destruct (invoke_Some self o hs n data s b h Hh) as (N & HT & Hnat & Hreg & _).
    exists (Handle o n data :: N). split; [done|]. split; [done|].
    constructor; [by left|]. eapply Forall_impl; [exact Hnat|]. by right.
  - rewrite invoke_None by done. exists []. by rewrite app_nil_r.
Qed.

Lemma leave_chain_spec hov hits l :
  ∀ fuel o s,
    is_path G o l → (length l ≤ fuel)%nat →
    ∃ s' T, leave_chain G fuel hov hits o s = Some s'
            ∧ trace s' = trace s ++ T
            ∧ same_registry s s'
            ∧ Forall leave_entry T.
Proof.
  induction l as [|x l IH]; intros fuel o s Hp Hlen; simpl in Hp.
  - subst o. exists s, []. rewrite app_nil_r. by destruct fuel.
  - destruct Hp as [-> Hp]. destruct fuel as [|fuel]; [simpl in Hlen; lia|].
    simpl in Hlen. simpl.
    set (data := {| hit := with_eventObject (hit hov) (Some x);
                    eventPhase := eventPhase hov; intersections := hits;
                    delta := delta hov; nativeEvent := nativeEvent hov |}).
    assert (Hstep : ∃ s1 T1,
               match __r3f (G x) with
               | Some inst =>
                   if bool_decide (is_Some (handlers inst onPointerOut))
                      || bool_decide (is_Some (handlers inst onPointerLeave))
                   then (invoke hov x (handlers inst) onPointerLeave data
                           (invoke hov x (handlers inst) onPointerOut data (s, false))).1
                   else s
               | None => s
               end = s1
               ∧ trace s1 = trace s ++ T1 ∧ same_registry s s1 ∧ Forall leave_entry T1).
    { destruct (__r3f (G x)) as [inst|];
        [|exists s, []; by rewrite app_nil_r].
      destruct (_ || _); [|exists s, []; by rewrite app_nil_r].
      destruct (invoke_trace hov x (handlers inst) onPointerOut data s false)
        as (C1 & HT1 & Hr1 & HF1).
      destruct (invoke hov x (handlers inst) onPointerOut data (s, false)) as [s1 b1].
      destruct (invoke_trace hov x (handlers inst) onPointerLeave data s1 b1)
        as (C2 & HT2 & Hr2 & HF2).
      simpl in *. eexists _, (C1 ++ C2). split; [done|].
      split; [by rewrite HT2, HT1, app_assoc|].
      split; [by eapply same_registry_trans|].
      apply Forall_app. split.
      - eapply Forall_impl; [exact HF1|]. intros c [->|Hn]; [by left | by destruct c].
      - eapply Forall_impl; [exact HF2|]. intros c [->|Hn]; [by right | by destruct c]. }
    destruct Hstep as (s1 & T1 & -> & HT1 & Hr1 & HF1).
    destruct (IH fuel (parent (G x)) s1 Hp ltac:(lia)) as (s' & T & Hl & HT & Hr & HF).
    exists s', (T1 ++ T). split; [done|]. split; [by rewrite HT, HT1, app_assoc|].
    split; [by eapply same_registry_trans | by apply Forall_app].
Qed.

Lemma cancelPointer_spec fuel pid hits s :
  height_bounded G fuel →
  ∃ s' T, cancelPointer G fuel pid hits s = Some s'
          ∧ trace s' = trace s ++ T
          ∧ same_registry s s'
          ∧ Forall leave_entry T.
Proof.
  intros Hb. unfold cancelPointer.
  destruct (hovered s !! pid) as [hov|]; [|exists s, []; by rewrite app_nil_r].
  match goal with |- context [if ?b then _ else _] => destruct b end;
    [|exists s, []; by rewrite app_nil_r].
  destruct (Hb (object (hit hov))) as (l & Hp & Hlen).
  destruct (leave_chain_spec hov hits l fuel _ (set_hovered s (delete pid (hovered s))) Hp Hlen)
    as (s' & T & Hl & HT & Hr & HF).
  by exists s', T.
Qed.

Lemma leave_entry_delivered T : Forall leave_entry T → delivered T = [].
Proof.
  induction 1 as [|c T Hc _ IH]; [done|]. destruct c; simpl; done.
Qed.

(** *** One dispatch *)

Lemma handleIntersects_spec fuel name event entering hits δ s l0 h rest l :
  hits = h :: rest →
  is_path G (initialHit s) l0 → (length l0 ≤ fuel)%nat →
  is_path G (eventObject h) l → (length l ≤ fuel)%nat →
  ∃ s' T,
    handleIntersects G fuel (callback G fuel name event entering) hits event δ s = Some s'
    ∧ trace s' = trace s ++ T
    ∧ same_registry s s'
    ∧ Bubbled G (cb_run G name event entering (initialHit s) (interaction s) l0)
              (raycastEvent hits event δ h) l AT_TARGET T.
Proof.
  intros -> Hp0 Hl0 Hp Hl. unfold handleIntersects.
  by apply bubble_spec.
Qed.

Lemma handlePointer_dispatch fuel name event s :
  raycast_name name = true →
  handlePointer G store fuel name event s = dispatch G store fuel name event s.
Proof. by destruct name. Qed.

Lemma miss_entry_delivered event T : Forall (miss_entry event) T → delivered T = [].
Proof. induction 1 as [|c T Hc _ IH]; [done|]. destruct c; simpl; done. Qed.

Lemma dispatch_spec fuel name event s :
  height_bounded G fuel →
  let hits := patchIntersects s (intersect G store s event) event in
  let ih := if bool_decide (name = onPointerDown) then object <$> head hits
            else initialHit s in
  let δ := if isClickEvent name then calculateDistance s event else 0 in
  ∃ s' P T entering l0,
    dispatch G store fuel name event s = Some s'
    ∧ trace s' = trace s ++ P ++ T
    ∧ interaction s' = interaction s ∧ initialHit s' = ih
    ∧ is_path G ih l0
    ∧ delivered P = []
    ∧ (name = onPointerMove → Forall leave_entry P)
    ∧ (name ≠ onPointerMove → Forall (miss_entry event) P)
    ∧ (name ≠ onPointerMove → hits ≠ [] ∨ isClickEvent name = false → P = [])
    ∧ match hits with
      | [] => T = []
      | h :: _ =>
          ∃ l, is_path G (eventObject h) l
               ∧ Bubbled G (cb_run G name event entering ih (interaction s) l0)
                         (raycastEvent hits event δ h) l AT_TARGET T
      end.
Proof.
  intros Hb hits ih δ. unfold dispatch. fold hits. fold δ.
  set (sa := if bool_decide (name = onPointerDown)
             then set_initialHit (set_initialClick s (offsetX event, offsetY event))
                    (object <$> head hits)
             else s).
  assert (Ha : trace sa = trace s ∧ interaction sa = interaction s ∧ initialHit sa = ih).
  { subst sa ih. by destruct (bool_decide (name = onPointerDown)). }
  destruct Ha as (HaT & HaI & Hah).
  set (sb := if isClickEvent name && bool_decide (hits = []) && (δ <=? 2)
             then (let s0 := pointerMissed G sa event (interaction sa) in
                   if storePointerMissed store then emit s0 [StoreMissed event] else s0)
             else sa).
  assert (Hsb : ∃ P1, trace sb = trace sa ++ P1 ∧ same_registry sa sb
                      ∧ Forall (miss_entry event) P1
                      ∧ (hits ≠ [] ∨ isClickEvent name = false → P1 = [])).
  { subst sb. destruct (isClickEvent name) eqn:Hck; simpl.
    2:{ exists []. by rewrite app_nil_r. }
    destruct (bool_decide (hits = [])) eqn:Hh; simpl.
    2:{ exists []. by rewrite app_nil_r. }
    apply bool_decide_eq_true in Hh.
    destruct (δ <=? 2).
    2:{ exists []. by rewrite app_nil_r. }
    assert (HM : Forall (miss_entry event)
                   (map (λ o, Missed o event)
                      (filter (λ o, has_handler G o onPointerMissed = true) (interaction sa)))).
    { apply Forall_forall. by intros c (o & -> & _)%list_elem_of_fmap. }
    destruct (storePointerMissed store); simpl.
    - eexists (_ ++ [StoreMissed event]). rewrite app_assoc. split; [done|].
      split; [done|]. split; [|by intros [?|?]].
      apply Forall_app. split; [done | by constructor].
    - eexists. split; [done|]. split; [done|]. split; [done | by intros [?|?]]. }
  destruct Hsb as (P1 & HbT & (HbI & Hbh & _) & HP1 & HP1nil).
  destruct (height_bounded_option fuel ih Hb) as (l0 & Hp0 & Hl0).
  assert (Hc : ∃ sc P2 entering,
             (if bool_decide (name = onPointerMove)
              then cancelPointer G fuel (pointerId event) hits sb
                   ≫= λ s', Some (s', bool_decide ((object ∘ hit) <$> hovered s' !! pointerId event
                                                    ≠ object <$> head hits))
              else Some (sb, false)) = Some (sc, entering)
             ∧ trace sc = trace sb ++ P2 ∧ same_registry sb sc
             ∧ Forall leave_entry P2
             ∧ (name ≠ onPointerMove → P2 = [])).
  { destruct (bool_decide (name = onPointerMove)) eqn:Hm.
    - apply bool_decide_eq_true in Hm.
      destruct (cancelPointer_spec fuel (pointerId event) hits sb Hb)
        as (sc & P2 & Hcp & HcT & Hcr & HcF).
      rewrite Hcp. simpl. eexists sc, P2, _. done.
    - exists sb, [], false. by rewrite app_nil_r. }
  destruct Hc as (sc & P2 & entering & -> & HcT & (HcI & Hch & _) & HP2 & HP2nil).
  simpl.
  assert (HPd : delivered (P1 ++ P2) = []).
  { rewrite delivered_app, (miss_entry_delivered _ _ HP1), (leave_entry_delivered _ HP2).
    done. }
  assert (HPm : name = onPointerMove → Forall leave_entry (P1 ++ P2)).
  { intros ->. rewrite HP1nil by (by right). done. }
  assert (HPn : name ≠ onPointerMove → Forall (miss_entry event) (P1 ++ P2)).
  { intros Hn. rewrite (HP2nil Hn), app_nil_r. done. }
  assert (HPe : name ≠ onPointerMove → hits ≠ [] ∨ isClickEvent name = false → P1 ++ P2 = []).
  { intros Hn Hor. by rewrite (HP2nil Hn), (HP1nil Hor). }
  destruct hits as [|h rest] eqn:Hhits.
  - exists sc, (P1 ++ P2), [], entering, l0. simpl.
    rewrite app_nil_r, HcT, HbT, HaT, app_assoc, HcI, HbI, HaI, Hch, Hbh, Hah. done.
  - destruct (height_bounded_option fuel (eventObject h) Hb) as (l & Hp & Hl).
    destruct (handleIntersects_spec fuel name event entering (h :: rest) δ sc l0 h rest l)
      as (s' & T & Hhi & HT & (HI & Hih & _) & HB);
      [done | by rewrite Hch, Hbh, Hah | done | done | done |].
    exists s', (P1 ++ P2), T, entering, l0. split; [done|].
    split; [by rewrite HT, HcT, HbT, HaT, !app_assoc|].
    split; [by rewrite HI, HcI, HbI, HaI|].
    split; [by rewrite Hih, Hch, Hbh, Hah|].
    do 5 (split; [done|]). exists l. split; [done|].
    by rewrite Hch, Hbh, Hah, HcI, HbI, HaI in HB.
Qed.

Lemma is_path_length fuel o l :
  height_bounded G fuel → is_path G o l → (length l ≤ fuel)%nat.
Proof.
  intros Hb Hp. destruct (height_bounded_option fuel o Hb) as (l' & Hp' & Hl').
  by rewrite (is_path_inj _ _ _ Hp Hp').
Qed.

Lemma handleIntersects_bounded fuel name event entering hits δ s h rest l :
  height_bounded G fuel →
  hits = h :: rest → is_path G (eventObject h) l →
  ∃ s' T l0,
    handleIntersects G fuel (callback G fuel name event entering) hits event δ s = Some s'
    ∧ trace s' = trace s ++ T
    ∧ same_registry s s'
    ∧ is_path G (initialHit s) l0
    ∧ Bubbled G (cb_run G name event entering (initialHit s) (interaction s) l0)
              (raycastEvent hits event δ h) l AT_TARGET T.
Proof.
  intros Hb Hhits Hp.
  destruct (height_bounded_option fuel (initialHit s) Hb) as (l0 & Hp0 & Hl0).
  destruct (handleIntersects_spec fuel name event entering hits δ s l0 h rest l)
    as (s' & T & ? & ? & ? & ?); [done.. | by eapply is_path_length |].
  by exists s', T, l0.
Qed.

(** *** Bubbling order *)

(** C3. For a dispatch with a non-empty intersection list, let [l] be the
    parent chain of the top intersection's event target.  The walk of
    [handleIntersects] returns, and the events it hands to the callback
    are, in order, those of a prefix of [l]: the top target in phase
    at-target, then its successive parents in phase bubbling.  Targets
    whose handler count is zero are left out of the deliveries while the
    walk goes on to their parents.  Whatever is handed over goes to an
    object of [l], and the walk covers all of [l] unless some handler
    asked to stop the propagation. *)
Theorem C3_bubbling_order fuel name event entering hits δ s h rest l :
  height_bounded G fuel →
  hits = h :: rest →
  is_path G (eventObject h) l →
  ∃ s' T k,
    handleIntersects G fuel (callback G fuel name event entering) hits event δ s = Some s'
    ∧ trace s' = trace s ++ T
    ∧ (k ≤ length l)%nat
    ∧ delivered T
      = map (raycastEvent hits event δ h)
            (filter (λ p, has_eventCount G p.1 = true) (take k (walk_targets l)))
    ∧ (k = length l ∨ Exists (stops G) T)
    ∧ (∀ c o, c ∈ T → target_of c = Some o → o ∈ l).
Proof.
  intros Hb Hhits Hp.
  destruct (handleIntersects_bounded fuel name event entering hits δ s h rest l Hb Hhits Hp)
    as (s' & T & l0 & Hrun & HT & _ & _ & HB).
  destruct (Bubbled_delivered _ _ _ _ _ _ _ _ _ _ _ _ HB) as (k & Hk & Hd & Hend).
  exists s', T, k. do 5 (split; [done|]).
  by eapply Bubbled_targets.
Qed.

(** *** Stopping the propagation *)

(** C4. In the walk of one dispatch along the chain [l]: once a handler
    invoked on the target at depth [j] has called [stopPropagation],
    nothing is handed to a target at a greater depth; a target that gets
    [onPointerOver] gets its [onPointerEnter] as well, whether or not the
    first asked to stop; and the next dispatch, started from the state this
    one leaves, again begins at the first target of its chain that has
    handlers.  (Over and enter are the one pair of handlers a target gets
    for the same event: in a pointer-move dispatch.) *)
Theorem C4_stopPropagation_scope fuel name event entering hits δ s h rest l :
  height_bounded G fuel →
  hits = h :: rest →
  is_path G (eventObject h) l →
  ∃ s' T,
    handleIntersects G fuel (callback G fuel name event entering) hits event δ s = Some s'
    ∧ trace s' = trace s ++ T
    ∧ (∀ j tj c, l !! j = Some tj → c ∈ T → target_of c = Some tj → stops G c →
         ∀ i ti c', (j < i)%nat → l !! i = Some ti → c' ∈ T → target_of c' ≠ Some ti)
    ∧ (name = onPointerMove →
       ∀ t e, Handle t onPointerOver e ∈ T → has_handler G t onPointerEnter = true →
         Handle t onPointerEnter e ∈ T)
    ∧ (∀ name' event' entering' hits' δ' h' rest' l',
         hits' = h' :: rest' → is_path G (eventObject h') l' →
         ∃ s'' T',
           handleIntersects G fuel (callback G fuel name' event' entering') hits' event' δ' s'
           = Some s''
           ∧ trace s'' = trace s' ++ T'
           ∧ head (delivered T')
             = head (map (raycastEvent hits' event' δ' h')
                         (filter (λ p, has_eventCount G p.1 = true) (walk_targets l')))).
Proof.
  intros Hb -> Hp.
  destruct (handleIntersects_bounded fuel name event entering (h :: rest) δ s h rest l
              Hb eq_refl Hp) as (s' & T & l0 & Hrun & HT & _ & _ & HB).
  exists s', T. split; [done|]. split; [done|]. split; [|split].
  - eapply Bubbled_stop_scope; [exact HB|]. by eapply is_path_NoDup.
  - intros -> t e Hin Henter.
    destruct (Bubbled_blocks _ _ _ _ _ _ _ _ _ _ _ _ HB _ Hin)
      as (t' & ph' & C & b & T1 & T2 & Ht' & Hc' & Hcb & -> & [?|HinC]); [done|].
    destruct (cb_run_entries _ _ _ _ _ _ _ _ _ _ Hcb _ HinC)
      as [(n & Hn & Heq)|[?|(? & ? & _)]]; [|done..].
    simplify_eq.
    destruct Hcb as (C0 & -> & HC).
    assert (Hn' : onPointerEnter ∈ invoked G onPointerMove entering (initialHit s) t'
                                     (raycastEvent (h :: rest) event δ h (t', ph'))).
    { revert Hn. unfold invoked. rewrite Hc'. simpl. destruct entering.
      - intros _. apply list_elem_of_filter. split; [done|]. right. left.
      - intros [_ Hn]%list_elem_of_filter. by apply list_elem_of_singleton in Hn. }
    apply elem_of_app. right. right. apply elem_of_app. left. apply elem_of_app. right.
    by eapply Calls_all.
  - intros name' event' entering' hits' δ' h' rest' l' Hhits' Hp'.
    destruct (handleIntersects_bounded fuel name' event' entering' hits' δ' s' h' rest' l'
                Hb Hhits' Hp') as (s'' & T' & l0' & Hrun' & HT' & _ & _ & HB').
    exists s'', T'. split; [done|]. split; [done|].
    by eapply Bubbled_head.
Qed.

(** *** Capture injection *)

Lemma patchIntersects_captured s event p cd ints :
  pointerId event = Some p → capturedMap s !! Some p = Some cd →
  patchIntersects s ints event = intersection cd :: ints.
Proof. intros Hp Hc. unfold patchIntersects. by rewrite Hp, Hc. Qed.

(** C1 (as amended). When the pointer of the dispatched event has a
    capture entry, the intersection list of the dispatch is the stored
    capture intersection followed by the list [intersect] returns (which
    is deduplicated already; nothing is deduplicated afterwards), also
    when that list is empty; and the capture target, provided it has
    handlers registered, is the first to be handed the event, in phase
    at-target and with that intersection list. *)
Theorem C1_capture_first fuel name event s p cd t :
  height_bounded G fuel →
  raycast_name name = true →
  pointerId event = Some p →
  capturedMap s !! Some p = Some cd →
  eventObject (intersection cd) = Some t →
  has_eventCount G t = true →
  let hits := patchIntersects s (intersect G store s event) event in
  let δ := if isClickEvent name then calculateDistance s event else 0 in
  hits = intersection cd :: intersect G store s event
  ∧ (intersect G store s event = [] → hits = [intersection cd])
  ∧ ∃ s' T,
      handlePointer G store fuel name event s = Some s'
      ∧ trace s' = trace s ++ T
      ∧ head (delivered T)
        = Some (raycastEvent hits event δ (intersection cd) (t, AT_TARGET)).
Proof.
  intros Hb Hname Hp Hc Ht Hcount hits δ.
  assert (Hhits : hits = intersection cd :: intersect G store s event)
    by (by eapply patchIntersects_captured).
  split; [done|]. split; [by intros <-|].
  rewrite handlePointer_dispatch by done.
  destruct (dispatch_spec fuel name event s Hb)
    as (s' & P & T & entering & l0 & Hd & HT & _ & _ & _ & HP & _ & _ & _ & Hbub).
  fold hits in Hbub. fold δ in Hbub. rewrite Hhits in Hbub.
  destruct Hbub as (l & Hl & HB). rewrite <- Hhits in HB.
  exists s', (P ++ T). split; [done|]. split; [done|].
  rewrite delivered_app, HP. simpl.
  rewrite (Bubbled_head _ _ _ _ _ _ _ _ _ _ _ _ HB).
  rewrite Ht in Hl. destruct l as [|t' l]; [done|]. destruct Hl as [[= <-] _].
  unfold walk_targets. rewrite walk_from_cons, filter_cons_True by done. done.
Qed.

(** *** Click resolution and pointer-missed notifications *)

Lemma invoked_other name entering ih t data :
  name ≠ onPointerMove →
  invoked G name entering ih t data
  = if has_eventCount G t && has_handler G t name
       && (negb (isClickEvent name) || bool_decide (ih = Some (object (hit data))))
    then [name] else [].
Proof.
  intros Hn. unfold invoked. rewrite bool_decide_eq_false_2 by done.
  destruct (has_eventCount G t); [|done]. simpl. by destruct (_ && _).
Qed.

Section Blocks.
Variables (name : Name) (event : MouseEvent) (entering : bool) (ih : option obj).
Variables (I l0 : list obj) (ints : list Intersection) (δ : Z) (h : Intersection).
Hypothesis Hname : name ≠ onPointerMove.

Let run := cb_run G name event entering ih I l0.
Let mk := raycastEvent ints event δ h.
Let fires := negb (isClickEvent name) || bool_decide (ih = Some (object h)).
Let outsiders :=
  filter (λ o, has_handler G o onPointerMissed = true) (filter (λ o, o ∉ l0) I).

Lemma cb_run_other t ph C b :
  run t (mk (t, ph)) C b → has_eventCount G t = true →
  if has_handler G t name && fires
  then ∃ N, C = map (λ o, Missed o event) outsiders ++ Handle t name (mk (t, ph)) :: N
            ∧ Forall (λ c, is_native c = true) N
  else C = [].
Proof.
  intros (C0 & -> & HC) Hc. revert HC. unfold missed_before.
  rewrite bool_decide_eq_false_2 by done.
  rewrite invoked_other by done. rewrite Hc. simpl. fold fires.
  destruct (has_handler G t name && fires).
  - intros (h' & N & _ & HN & -> & _)%Calls_singleton_inv. by exists N.
  - by intros [-> _]%Calls_nil_inv.
Qed.

(** Each target that is handed the event and defines a handler for it
    gets, right after the delivery, the pointer-missed notifications and
    then its handler. *)
Lemma Bubbled_fires l ph T :
  Bubbled G run mk l ph T → fires = true →
  ∀ e t, Deliver e ∈ T → eventObject (hit e) = Some t → has_handler G t name = true →
    ∃ T1 N T2,
      T = T1 ++ Deliver e :: map (λ o, Missed o event) outsiders
             ++ Handle t name e :: N ++ T2
      ∧ Forall (λ c, is_native c = true) N.
Proof.
  intros HB Hf e t Hin Ht Hh.
  destruct (Bubbled_blocks _ _ _ _ _ _ _ _ _ _ _ _ HB _ Hin)
    as (t' & ph' & C & b & T1 & T2 & Ht' & Hc' & Hcb & -> & [Heq|HinC]).
  - injection Heq as ->. simpl in Ht. injection Ht as ->.
    pose proof (cb_run_other _ _ _ _ Hcb Hc') as HC. rewrite Hh, Hf in HC.
    destruct HC as (N & -> & HN). exists T1, N, T2. split; [|done].
    by rewrite <- !app_assoc.
  - destruct (cb_run_entries _ _ _ _ _ _ _ _ _ _ Hcb _ HinC)
      as [(n & _ & ?)|[?|(o' & ? & _)]]; done.
Qed.

(** Handlers are invoked only under the firing condition, and only the
    one named by the event. *)
Lemma Bubbled_Handle l ph T :
  Bubbled G run mk l ph T →
  ∀ o n e, Handle o n e ∈ T → n = name ∧ fires = true ∧ has_handler G o name = true.
Proof.
  intros HB o n e Hin.
  destruct (Bubbled_blocks _ _ _ _ _ _ _ _ _ _ _ _ HB _ Hin)
    as (t' & ph' & C & b & T1 & T2 & Ht' & Hc' & Hcb & -> & [?|HinC]); [done|].
  pose proof (cb_run_other _ _ _ _ Hcb Hc') as HC.
  destruct (has_handler G t' name) eqn:Hh; simpl in HC;
    [|subst C; by apply elem_of_nil in HinC].
  destruct fires; [|subst C; by apply elem_of_nil in HinC].
  destruct HC as (N & -> & HN).
  apply elem_of_app in HinC as [(? & ? & _)%list_elem_of_fmap|HinC]; [done|].
  apply elem_of_cons in HinC as [[= -> -> _]|HinC]; [done|].
  eapply Forall_forall in HN; [|exact HinC]. done.
Qed.

(** Without the firing condition the walk only delivers. *)
Lemma Bubbled_silent l ph T :
  Bubbled G run mk l ph T → fires = false → ∀ c, c ∈ T → ∃ e, c = Deliver e.
Proof.
  intros HB Hf c Hin.
  destruct (Bubbled_blocks _ _ _ _ _ _ _ _ _ _ _ _ HB _ Hin)
    as (t' & ph' & C & b & T1 & T2 & Ht' & Hc' & Hcb & -> & [->|HinC]); [by eexists|].
  pose proof (cb_run_other _ _ _ _ Hcb Hc') as HC. rewrite Hf, andb_false_r in HC.
  subst C. by apply elem_of_nil in HinC.
Qed.
End Blocks.

Lemma delivered_elem T e : e ∈ delivered T ↔ Deliver e ∈ T.
Proof.
  unfold delivered. rewrite list_elem_of_omap. split.
  - intros (c & Hc & Heq). destruct c; try done. by injection Heq as ->.
  - intros Hin. by exists (Deliver e).
Qed.

Lemma head_delivered T e : head (delivered T) = Some e → Deliver e ∈ T.
Proof.
  intros Hh. apply delivered_elem. destruct (delivered T) as [|e' D]; [done|].
  injection Hh as ->. left.
Qed.

Lemma count_app f T1 T2 : count f (T1 ++ T2) = (count f T1 + count f T2)%nat.
Proof. unfold count. by rewrite filter_app, length_app. Qed.

Lemma count_cons f c T :
  count f (c :: T) = ((if f c then 1 else 0) + count f T)%nat.
Proof.
  unfold count. rewrite filter_cons. destruct (f c) eqn:E.
  - by rewrite decide_True.
  - by rewrite decide_False.
Qed.

Lemma count_zero f T : Forall (λ c, f c = false) T → count f T = 0%nat.
Proof.
  induction 1 as [|c T Hc _ IH]; [done|]. by rewrite count_cons, Hc, IH.
Qed.

Lemma count_missed_to o event M :
  o ∈ M → (1 ≤ count (is_Missed_to o) (map (λ x, Missed x event) M))%nat.
Proof.
  induction M as [|x M IH]; [by intros ?%elem_of_nil|].
  intros Hin. simpl. rewrite count_cons. simpl.
  destruct (decide (x = o)) as [->|Hne].
  - rewrite bool_decide_eq_true_2 by done. lia.
  - apply elem_of_cons in Hin as [?|Hin]; [done|]. specialize (IH Hin). lia.
Qed.

Section Counting.
Variables (name : Name) (event : MouseEvent) (entering : bool) (ih : option obj).
Variables (I l0 : list obj) (ints : list Intersection) (δ : Z) (h : Intersection).
Hypothesis Hname : name ≠ onPointerMove.

Let run := cb_run G name event entering ih I l0.
Let mk := raycastEvent ints event δ h.

(** Every handler invocation of the walk is matched by a notification of
    its own to each outsider that has a miss handler. *)
Lemma Bubbled_count l ph T o :
  Bubbled G run mk l ph T →
  o ∈ I → o ∉ l0 → has_handler G o onPointerMissed = true →
  (count is_Handle T ≤ count (is_Missed_to o) T)%nat.
Proof.
  intros HB HoI Hol Hom.
  assert (Hblock : ∀ t ph' C b, run t (mk (t, ph')) C b → has_eventCount G t = true →
            (count is_Handle C ≤ count (is_Missed_to o) C)%nat).
  { intros t ph' C b Hcb Hc.
    pose proof (cb_run_other name event entering ih I l0 ints δ h Hname _ _ _ _ Hcb Hc)
      as HC.
    destruct (_ && _); [|by subst C].
    destruct HC as (N & -> & HN). rewrite !count_app, !count_cons. simpl.
    rewrite (count_zero is_Handle (map _ _))
      by (apply Forall_forall; by intros c (? & -> & _)%list_elem_of_fmap).
    rewrite (count_zero is_Handle N)
      by (eapply Forall_impl; [exact HN|]; by intros []).
    assert (1 ≤ count (is_Missed_to o)
                  (map (λ x, Missed x event)
                     (filter (λ o, has_handler G o onPointerMissed = true)
                        (filter (λ o, o ∉ l0) I))))%nat; [|lia].
    apply count_missed_to. apply list_elem_of_filter. split; [done|].
    by apply list_elem_of_filter. }
  induction HB as [ph|t l ph T Hc _ IH|t l ph C Hc Hrun|t l ph C T Hc Hrun _ IH].
  - done.
  - done.
  - rewrite !count_cons. simpl. by eapply Hblock.
  - rewrite !count_cons, !count_app. simpl. specialize (Hblock _ _ _ _ Hrun Hc). lia.
Qed.
End Counting.

Section Handles.
Variables (name : Name) (event : MouseEvent) (entering : bool) (ih : option obj).
Variables (I l0 : list obj) (ints : list Intersection) (δ : Z) (h : Intersection).
Hypothesis Hname : name ≠ onPointerMove.
Hypothesis Hfires : negb (isClickEvent name) || bool_decide (ih = Some (object h)) = true.

Let run := cb_run G name event entering ih I l0.
Let mk := raycastEvent ints event δ h.

Lemma cb_run_handles t ph C b :
  run t (mk (t, ph)) C b → has_eventCount G t = true →
  count is_Handle C = (if has_handler G t name then 1 else 0)%nat.
Proof.
  intros Hcb Hc.
  pose proof (cb_run_other name event entering ih I l0 ints δ h Hname _ _ _ _ Hcb Hc) as HC.
  rewrite Hfires, andb_true_r in HC.
  destruct (has_handler G t name); [|by subst C].
  destruct HC as (N & -> & HN). rewrite count_app, count_cons. simpl.
  rewrite (count_zero is_Handle (map _ _))
    by (apply Forall_forall; by intros c (? & -> & _)%list_elem_of_fmap).
  rewrite (count_zero is_Handle N) by (eapply Forall_impl; [exact HN|]; by intros []).
  done.
Qed.

(** The walk hands the event to the targets of a prefix of the chain, the
    whole chain unless a handler stopped it, and each target it reaches that
    defines the handler has it invoked exactly once. *)
Lemma Bubbled_handles l ph T :
  Bubbled G run mk l ph T →
  ∃ k, (k ≤ length l)%nat
       ∧ delivered T
         = map mk (filter (λ p, has_eventCount G p.1 = true) (take k (walk_from ph l)))
       ∧ (k = length l ∨ Exists (stops G) T)
       ∧ count is_Handle T
         = length (filter (λ p, has_eventCount G p.1 && has_handler G p.1 name = true)
                          (take k (walk_from ph l))).
Proof.
  induction 1 as [ph|t l ph T Hc _ (k & Hk & HT & Hend & Hn)|t l ph C Hc Hrun
                 |t l ph C T Hc Hrun _ (k & Hk & HT & Hend & Hn)].
  - exists 0%nat. split; [done|]. split; [done|]. split; [by left | done].
  - exists (S k). rewrite walk_from_cons. simpl. split; [lia|].
    rewrite !filter_cons_False by (simpl; by rewrite Hc). split; [done|].
    split; [|done]. destruct Hend as [->|?]; [by left | by right].
  - exists 1%nat. rewrite walk_from_cons. simpl. split; [lia|].
    rewrite take_0, (filter_cons_True (λ p, has_eventCount G p.1 = true)) by done. simpl.
    rewrite (cb_run_delivered _ _ _ _ _ _ _ _ _ _ Hrun). split; [done|]. split.
    { right. apply Exists_cons. right. by apply (cb_run_stops _ _ _ _ _ _ _ _ _ _ Hrun). }
    rewrite count_cons, (cb_run_handles _ _ _ _ Hrun Hc). simpl.
    destruct (has_handler G t name) eqn:Hh.
    + rewrite filter_cons_True by (simpl; by rewrite Hc, Hh). done.
    + rewrite filter_cons_False by (simpl; by rewrite Hc, Hh). done.
  - exists (S k). rewrite walk_from_cons. simpl. split; [lia|].
    rewrite (filter_cons_True (λ p, has_eventCount G p.1 = true)) by done. simpl.
    rewrite delivered_app, (cb_run_delivered _ _ _ _ _ _ _ _ _ _ Hrun), HT.
    split; [done|]. split.
    { destruct Hend as [->|He]; [by left|].
      right. apply Exists_cons. right. apply Exists_app. by right. }
    rewrite count_cons, count_app, (cb_run_handles _ _ _ _ Hrun Hc), Hn. simpl.
    destruct (has_handler G t name) eqn:Hh.
    + rewrite filter_cons_True by (simpl; by rewrite Hc, Hh). done.
    + rewrite filter_cons_False by (simpl; by rewrite Hc, Hh). done.
Qed.
End Handles.

Lemma isClickEvent_name name :
  isClickEvent name = true →
  raycast_name name = true ∧ name ≠ onPointerMove ∧ name ≠ onPointerDown.
Proof. by destruct name. Qed.

(** C2 (as amended). For a click, double-click or context-menu event whose
    intersection list is not empty: a handler is invoked only if the object
    of the top hit is the initial hit recorded at the last pointer-down,
    and then it is the handler of that event kind.  When the two are the
    same object, every target that is handed the event and defines the
    handler gets it, the top target first of all if it has one, each time
    right after a pointer-missed notification to every registered object
    that has a miss handler and is neither the initial hit nor one of its
    ancestors.  When they differ, the dispatch invokes no handler and sends
    no pointer-missed notification at all. *)
Theorem C2_click_resolution fuel name event s h rest :
  height_bounded G fuel →
  isClickEvent name = true →
  patchIntersects s (intersect G store s event) event = h :: rest →
  ∃ s' T l0,
    handlePointer G store fuel name event s = Some s'
    ∧ trace s' = trace s ++ T
    ∧ is_path G (initialHit s) l0
    ∧ (∀ o n e, Handle o n e ∈ T → n = name ∧ initialHit s = Some (object h))
    ∧ (initialHit s = Some (object h) →
       (∀ e t, Deliver e ∈ T → eventObject (hit e) = Some t →
               has_handler G t name = true →
          ∃ T1 N T2,
            T = T1 ++ Deliver e
                  :: map (λ o, Missed o event)
                       (filter (λ o, has_handler G o onPointerMissed = true)
                          (filter (λ o, o ∉ l0) (interaction s)))
                  ++ Handle t name e :: N ++ T2
            ∧ Forall (λ c, is_native c = true) N)
       ∧ (∀ t, eventObject h = Some t → has_eventCount G t = true →
               has_handler G t name = true →
          Handle t name
            (raycastEvent (h :: rest) event (calculateDistance s event) h (t, AT_TARGET))
          ∈ T))
    ∧ (initialHit s ≠ Some (object h) → ∀ c, c ∈ T → ∃ e, c = Deliver e).
Proof.
  intros Hb Hclick Hhits.
  destruct (isClickEvent_name _ Hclick) as (Hrc & Hnm & Hnd).
  rewrite handlePointer_dispatch by done.
  destruct (dispatch_spec fuel name event s Hb)
    as (s' & P & T & entering & l0 & Hd & HT & _ & _ & Hp0 & _ & _ & _ & HPnil & Hbub).
  rewrite Hhits in HPnil, Hbub. rewrite Hclick in Hbub.
  rewrite (bool_decide_eq_false_2 _ Hnd) in Hbub, Hp0.
  rewrite (HPnil Hnm) in HT by (by left). simpl in HT.
  destruct Hbub as (l & Hl & HB).
  exists s', T, l0. split; [done|]. split; [done|]. split; [done|].
  split; [|split].
  - intros o n e Hin.
    destruct (Bubbled_Handle _ _ _ _ _ _ _ _ _ Hnm _ _ _ HB o n e Hin) as (-> & Hf & _).
    split; [done|]. rewrite Hclick in Hf. simpl in Hf. by apply bool_decide_eq_true in Hf.
  - intros Heq.
    assert (Hf : negb (isClickEvent name) || bool_decide (initialHit s = Some (object h)) = true)
      by (rewrite bool_decide_eq_true_2 by done; apply orb_true_r).
    split.
    + intros e t Hin Ht Hh. by eapply (Bubbled_fires _ _ _ _ _ _ _ _ _ Hnm _ _ _ HB Hf).
    + intros t Ht Hc Hh.
      pose proof (Bubbled_head _ _ _ _ _ _ _ _ _ _ _ _ HB) as Hhead.
      rewrite Ht in Hl. destruct l as [|t' l]; [done|]. destruct Hl as [[= <-] _].
      rewrite walk_from_cons, filter_cons_True in Hhead by done. simpl in Hhead.
      apply head_delivered in Hhead.
      destruct (Bubbled_fires _ _ _ _ _ _ _ _ _ Hnm _ _ _ HB Hf _ t Hhead eq_refl Hh)
        as (T1 & N & T2 & -> & _).
      apply elem_of_app. right. right. apply elem_of_app. right. left.
  - intros Hne.
    assert (Hf : negb (isClickEvent name) || bool_decide (initialHit s = Some (object h)) = false)
      by (rewrite Hclick, bool_decide_eq_false_2 by done; done).
    by eapply (Bubbled_silent _ _ _ _ _ _ _ _ _ Hnm _ _ _ HB Hf).
Qed.

(** C10. For a pointer-down, pointer-up or wheel event with a non-empty
    intersection list: every target that is handed the event and defines a
    handler for it gets, right after the delivery, first a pointer-missed
    notification to each registered object that has a miss handler and is
    neither the recorded initial hit nor one of its ancestors, and only
    then its own handler.  The notifications are repeated for each such
    target: every outsider with a miss handler is notified at least as many
    times as handlers were invoked in the dispatch.  And they are invoked:
    the event is handed to the targets of the parent chain [l] of the top
    target, all of them unless a handler stopped the walk, each target
    reached that defines the handler has it invoked once, and the top target,
    if it has handlers and defines this one, gets it with the at-target
    event, preceded by a notification to every such outsider. *)
Theorem C10_missed_before_handler fuel name event s h rest :
  height_bounded G fuel →
  name ∈ [onPointerDown; onPointerUp; onWheel] →
  patchIntersects s (intersect G store s event) event = h :: rest →
  let ih := if bool_decide (name = onPointerDown) then Some (object h) else initialHit s in
  ∃ s' T l0,
    handlePointer G store fuel name event s = Some s'
    ∧ trace s' = trace s ++ T
    ∧ is_path G ih l0
    ∧ (∀ e t, Deliver e ∈ T → eventObject (hit e) = Some t →
              has_handler G t name = true →
         ∃ T1 N T2,
           T = T1 ++ Deliver e
                 :: map (λ o, Missed o event)
                      (filter (λ o, has_handler G o onPointerMissed = true)
                         (filter (λ o, o ∉ l0) (interaction s)))
                 ++ Handle t name e :: N ++ T2
           ∧ Forall (λ c, is_native c = true) N)
    ∧ (∀ o, o ∈ interaction s → o ∉ l0 → has_handler G o onPointerMissed = true →
         (count is_Handle T ≤ count (is_Missed_to o) T)%nat)
    ∧ (∃ l k,
         is_path G (eventObject h) l ∧ (k ≤ length l)%nat
         ∧ delivered T
           = map (raycastEvent (h :: rest) event 0 h)
                 (filter (λ p, has_eventCount G p.1 = true) (take k (walk_targets l)))
         ∧ (k = length l ∨ Exists (stops G) T)
         ∧ count is_Handle T
           = length (filter (λ p, has_eventCount G p.1 && has_handler G p.1 name = true)
                            (take k (walk_targets l))))
    ∧ (∀ t, eventObject h = Some t → has_eventCount G t = true →
            has_handler G t name = true →
         Handle t name (raycastEvent (h :: rest) event 0 h (t, AT_TARGET)) ∈ T
         ∧ ∀ o, o ∈ interaction s → o ∉ l0 → has_handler G o onPointerMissed = true →
                Missed o event ∈ T).
Proof.
  intros Hb Hname Hhits ih.
  assert (Hn : raycast_name name = true ∧ name ≠ onPointerMove ∧ isClickEvent name = false).
  { repeat (apply elem_of_cons in Hname as [->|Hname]; [done|]).
    by apply elem_of_nil in Hname. }
  destruct Hn as (Hrc & Hnm & Hclick).
  rewrite handlePointer_dispatch by done.
  destruct (dispatch_spec fuel name event s Hb)
    as (s' & P & T & entering & l0 & Hd & HT & _ & _ & Hp0 & _ & _ & _ & HPnil & Hbub).
  rewrite Hhits in HPnil, Hbub, Hp0. simpl in Hp0. fold ih in Hp0.
  simpl in Hbub. fold ih in Hbub. rewrite Hclick in Hbub.
  rewrite (HPnil Hnm) in HT by (by left). simpl in HT.
  destruct Hbub as (l & Hl & HB).
  exists s', T, l0. split; [done|]. split; [done|]. split; [done|].
  assert (Hf : negb (isClickEvent name) || bool_decide (ih = Some (object h)) = true)
    by (by rewrite Hclick).
  split; [|split; [|split]].
  - intros e t Hin Ht Hh. by eapply (Bubbled_fires _ _ _ _ _ _ _ _ _ Hnm _ _ _ HB Hf).
  - intros o HoI Hol Hom. by eapply (Bubbled_count _ _ _ _ _ _ _ _ _ Hnm _ _ _ _ HB).
  - destruct (Bubbled_handles _ _ _ _ _ _ _ _ _ Hnm Hf _ _ _ HB) as (k & Hk & Hdel & Hend & Hcnt).
    by exists l, k.
  - intros t Ht Hc Hh.
    pose proof (Bubbled_head _ _ _ _ _ _ _ _ _ _ _ _ HB) as Hhead.
    rewrite Ht in Hl. destruct l as [|t' l]; [done|]. destruct Hl as [[= <-] _].
    rewrite walk_from_cons, filter_cons_True in Hhead by done. simpl in Hhead.
    apply head_delivered in Hhead.
    destruct (Bubbled_fires _ _ _ _ _ _ _ _ _ Hnm _ _ _ HB Hf _ t Hhead eq_refl Hh)
      as (T1 & N & T2 & -> & _).
    split.
    + apply elem_of_app. right. right. apply elem_of_app. right. left.
    + intros o HoI Hol Hom. apply elem_of_app. right. right. apply elem_of_app. left.
      apply list_elem_of_fmap. exists o. split; [done|].
      apply list_elem_of_filter. split; [done|]. by apply list_elem_of_filter.
Qed.

(** *** Entering an object *)

Lemma invoke_capture_free self t inst n data s b :
  __r3f (G t) = Some inst → capture_free G t →
  hovered (invoke self t (handlers inst) n data (s, b)).1 = hovered s.
Proof.
  intros Hi Hfree. unfold invoke. destruct (handlers inst n) as [hd|] eqn:Hh; [|done].
  rewrite run_actions_stop_only; [done|].
  intros a Ha. eapply (Hfree n hd data a); [|done].
  unfold handler_of. by rewrite Hi.
Qed.

Lemma callback_enter_hovered fc event t data s s' b :
  capture_free G t →
  callback G fc onPointerMove event true t data s = Some (s', b) →
  hovered s'
  = if has_eventCount G t && bool_decide (eventPhase data = AT_TARGET)
    then <[pointerId event := data]> (hovered s)
    else hovered s.
Proof.
  intros Hfree. unfold callback, has_eventCount.
  destruct (__r3f (G t)) as [inst|] eqn:Hi; [|by intros [= <- _]].
  destruct (Nat.eqb (eventCount inst) 0); simpl; [by intros [= <- _]|].
  match goal with |- context [invoke _ _ _ onPointerOver _ (?s0, _)] =>
    pose proof (invoke_capture_free data t inst onPointerOver data s0 false Hi Hfree) as H1;
    destruct (invoke data t (handlers inst) onPointerOver data (s0, false)) as [s1 b1]
  end.
  pose proof (invoke_capture_free data t inst onPointerEnter data s1 b1 Hi Hfree) as H2.
  destruct (invoke data t (handlers inst) onPointerEnter data (s1, b1)) as [s2 b2].
  intros [= <- _]. simpl in H1, H2. rewrite H2, H1.
  destruct (decide (eventPhase data = AT_TARGET)) as [He|He].
  - by rewrite bool_decide_eq_true_2.
  - by rewrite bool_decide_eq_false_2.
Qed.

Lemma bubble_enter_hovered fc event ints δ l :
  ∀ fuel hh stopped s s',
    is_path G (eventObject hh) l → (∀ o, o ∈ l → capture_free G o) →
    bubble G fuel (callback G fc onPointerMove event true) ints event δ hh
           BUBBLING_PHASE stopped s = Some s' →
    hovered s' = hovered s.
Proof.
  induction l as [|t l IH]; intros fuel hh stopped s s' Hp Hfree; simpl in Hp.
  - destruct fuel; simpl; rewrite Hp; by intros [= <-].
  - destruct Hp as [Ht Hp]. destruct fuel as [|fuel]; simpl; rewrite Ht.
    { destruct stopped; [by intros [= <-] | done]. }
    destruct stopped; [by intros [= <-]|].
    assert (Hfree' : ∀ o, o ∈ l → capture_free G o) by (intros; apply Hfree; by right).
    destruct (has_eventCount G t) eqn:Hc.
    + match goal with |- context [callback _ _ _ _ _ _ ?d ?s0] =>
        destruct (callback G fc onPointerMove event true t d s0) as [[s1 b]|] eqn:Hcb
      end; [|done].
      simpl. intros Hbub.
      apply callback_enter_hovered in Hcb; [|apply Hfree; left].
      rewrite andb_false_r in Hcb.
      rewrite (IH fuel (with_eventObject hh (parent (G t))) b s1 s' Hp Hfree' Hbub).
      exact Hcb.
    + intros Hbub.
      exact (IH fuel (with_eventObject hh (parent (G t))) false s s' Hp Hfree' Hbub).
Qed.

Lemma handleIntersects_enter_hovered fuel event h rest δ l s s' :
  is_path G (eventObject h) l → (∀ o, o ∈ l → capture_free G o) →
  handleIntersects G fuel (callback G fuel onPointerMove event true) (h :: rest) event δ s
  = Some s' →
  hovered s'
  = match l with
    | [] => hovered s
    | t :: _ =>
        if has_eventCount G t
        then <[pointerId event := raycastEvent (h :: rest) event δ h (t, AT_TARGET)]> (hovered s)
        else hovered s
    end.
Proof.
  intros Hp Hfree. unfold handleIntersects. destruct l as [|t l]; simpl in Hp.
  - destruct fuel; simpl; rewrite Hp; by intros [= <-].
  - destruct Hp as [Ht Hp]. destruct fuel as [|fuel]; simpl; rewrite Ht; [done|].
    assert (Hfree' : ∀ o, o ∈ l → capture_free G o) by (intros; apply Hfree; by right).
    destruct (has_eventCount G t) eqn:Hc.
    + match goal with |- context [callback _ ?f _ _ _ _ ?d ?s0] =>
        destruct (callback G f onPointerMove event true t d s0) as [[s1 b]|] eqn:Hcb
      end; [|done].
      simpl. intros Hbub.
      apply callback_enter_hovered in Hcb; [|apply Hfree; left].
      rewrite Hc in Hcb. simpl in Hcb.
      rewrite (bubble_enter_hovered _ _ _ _ l fuel (with_eventObject h (parent (G t)))
                 b s1 s' Hp Hfree' Hbub), Hcb.
      unfold raycastEvent. simpl. by rewrite with_eventObject_same.
    + intros Hbub.
      exact (bubble_enter_hovered _ _ _ _ l fuel (with_eventObject h (parent (G t)))
               false s s' Hp Hfree' Hbub).
Qed.

Lemma dispatch_move_entering fuel event s s1 h rest :
  patchIntersects s (intersect G store s event) event = h :: rest →
  cancelPointer G fuel (pointerId event) (h :: rest) s = Some s1 →
  (object ∘ hit) <$> hovered s1 !! pointerId event ≠ Some (object h) →
  dispatch G store fuel onPointerMove event s
  = handleIntersects G fuel (callback G fuel onPointerMove event true) (h :: rest) event 0 s1.
Proof.
  intros Hhits Hcancel Hnew. unfold dispatch. rewrite Hhits. simpl.
  rewrite Hcancel. simpl. by rewrite bool_decide_eq_true_2.
Qed.

(** *** Who writes the hover map *)

Lemma no_capture_app id T1 T2 :
  no_capture id (T1 ++ T2) ↔ no_capture id T1 ∧ no_capture id T2.
Proof.
  unfold no_capture. split.
  - intros H. split; intros dom Hin; apply (H dom), elem_of_app; [by left | by right].
  - intros [H1 H2] dom [Hin|Hin]%elem_of_app; [by apply (H1 dom) | by apply (H2 dom)].
Qed.

Lemma no_capture_cons id c T : no_capture id (c :: T) → no_capture id T.
Proof. intros H dom Hin. apply (H dom). by right. Qed.

Lemma release_hovered s o cd p :
  hovered (releaseInternalPointerCapture s o cd p) = hovered s.
Proof.
  unfold releaseInternalPointerCapture.
  destruct (match cd with Some c => Some c | None => capturedMap s !! p end) as [c|];
    [|done].
  by destruct (_ || _).
Qed.

(** A call on the event API changes the hover entry of no pointer but the
    one named in a [setPointerCapture]. *)
Lemma run_action_hover self s b a :
  ∃ N, trace (run_action self (s, b) a).1 = trace s ++ N
       ∧ ∀ id, no_capture id N →
               hovered (run_action self (s, b) a).1 !! id = hovered s !! id.
Proof.
  destruct a as [|id'|id']; simpl.
  - exists []. by rewrite app_nil_r.
  - eexists [_]. split; [done|]. intros id Hno. apply lookup_insert_ne.
    intros ->. apply (Hno (target (nativeEvent self))). left.
  - destruct (release_spec s (eventObject (hit self)) (capturedMap s !! id') id')
      as (N & HN & _).
    exists N. split; [done|]. intros id _. by rewrite release_hovered.
Qed.

Lemma run_actions_hover self acts s b :
  ∃ N, trace (foldl (run_action self) (s, b) acts).1 = trace s ++ N
       ∧ ∀ id, no_capture id N →
               hovered (foldl (run_action self) (s, b) acts).1 !! id = hovered s !! id.
Proof.
  revert s b. induction acts as [|a acts IH]; intros s b; simpl.
  - exists []. by rewrite app_nil_r.
  - destruct (run_action_hover self s b a) as (N1 & H1 & Hh1).
    destruct (run_action self (s, b) a) as [s1 b1] eqn:E. simpl in *.
    destruct (IH s1 b1) as (N2 & H2 & Hh2).
    exists (N1 ++ N2). rewrite H2, H1, <- app_assoc. split; [done|].
    intros id [Hn1 Hn2]%no_capture_app. by rewrite Hh2, Hh1.
Qed.

Lemma invoke_hover self o hs n data s b :
  ∃ C, trace (invoke self o hs n data (s, b)).1 = trace s ++ C
       ∧ ∀ id, no_capture id C →
               hovered (invoke self o hs n data (s, b)).1 !! id = hovered s !! id.
Proof.
  unfold invoke. destruct (hs n) as [hd|]; simpl.
  - destruct (run_actions_hover self (hd data) (emit s [Handle o n data]) b)
      as (N & HN & Hh).
    exists (Handle o n data :: N). simpl in HN. rewrite HN, <- app_assoc.
    split; [done|]. intros id Hno%no_capture_cons. by rewrite Hh.
  - exists []. by rewrite app_nil_r.
Qed.

Lemma callback_enter_hover fc event t data s s' b :
  callback G fc onPointerMove event true t data s = Some (s', b) →
  ∃ C, trace s' = trace s ++ C
       ∧ ∀ id, no_capture id C →
               hovered s' !! id
               = (if has_eventCount G t && bool_decide (eventPhase data = AT_TARGET)
                  then <[pointerId event := data]> (hovered s)
                  else hovered s) !! id.
Proof.
  unfold callback, has_eventCount.
  destruct (__r3f (G t)) as [inst|] eqn:Hi.
  2:{ intros [= <- _]. exists []. by rewrite app_nil_r. }
  destruct (Nat.eqb (eventCount inst) 0); simpl.
  { intros [= <- _]. exists []. by rewrite app_nil_r. }
  match goal with |- context [invoke _ _ _ onPointerOver _ (?s0, _)] =>
    destruct (invoke_hover data t (handlers inst) onPointerOver data s0 false)
      as (C1 & HT1 & Hh1);
    destruct (invoke data t (handlers inst) onPointerOver data (s0, false)) as [s1 b1]
  end.
  destruct (invoke_hover data t (handlers inst) onPointerEnter data s1 b1)
    as (C2 & HT2 & Hh2).
  destruct (invoke data t (handlers inst) onPointerEnter data (s1, b1)) as [s2 b2].
  intros [= <- _]. simpl in HT1, Hh1, HT2, Hh2.
  exists (C1 ++ C2). split.
  - rewrite HT2, HT1, <- app_assoc. by destruct (decide _).
  - intros id [Hn1 Hn2]%no_capture_app. rewrite Hh2, Hh1 by done.
    destruct (decide (eventPhase data = AT_TARGET)) as [He|He].
    + by rewrite bool_decide_eq_true_2.
    + by rewrite bool_decide_eq_false_2.
Qed.

Lemma bubble_enter_hover fc event ints δ :
  ∀ fuel hh stopped s s',
    bubble G fuel (callback G fc onPointerMove event true) ints event δ hh
           BUBBLING_PHASE stopped s = Some s' →
    ∃ T, trace s' = trace s ++ T
         ∧ ∀ id, no_capture id T → hovered s' !! id = hovered s !! id.
Proof.
  assert (Hnil : ∀ s, ∃ T, trace s = trace s ++ T
                           ∧ ∀ id, no_capture id T → hovered s !! id = hovered s !! id).
  { intros s. exists []. by rewrite app_nil_r. }
  induction fuel as [|fuel IH]; intros hh stopped s s'; simpl.
  - destruct (eventObject hh); [|by intros [= <-]].
    destruct stopped; [by intros [= <-] | done].
  - destruct (eventObject hh) as [t|]; [|by intros [= <-]].
    destruct stopped; [by intros [= <-]|].
    destruct (has_eventCount G t) eqn:Hc; [|by apply IH].
    match goal with |- context [callback _ _ _ _ _ _ ?d ?s0] =>
      destruct (callback G fc onPointerMove event true t d s0) as [[s1 b]|] eqn:Hcb
    end; [|done].
    simpl. intros Hbub.
    apply callback_enter_hover in Hcb as (C & HC & HhC). simpl in HC, HhC.
    rewrite andb_false_r in HhC.
    destruct (IH _ _ _ _ Hbub) as (T & HT & HhT).
    eexists (Deliver _ :: C ++ T). split.
    + rewrite HT, HC, <- !app_assoc. done.
    + intros id [Hn1 Hn2]%no_capture_cons%no_capture_app. by rewrite HhT, HhC.
Qed.

Lemma handleIntersects_enter_hover fuel event h rest δ l s s' :
  is_path G (eventObject h) l →
  handleIntersects G fuel (callback G fuel onPointerMove event true) (h :: rest) event δ s
  = Some s' →
  ∃ T, trace s' = trace s ++ T
       ∧ ∀ id, no_capture id T →
               hovered s' !! id
               = match l with
                 | [] => hovered s
                 | t :: _ =>
                     if has_eventCount G t
                     then <[pointerId event
                            := raycastEvent (h :: rest) event δ h (t, AT_TARGET)]> (hovered s)
                     else hovered s
                 end !! id.
Proof.
  intros Hp. unfold handleIntersects. destruct l as [|t l]; simpl in Hp.
  - destruct fuel; simpl; rewrite Hp; intros [= <-]; exists []; by rewrite app_nil_r.
  - destruct Hp as [Ht Hp]. destruct fuel as [|fuel]; simpl; rewrite Ht; [done|].
    destruct (has_eventCount G t) eqn:Hc; [|by apply bubble_enter_hover].
    match goal with |- context [callback _ ?f _ _ _ _ ?d ?s0] =>
      destruct (callback G f onPointerMove event true t d s0) as [[s1 b]|] eqn:Hcb
    end; [|done].
    simpl. intros Hbub.
    apply callback_enter_hover in Hcb as (C & HC & HhC). simpl in HC, HhC.
    rewrite Hc in HhC. simpl in HhC.
    destruct (bubble_enter_hover _ _ _ _ _ _ _ _ _ Hbub) as (T & HT & HhT).
    eexists (Deliver _ :: C ++ T). split.
    + rewrite HT, HC, <- !app_assoc. done.
    + intros id [Hn1 Hn2]%no_capture_cons%no_capture_app. rewrite HhT, HhC by done.
      unfold raycastEvent. simpl. by rewrite with_eventObject_same.
Qed.

(** C7 (as amended). Take a pointer-move dispatch with a non-empty
    intersection list that enters an object: once [cancelPointer] has dealt
    with the previous hover (leaving state [s1]), the pointer hovers nothing
    or an object other than the top hit.  With [l] the parent chain of the
    top target: the targets handed the event are those of the bubble walk
    (top target at-target, ancestors bubbling); each of them, ancestor or
    not, gets its [onPointerOver] and then its [onPointerEnter] handler, as
    far as it defines them, and no [onPointerMove] handler is invoked.  The
    callback records the hover entry only for the delivery in phase
    at-target, and nothing else writes the hover map but a handler that
    calls [setPointerCapture] itself: for every pointer whose capture no
    handler of this dispatch has taken, the hover entry afterwards is the
    one of [s1], except that the pointer of the event hovers the at-target
    event of the top target if that target has handlers.  In particular,
    when the handlers on [l] leave the pointer capture alone, the whole
    hover map is as described. *)
Theorem C7_enter_bubbles fuel event s s1 h rest l :
  height_bounded G fuel →
  patchIntersects s (intersect G store s event) event = h :: rest →
  cancelPointer G fuel (pointerId event) (h :: rest) s = Some s1 →
  (object ∘ hit) <$> hovered s1 !! pointerId event ≠ Some (object h) →
  is_path G (eventObject h) l →
  ∃ s' T k,
    handlePointer G store fuel onPointerMove event s = Some s'
    ∧ trace s' = trace s1 ++ T
    ∧ delivered T
      = map (raycastEvent (h :: rest) event 0 h)
            (filter (λ p, has_eventCount G p.1 = true) (take k (walk_targets l)))
    ∧ (k = length l ∨ Exists (stops G) T)
    ∧ (∀ e t, Deliver e ∈ T → eventObject (hit e) = Some t →
         ∃ T1 C b T2,
           T = T1 ++ Deliver e :: C ++ T2
           ∧ Calls G t e (filter (λ n, has_handler G t n = true)
                            [onPointerOver; onPointerEnter]) C b)
    ∧ (∀ o n e, Handle o n e ∈ T → n = onPointerOver ∨ n = onPointerEnter)
    ∧ ((∀ o, o ∈ l → capture_free G o) →
       hovered s'
       = match l with
         | [] => hovered s1
         | t :: _ =>
             if has_eventCount G t
             then <[pointerId event := raycastEvent (h :: rest) event 0 h (t, AT_TARGET)]>
                    (hovered s1)
             else hovered s1
         end)
    ∧ (∀ id, no_capture id T →
         hovered s' !! id
         = match l with
           | [] => hovered s1
           | t :: _ =>
               if has_eventCount G t
               then <[pointerId event := raycastEvent (h :: rest) event 0 h (t, AT_TARGET)]>
                      (hovered s1)
               else hovered s1
           end !! id).
Proof.
  intros Hb Hhits Hcancel Hnew Hp.
  rewrite handlePointer_dispatch by done.
  rewrite (dispatch_move_entering fuel event s s1 h rest Hhits Hcancel Hnew).
  destruct (handleIntersects_bounded fuel onPointerMove event true (h :: rest) 0 s1 h rest l
              Hb eq_refl Hp) as (s' & T & l0 & Hrun & HT & _ & _ & HB).
  destruct (Bubbled_delivered _ _ _ _ _ _ _ _ _ _ _ _ HB) as (k & Hk & Hd & Hend).
  assert (Hblock : ∀ t ev C b,
            cb_run G onPointerMove event true (initialHit s1) (interaction s1) l0 t ev C b →
            has_eventCount G t = true →
            Calls G t ev (filter (λ n, has_handler G t n = true)
                            [onPointerOver; onPointerEnter]) C b).
  { intros t ev C b (C0 & -> & HC) Hc. revert HC. unfold missed_before, invoked.
    rewrite Hc. simpl. done. }
  exists s', T, k. do 4 (split; [done|]). split; [|split; [|split]].
  - intros e t Hin Ht.
    destruct (Bubbled_blocks _ _ _ _ _ _ _ _ _ _ _ _ HB _ Hin)
      as (t' & ph' & C & b & T1 & T2 & Ht' & Hc' & Hcb & -> & [Heq|HinC]).
    + injection Heq as ->. simpl in Ht. injection Ht as ->.
      exists T1, C, b, T2. split; [done|]. by apply Hblock.
    + destruct (cb_run_entries _ _ _ _ _ _ _ _ _ _ Hcb _ HinC)
        as [(n & _ & ?)|[?|(o' & ? & _)]]; done.
  - intros o n e Hin.
    destruct (Bubbled_blocks _ _ _ _ _ _ _ _ _ _ _ _ HB _ Hin)
      as (t' & ph' & C & b & T1 & T2 & Ht' & Hc' & Hcb & -> & [?|HinC]); [done|].
    pose proof (Hblock _ _ _ _ Hcb Hc') as HC.
    destruct (Calls_entries _ _ _ _ _ HC _ HinC) as [(n' & Hn' & Heq)|?]; [|done].
    injection Heq as -> -> ->.
    apply list_elem_of_filter in Hn' as [_ Hn'].
    apply elem_of_cons in Hn' as [->|Hn']; [by left|].
    apply list_elem_of_singleton in Hn' as ->. by right.
  - intros Hfree. by eapply handleIntersects_enter_hovered.
  - destruct (handleIntersects_enter_hover fuel event h rest 0 l s1 s' Hp Hrun)
      as (T' & HT' & Hhov).
    rewrite HT in HT'. apply app_inv_head in HT' as <-. exact Hhov.
Qed.

(** *** Termination of the ancestor walks *)

(** C9 (as amended). On a graph whose parent chains all reach a root within
    [fuel] objects, each of the three walks along parent links returns
    within [fuel] steps: the ancestor test, the bubble walk of
    [handleIntersects] (with the callback of [handlePointer]) and the leave
    walk of [cancelPointer]. *)
Theorem C9_walks_terminate fuel :
  height_bounded G fuel →
  (∀ a c, ∃ r, isAncestor G fuel a c = Some r)
  ∧ (∀ name event entering hits δ s,
       ∃ s', handleIntersects G fuel (callback G fuel name event entering) hits event δ s
             = Some s')
  ∧ (∀ pid hits s, ∃ s', cancelPointer G fuel pid hits s = Some s').
Proof.
  intros Hb. split; [|split].
  - intros a c. destruct (height_bounded_option fuel c Hb) as (l & Hp & Hl).
    eexists. by apply isAncestor_path.
  - intros name event entering hits δ s. destruct hits as [|h rest]; [by exists s|].
    destruct (height_bounded_option fuel (eventObject h) Hb) as (l & Hp & Hl).
    destruct (handleIntersects_bounded fuel name event entering (h :: rest) δ s h rest l
                Hb eq_refl Hp) as (s' & T & l0 & Hrun & _).
    by exists s'.
  - intros pid hits s.
    destruct (cancelPointer_spec fuel pid hits s Hb) as (s' & T & Hc & _). by exists s'.
Qed.

(** *** Intersection normalization *)

Lemma dedup_head seen item rest :
  makeId G item ∉ seen → head (dedup G seen (item :: rest)) = Some item.
Proof. intros Hn. simpl. by rewrite decide_False. Qed.

Lemma dedup_sublist seen items : dedup G seen items `sublist_of` items.
Proof.
  revert seen. induction items as [|item rest IH]; intros seen; simpl; [done|].
  destruct (decide _); [by apply sublist_cons | by apply sublist_skip].
Qed.

Lemma dedup_ids seen items :
  NoDup (makeId G <$> dedup G seen items)
  ∧ ∀ x, x ∈ dedup G seen items → makeId G x ∉ seen.
Proof.
  revert seen. induction items as [|item rest IH]; intros seen; simpl.
  - split; [constructor | by intros x ?%elem_of_nil].
  - destruct (decide _) as [Hin|Hnin]; [apply IH|].
    destruct (IH ({[makeId G item]} ∪ seen)) as [Hnd Hout]. split.
    + simpl. constructor; [|done].
      intros (x & Hx & Hxin)%list_elem_of_fmap. apply Hout in Hxin.
      apply Hxin. rewrite Hx. by apply elem_of_union_l, elem_of_singleton.
    + intros x [->|Hx]%elem_of_cons; [done|]. apply Hout in Hx.
      intros ?. by apply Hx, elem_of_union_r.
Qed.

(** A hit whose identity string was not met before is kept. *)
Lemma dedup_keeps_first seen (pre : list Intersection) x post :
  makeId G x ∉ seen → makeId G x ∉ (makeId G <$> pre) →
  x ∈ dedup G seen (pre ++ x :: post).
Proof.
  revert seen. induction pre as [|y pre IH]; intros seen Hs Hl; simpl.
  - rewrite decide_False by done. left.
  - simpl in Hl. apply not_elem_of_cons in Hl as [Hy Hl].
    destruct (decide _); [by apply IH|]. right. apply IH; [|done].
    intros [Heq%elem_of_singleton|?]%elem_of_union; done.
Qed.

(** A later hit with the identity string of an earlier one is dropped. *)
Lemma dedup_drops_later seen (pre : list Intersection) x post y :
  makeId G y = makeId G x →
  dedup G seen (pre ++ x :: post ++ [y]) = dedup G seen (pre ++ x :: post).
Proof.
  intros Hid.
  assert (Hgo : ∀ (items : list Intersection) seen',
             makeId G y ∈ seen' → dedup G seen' (items ++ [y]) = dedup G seen' items).
  { induction items as [|z items IHl]; intros seen' Hin; simpl.
    - by rewrite decide_True.
    - destruct (decide _); [by apply IHl|]. f_equal. apply IHl.
      by apply elem_of_union_r. }
  revert seen. induction pre as [|z pre IH]; intros seen; simpl.
  - destruct (decide _) as [Hin|Hnin].
    + apply Hgo. by rewrite Hid.
    + f_equal. apply Hgo. rewrite Hid. by apply elem_of_union_l, elem_of_singleton.
  - destruct (decide _); [apply IH|]. f_equal. apply IH.
Qed.

(** Hits with the same triple have the same identity string. *)
Lemma makeId_triple x y : triple x = triple y → makeId G x = makeId G y.
Proof. unfold triple, makeId. by intros [= -> -> ->]. Qed.

(** As long as the identity string tells apart the triples that occur, the
    filter of [intersect] is the deduplication by triple. *)
Lemma dedup_by_triple_agrees (items : list Intersection) :
  (∀ x y, x ∈ items → y ∈ items → makeId G x = makeId G y → triple x = triple y) →
  dedup G ∅ items = dedup_by_triple [] items.
Proof.
  intros Hinj.
  assert (Hgo : ∀ (rest : list Intersection) (ids : gset string)
                  (seen : list (obj * option Z * option Z)),
             (∀ x, x ∈ rest → x ∈ items) →
             (∀ x, x ∈ rest → makeId G x ∈ ids ↔ triple x ∈ seen) →
             (∀ x y, x ∈ rest → y ∈ rest → makeId G x = makeId G y → triple x = triple y) →
             dedup G ids rest = dedup_by_triple seen rest).
  { clear Hinj. induction rest as [|item rest IH]; intros ids seen Hsub Hseen Hinj; [done|].
    simpl. pose proof (Hseen item ltac:(left)) as Hitem.
    destruct (decide (makeId G item ∈ ids)) as [Hin|Hnin].
    - rewrite decide_True by (by apply Hitem).
      apply IH; [| |]; intros; [apply Hsub | apply Hseen | apply Hinj]; by try right.
    - rewrite decide_False by (by rewrite <- Hitem).
      f_equal. apply IH.
      + intros; apply Hsub; by right.
      + intros x Hx. rewrite elem_of_union, elem_of_singleton, elem_of_cons.
        rewrite (Hseen x) by (by right). split.
        * intros [Heq|?]; [left | by right].
          apply Hinj; [by right | left | done].
        * intros [Heq|?]; [left | by right]. by apply makeId_triple.
      + intros; apply Hinj; by try right. }
  apply Hgo; [done | | done].
  intros x _. split; [by intros ?%not_elem_of_empty | by intros ?%elem_of_nil].
Qed.

(** C6 (as amended). [intersect] hands the whole Interaction Set to the
    raycaster, whatever handlers its objects have: with the raycaster
    enabled and no [filter] hook, the first hit the raycaster reports for
    the full set is the first intersection of the dispatch, retargeted at
    its own object. *)
Theorem C6_no_handler_filter s event h raw :
  enabled (raycaster store) = true →
  filter_hook (raycaster store) = None →
  intersectObjects (raycaster store) event (interaction s) = h :: raw →
  head (intersect G store s event) = Some (with_eventObject h (Some (object h))).
Proof.
  intros He Hf Hr. unfold intersect. rewrite He, Hf, Hr. simpl.
  rewrite decide_False by apply not_elem_of_empty. done.
Qed.

(** *** Removing an object *)

Lemma release_object st o cd p :
  releaseInternalPointerCapture st (Some o) (Some cd) p
  = if held_by o cd
    then emit (set_capturedMap st (delete p (capturedMap st)))
              [NativeReleaseCapture (domTarget cd) p]
    else st.
Proof. unfold releaseInternalPointerCapture. done. Qed.

Lemma release_all_spec o (L : list (PointerId * PointerCaptureData)) :
  ∀ st,
    let st' := foldl (λ st kv, releaseInternalPointerCapture st (Some o) (Some kv.2) kv.1)
                     st L in
    interaction st' = interaction st ∧ hovered st' = hovered st
    ∧ trace st' = trace st
        ++ omap (λ kv, if held_by o kv.2
                       then Some (NativeReleaseCapture (domTarget kv.2) kv.1) else None) L
    ∧ ∀ p cd, capturedMap st' !! p = Some cd
              ↔ capturedMap st !! p = Some cd
                ∧ ∀ cd', (p, cd') ∈ L → held_by o cd' = false.
Proof.
  induction L as [|[q c] L IH]; intros st; simpl.
  - rewrite app_nil_r. do 3 (split; [done|]). intros p cd. split; [|by intros [? _]].
    intros ?. split; [done|]. by intros cd' ?%elem_of_nil.
  - rewrite release_object.
    destruct (IH (if held_by o c
                  then emit (set_capturedMap st (delete q (capturedMap st)))
                            [NativeReleaseCapture (domTarget c) q]
                  else st)) as (HI & HH & HT & HC).
    rewrite HI, HH, HT. destruct (held_by o c) eqn:Hheld; simpl.
    + do 2 (split; [done|]). split; [by rewrite <- app_assoc|].
      intros p cd. rewrite HC. simpl. rewrite lookup_delete_Some. split.
      * intros [[Hne Hl] Hall]. split; [done|].
        intros cd' [[= -> ->]|Hin]%elem_of_cons; [done | by apply Hall].
      * intros [Hl Hall]. split.
        -- split; [|done]. intros <-. specialize (Hall c ltac:(left)). congruence.
        -- intros cd' Hin. apply Hall. by right.
    + do 3 (split; [done|]). intros p cd. rewrite HC. split.
      * intros [Hl Hall]. split; [done|].
        intros cd' [[= -> ->]|Hin]%elem_of_cons; [done | by apply Hall].
      * intros [Hl Hall]. split; [done|]. intros cd' Hin. apply Hall. by right.
Qed.

Lemma NoDup_releases o (L : list (PointerId * PointerCaptureData)) :
  NoDup L.*1 →
  NoDup (omap (λ kv, if held_by o kv.2
                     then Some (NativeReleaseCapture (domTarget kv.2) kv.1) else None) L).
Proof.
  induction L as [|[q c] L IH]; simpl; [constructor|].
  intros [Hq Hnd]%NoDup_cons. destruct (held_by o c); [|by apply IH].
  constructor; [|by apply IH].
  intros ([q' c'] & Hin & Heq)%list_elem_of_omap. simpl in Heq.
  destruct (held_by o c'); [|done]. injection Heq as _ ->.
  apply Hq. apply list_elem_of_fmap. by exists (q, c').
Qed.

(** X21. [removeInteractivity] takes the object out of the Interaction Set,
    deletes exactly the hover entries whose object or event target it is,
    deletes exactly the capture entries whose target it is, and calls the
    native [releasePointerCapture] once for each of the pointers so
    released and for no other.  Every other entry stays as it is: a capture
    entry held by another target is kept whatever its stored hit is. *)
Theorem X21_remove_purges s o :
  let s' := removeInteractivity s o in
  interaction s' = filter (λ x, x ≠ o) (interaction s)
  ∧ (∀ p ev, hovered s' !! p = Some ev
             ↔ hovered s !! p = Some ev
               ∧ eventObject (hit ev) ≠ Some o ∧ object (hit ev) ≠ o)
  ∧ (∀ p cd, capturedMap s' !! p = Some cd
             ↔ capturedMap s !! p = Some cd ∧ eventObject (intersection cd) ≠ Some o)
  ∧ (∃ N, trace s' = trace s ++ N ∧ NoDup N
          ∧ ∀ c, c ∈ N
                 ↔ ∃ p cd, capturedMap s !! p = Some cd
                           ∧ eventObject (intersection cd) = Some o
                           ∧ c = NativeReleaseCapture (domTarget cd) p).
Proof.
  intros s'. subst s'. unfold removeInteractivity.
  set (s1 := set_interaction s (filter (λ x, x ≠ o) (interaction s))).
  set (s2 := if decide (initialHit s1 = Some o) then set_initialHit s1 None else s1).
  set (s3 := set_hovered s2
               (filter (λ kv : PointerId * ThreeEvent, hover_mentions o kv.2 = false)
                       (hovered s2))).
  assert (H3 : interaction s3 = filter (λ x, x ≠ o) (interaction s)
               ∧ hovered s3
                 = filter (λ kv : PointerId * ThreeEvent, hover_mentions o kv.2 = false)
                          (hovered s)
               ∧ capturedMap s3 = capturedMap s
               ∧ trace s3 = trace s)
    by (subst s3 s2; by destruct (decide _)).
  destruct H3 as (H3I & H3H & H3C & H3T). rewrite H3C.
  destruct (release_all_spec o (map_to_list (capturedMap s)) s3) as (HI & HH & HT & HC).
  cbv zeta in HI, HH, HT, HC.
  rewrite H3I in HI. rewrite H3H in HH. rewrite H3T in HT.
  assert (HC' := λ p cd, HC p cd). clear HC.
  assert (HC : ∀ p cd,
            capturedMap
              (foldl (λ st kv, releaseInternalPointerCapture st (Some o) (Some kv.2) kv.1)
                     s3 (map_to_list (capturedMap s))) !! p = Some cd
            ↔ capturedMap s !! p = Some cd
              ∧ ∀ cd', (p, cd') ∈ map_to_list (capturedMap s) → held_by o cd' = false).
  { intros p cd. rewrite HC'. by rewrite H3C. }
  clear HC'.
  assert (Hhov : ∀ p ev,
            filter (λ kv : PointerId * ThreeEvent, hover_mentions o kv.2 = false) (hovered s)
              !! p = Some ev
            ↔ hovered s !! p = Some ev
              ∧ eventObject (hit ev) ≠ Some o ∧ object (hit ev) ≠ o).
  { intros p ev. rewrite map_lookup_filter_Some. simpl. unfold hover_mentions.
    rewrite orb_false_iff, !bool_decide_eq_false. done. }
  assert (Hcap : ∀ p cd,
            (capturedMap s !! p = Some cd
             ∧ ∀ cd', (p, cd') ∈ map_to_list (capturedMap s) → held_by o cd' = false)
            ↔ capturedMap s !! p = Some cd ∧ eventObject (intersection cd) ≠ Some o).
  { intros p cd. split.
    - intros [Hl Hall]. split; [done|].
      apply (bool_decide_eq_false (eventObject (intersection cd) = Some o)).
      apply (Hall cd). by apply elem_of_map_to_list.
    - intros [Hl Hne]. split; [done|]. intros cd' Hin%elem_of_map_to_list.
      rewrite Hl in Hin. injection Hin as <-.
      by apply (bool_decide_eq_false (eventObject (intersection cd) = Some o)). }
  split; [exact HI|]. split; [by intros p ev; rewrite HH|].
  split; [by intros p cd; rewrite HC|].
  eexists. split; [exact HT|]. split.
  - apply NoDup_releases, NoDup_fst_map_to_list.
  - intros c. rewrite list_elem_of_omap. split.
    + intros ([p cd] & Hin%elem_of_map_to_list & Heq). simpl in Heq.
      destruct (held_by o cd) eqn:Hh; [|done]. injection Heq as <-.
      apply bool_decide_eq_true in Hh. by exists p, cd.
    + intros (p & cd & Hl & Ht & ->). exists (p, cd). split.
      * by apply elem_of_map_to_list.
      * simpl. unfold held_by. by rewrite bool_decide_eq_true_2.
Qed.

End Properties.


(** ** The deduplication key *)

(** C5. The identity string of a hit joins the index and the instance index
    without a separator.  On three raw hits of one object with (index,
    instance) pairs (1, 23), (12, 3) and (12, 3), the first two get the same
    string although their triples differ; deduplication keeps the first hit
    only, so the two hits that share a triple leave no record at all, where
    deduplication by triple keeps the first of them. *)
Theorem C5_dedup_key_collision :
  triple collide_b = triple collide_c
  ∧ triple collide_a ≠ triple collide_b
  ∧ makeId demo_scene collide_a = makeId demo_scene collide_b
  ∧ dedup demo_scene ∅ [collide_a; collide_b; collide_c] = [collide_a]
  ∧ dedup_by_triple [] [collide_a; collide_b; collide_c] = [collide_a; collide_b].
Proof. repeat split; try reflexivity. intros [=]. Qed.

(** ** A capture that outlives the object it was taken on *)

(** C8. In [grab_scene] pointer 7 moves onto mesh 2 and the handler of group
    1, reached in the bubbling phase, takes the capture: hover entry and
    capture entry of the pointer hold the same hit, on mesh 2 with the group
    as event target, and every object the two maps reference is registered.
    Removing mesh 2 takes it out of the Interaction Set and deletes the
    hover entry, whose hit object is compared with it, but keeps the capture
    entry and makes no native release, since only the event target of a
    capture entry is compared: afterwards the capture map references an
    object that is absent from the Interaction Set, and the next move of
    pointer 7 puts an event on the removed mesh back into the hover map. *)
Theorem C8_ancestor_capture_survives :
  let s' := removeInteractivity grabbed_state 2 in
  handlePointer grab_scene demo_store 2 onPointerMove (pointer_at 10) demo_state
  = Some grabbed_state
  ∧ hit (grab_event 1 BUBBLING_PHASE) = intersection ancestor_capture
  ∧ object (intersection ancestor_capture) = 2%nat
  ∧ registry_closed grabbed_state
  ∧ interaction s' = [1; 3; 4; 5]%nat
  ∧ hovered s' !! Some 7 = None
  ∧ capturedMap s' !! Some 7 = Some ancestor_capture
  ∧ trace s' = trace grabbed_state
  ∧ ¬ registry_closed s'
  ∧ ∃ s'' ev,
      handlePointer grab_scene demo_store 2 onPointerMove (pointer_at 0) s' = Some s''
      ∧ hovered s'' !! Some 7 = Some ev
      ∧ object (hit ev) = 2%nat
      ∧ (object (hit ev) ∉ interaction s'').
Proof.
  intros s'.
  assert (Hcap : capturedMap s' !! Some 7 = Some ancestor_capture)
    by (vm_compute; reflexivity).
  assert (Hout : 2%nat ∉ [1; 3; 4; 5]%nat).
  { intros H. repeat (apply elem_of_cons in H as [H|H]; [discriminate H|]).
    by apply elem_of_nil in H. }
  split; [vm_compute; reflexivity|]. do 2 (split; [reflexivity|]).
  split; [|split; [reflexivity|]; split; [vm_compute; reflexivity|];
           split; [exact Hcap|]; split; [reflexivity|]; split].
  - split.
    + intros p ev H. simpl in H.
      apply lookup_singleton_Some in H as [_ <-]. simpl. split.
      * right. left.
      * intros t [= <-]. left.
    + intros p cd H. simpl in H.
      apply lookup_singleton_Some in H as [_ <-]. simpl. split.
      * right. left.
      * intros t [= <-]. left.
  - intros [_ Hc]. destruct (Hc (Some 7) ancestor_capture Hcap) as [Hin _].
    exact (Hout Hin).
  - eexists _, _. split; [vm_compute; reflexivity|]. split; [vm_compute; reflexivity|].
    split; [reflexivity|]. exact Hout.
Qed.

(** ** The example scenes *)

Lemma demo_height : height_bounded demo_scene 2.
Proof.
  intros o.
  exists (match parent (demo_scene o) with Some p => [o; p] | None => [o] end).
  do 6 (destruct o as [|o]; [simpl; split; [repeat split | lia]|]).
  simpl. split; [repeat split | lia].
Qed.

Lemma calm_height : height_bounded calm_scene 2.
Proof.
  intros o.
  exists (match parent (calm_scene o) with Some p => [o; p] | None => [o] end).
  do 6 (destruct o as [|o]; [simpl; split; [repeat split | lia]|]).
  simpl. split; [repeat split | lia].
Qed.

(** ** Where the code departs from the specification *)

(** C1, counterexample.  Mesh 2 holds the capture of pointer 7 and the
    pointer is over mesh 2: the intersection list of the dispatch holds the
    captured intersection and the live hit on the same object, two records
    with one identity.  No deduplication ran after the capture was put in
    front.  And when the capture target has no handlers left (object 6), a
    dispatch for the captured pointer hands the event to nobody. *)
Lemma C1_counterexample :
  (let hits := patchIntersects captured_state
                 (intersect demo_scene demo_store captured_state (pointer_at 10))
                 (pointer_at 10) in
   hits = [live_hit 2 1; live_hit 2 1]
   ∧ ¬ NoDup (makeId demo_scene <$> hits)
   ∧ dedup demo_scene ∅ hits = [live_hit 2 1])
  ∧ (let s := set_capturedMap demo_state
                {[ Some 7 := {| intersection := live_hit 6 1; domTarget := 0%nat |} ]} in
     ∃ s', handlePointer demo_scene demo_store 2 onPointerMove (pointer_at 50) s = Some s'
           ∧ patchIntersects s (intersect demo_scene demo_store s (pointer_at 50))
               (pointer_at 50) = [live_hit 6 1]
           ∧ delivered (trace s') = []).
Proof.
  split.
  - split; [reflexivity|]. split; [|reflexivity].
    intros Hnd. apply NoDup_cons in Hnd as [Hnin _]. apply Hnin. left.
  - eexists. split; [vm_compute; reflexivity|]. split; reflexivity.
Qed.

(** C2, counterexample.  The pointer went down on mesh 2 and the click
    resolves to mesh 3, which has a click handler.  Mesh 4 is registered,
    has a miss handler and is no ancestor of mesh 2, yet the dispatch sends
    no pointer-missed notification (and invokes no handler). *)
Lemma C2_counterexample :
  ∃ s',
    handlePointer calm_scene demo_store 2 onClick (pointer_at 20) pressed_state = Some s'
    ∧ initialHit pressed_state = Some 2%nat
    ∧ object <$> head (patchIntersects pressed_state
                         (intersect calm_scene demo_store pressed_state (pointer_at 20))
                         (pointer_at 20)) = Some 3%nat
    ∧ 4%nat ∈ interaction pressed_state
    ∧ has_handler calm_scene 4 onPointerMissed = true
    ∧ isAncestor calm_scene 2 4 (Some 2%nat) = Some false
    ∧ missed (trace s') = []
    ∧ handled (trace s') = [].
Proof.
  eexists. split; [vm_compute; reflexivity|].
  repeat split; try reflexivity. vm_compute. do 3 right. left.
Qed.

(** C6, counterexample.  Mesh 3 is registered with a click handler only, so
    the pointer-family filter of the source would drop it; the dispatch at
    offset 20 still reports the hit on it. *)
Lemma C6_counterexample :
  3%nat ∈ interaction demo_state
  ∧ (3%nat ∉ filterPointerEvents demo_scene (interaction demo_state))
  ∧ intersect demo_scene demo_store demo_state (pointer_at 20) = [live_hit 3 1].
Proof.
  split; [do 2 right; left|]. split; [|reflexivity].
  intros Hin. apply list_elem_of_filter in Hin as [Hf _]. vm_compute in Hf. discriminate.
Qed.

(** C7, counterexample.  The idle pointer 7 moves onto mesh 2, child of
    group 1; both define [onPointerOver] and [onPointerMove].  The group, an
    ancestor reached in the bubbling phase, gets [onPointerOver], and nobody
    gets [onPointerMove].  And where the group's [onPointerOver] handler
    takes the pointer capture, the same move leaves a hover entry for
    pointer 7 whose event is in the bubbling phase and targets the group:
    [setPointerCapture] writes the hover map too. *)
Lemma C7_counterexample :
  (∃ s',
     handlePointer calm_scene demo_store 2 onPointerMove (pointer_at 10) demo_state = Some s'
     ∧ parent (calm_scene 2) = Some 1%nat
     ∧ has_handler calm_scene 1 onPointerMove = true
     ∧ map (λ e, (eventObject (hit e), eventPhase e)) (delivered (trace s'))
       = [(Some 2%nat, AT_TARGET); (Some 1%nat, BUBBLING_PHASE)]
     ∧ handled (trace s')
       = [(2%nat, onPointerOver); (2%nat, onPointerEnter); (1%nat, onPointerOver)])
  ∧ (∃ s' ev,
       handlePointer grab_scene demo_store 2 onPointerMove (pointer_at 10) demo_state = Some s'
       ∧ handled (trace s') = [(2%nat, onPointerOver); (1%nat, onPointerOver)]
       ∧ hovered s' !! Some 7 = Some ev
       ∧ eventPhase ev = BUBBLING_PHASE
       ∧ eventObject (hit ev) = Some 1%nat).
Proof.
  split.
  - eexists. split; [vm_compute; reflexivity|]. repeat split.
  - eexists _, _. split; [vm_compute; reflexivity|]. split; [reflexivity|].
    split; [vm_compute; reflexivity|]. split; reflexivity.
Qed.

Lemma cyclic_isAncestor fuel :
  isAncestor cyclic_scene fuel 3 (Some 1%nat) = None
  ∧ isAncestor cyclic_scene fuel 3 (Some 2%nat) = None.
Proof.
  induction fuel as [|fuel [IH1 IH2]]; [done|]. simpl. by rewrite IH1, IH2.
Qed.

(** C9, counterexample.  In a graph where objects 1 and 2 are each other's
    parent, the ancestor test for object 3 started at object 1 returns for
    no number of steps. *)
Lemma C9_counterexample :
  ¬ ∃ fuel r, isAncestor cyclic_scene fuel 3 (Some 1%nat) = Some r.
Proof.
  intros (fuel & r & H). destruct (cyclic_isAncestor fuel) as [Hn _]. congruence.
Qed.

(** ** The theorems at concrete inputs *)

(** C3 at a pointer-down that hits mesh 2 under group 1. *)
Lemma C3_witness :
  height_bounded calm_scene 2
  ∧ [live_hit 2 1] = live_hit 2 1 :: []
  ∧ is_path calm_scene (eventObject (live_hit 2 1)) [2; 1]%nat
  ∧ ∃ s' T k,
      handleIntersects calm_scene 2 (callback calm_scene 2 onPointerDown (pointer_at 10) false)
        [live_hit 2 1] (pointer_at 10) 0 pressed_state = Some s'
      ∧ trace s' = trace pressed_state ++ T
      ∧ (k ≤ length [2; 1]%nat)%nat
      ∧ delivered T
        = map (raycastEvent [live_hit 2 1] (pointer_at 10) 0 (live_hit 2 1))
              (filter (λ p, has_eventCount calm_scene p.1 = true)
                      (take k (walk_targets [2; 1]%nat)))
      ∧ (k = length [2; 1]%nat ∨ Exists (stops calm_scene) T)
      ∧ (∀ c o, c ∈ T → target_of c = Some o → o ∈ [2; 1]%nat).
Proof.
  split; [exact calm_height|]. split; [reflexivity|]. split; [simpl; auto|].
  apply (C3_bubbling_order calm_scene 2 onPointerDown (pointer_at 10) false
           [live_hit 2 1] 0 pressed_state (live_hit 2 1) [] [2; 1]%nat);
    [exact calm_height | reflexivity | simpl; auto].
Defined.

(** C4 at the same pointer-down, in the scene where mesh 2 stops the
    propagation. *)
Lemma C4_witness :
  height_bounded demo_scene 2
  ∧ [live_hit 2 1] = live_hit 2 1 :: []
  ∧ is_path demo_scene (eventObject (live_hit 2 1)) [2; 1]%nat
  ∧ ∃ s' T,
      handleIntersects demo_scene 2 (callback demo_scene 2 onPointerDown (pointer_at 10) false)
        [live_hit 2 1] (pointer_at 10) 0 pressed_state = Some s'
      ∧ trace s' = trace pressed_state ++ T
      ∧ (∀ j tj c, [2; 1]%nat !! j = Some tj → c ∈ T → target_of c = Some tj →
           stops demo_scene c →
           ∀ i ti c', (j < i)%nat → [2; 1]%nat !! i = Some ti → c' ∈ T →
                      target_of c' ≠ Some ti)
      ∧ (onPointerDown = onPointerMove →
         ∀ t e, Handle t onPointerOver e ∈ T →
                has_handler demo_scene t onPointerEnter = true →
           Handle t onPointerEnter e ∈ T)
      ∧ (∀ name' event' entering' hits' δ' h' rest' l',
           hits' = h' :: rest' → is_path demo_scene (eventObject h') l' →
           ∃ s'' T',
             handleIntersects demo_scene 2 (callback demo_scene 2 name' event' entering')
               hits' event' δ' s' = Some s''
             ∧ trace s'' = trace s' ++ T'
             ∧ head (delivered T')
               = head (map (raycastEvent hits' event' δ' h')
                           (filter (λ p, has_eventCount demo_scene p.1 = true)
                                   (walk_targets l')))).
Proof.
  split; [exact demo_height|]. split; [reflexivity|]. split; [simpl; auto|].
  apply (C4_stopPropagation_scope demo_scene 2 onPointerDown (pointer_at 10) false
           [live_hit 2 1] 0 pressed_state (live_hit 2 1) [] [2; 1]%nat);
    [exact demo_height | reflexivity | simpl; auto].
Defined.

(** C1 at a move of the captured pointer 7 to offset 20, away from the
    capturing mesh 2. *)
Lemma C1_witness :
  height_bounded calm_scene 2
  ∧ raycast_name onPointerMove = true
  ∧ pointerId (pointer_at 20) = Some 7
  ∧ capturedMap captured_state !! Some 7
    = Some {| intersection := live_hit 2 1; domTarget := 0%nat |}
  ∧ eventObject (live_hit 2 1) = Some 2%nat
  ∧ has_eventCount calm_scene 2 = true
  ∧ (let hits := patchIntersects captured_state
                   (intersect calm_scene demo_store captured_state (pointer_at 20))
                   (pointer_at 20) in
     let δ := if isClickEvent onPointerMove
              then calculateDistance captured_state (pointer_at 20) else 0 in
     hits = live_hit 2 1 :: intersect calm_scene demo_store captured_state (pointer_at 20)
     ∧ (intersect calm_scene demo_store captured_state (pointer_at 20) = [] →
        hits = [live_hit 2 1])
     ∧ ∃ s' T,
         handlePointer calm_scene demo_store 2 onPointerMove (pointer_at 20) captured_state
         = Some s'
         ∧ trace s' = trace captured_state ++ T
         ∧ head (delivered T)
           = Some (raycastEvent hits (pointer_at 20) δ (live_hit 2 1) (2%nat, AT_TARGET))).
Proof.
  split; [exact calm_height|]. do 5 (split; [reflexivity|]).
  apply (C1_capture_first calm_scene demo_store 2 onPointerMove (pointer_at 20) captured_state
           7 {| intersection := live_hit 2 1; domTarget := 0%nat |} 2%nat);
    [exact calm_height | reflexivity..].
Defined.

(** C2 at a click on mesh 2 after the pointer went down on it. *)
Lemma C2_witness :
  height_bounded calm_scene 2
  ∧ isClickEvent onClick = true
  ∧ patchIntersects pressed_state
      (intersect calm_scene demo_store pressed_state (pointer_at 10)) (pointer_at 10)
    = live_hit 2 1 :: []
  ∧ ∃ s' T l0,
      handlePointer calm_scene demo_store 2 onClick (pointer_at 10) pressed_state = Some s'
      ∧ trace s' = trace pressed_state ++ T
      ∧ is_path calm_scene (initialHit pressed_state) l0
      ∧ (∀ o n e, Handle o n e ∈ T →
           n = onClick ∧ initialHit pressed_state = Some (object (live_hit 2 1)))
      ∧ (initialHit pressed_state = Some (object (live_hit 2 1)) →
         (∀ e t, Deliver e ∈ T → eventObject (hit e) = Some t →
                 has_handler calm_scene t onClick = true →
            ∃ T1 N T2,
              T = T1 ++ Deliver e
                    :: map (λ o, Missed o (pointer_at 10))
                         (filter (λ o, has_handler calm_scene o onPointerMissed = true)
                            (filter (λ o, o ∉ l0) (interaction pressed_state)))
                    ++ Handle t onClick e :: N ++ T2
              ∧ Forall (λ c, is_native c = true) N)
         ∧ (∀ t, eventObject (live_hit 2 1) = Some t → has_eventCount calm_scene t = true →
                 has_handler calm_scene t onClick = true →
            Handle t onClick
              (raycastEvent (live_hit 2 1 :: []) (pointer_at 10)
                 (calculateDistance pressed_state (pointer_at 10)) (live_hit 2 1)
                 (t, AT_TARGET))
            ∈ T))
      ∧ (initialHit pressed_state ≠ Some (object (live_hit 2 1)) →
         ∀ c, c ∈ T → ∃ e, c = Deliver e).
Proof.
  split; [exact calm_height|]. do 2 (split; [reflexivity|]).
  apply (C2_click_resolution calm_scene demo_store 2 onClick (pointer_at 10) pressed_state
           (live_hit 2 1) []); [exact calm_height | reflexivity..].
Defined.

(** C10 at a pointer-down on mesh 2: it and group 1 both handle it, and
    mesh 4 is notified before each of them. *)
Lemma C10_witness :
  height_bounded calm_scene 2
  ∧ onPointerDown ∈ [onPointerDown; onPointerUp; onWheel]
  ∧ patchIntersects demo_state
      (intersect calm_scene demo_store demo_state (pointer_at 10)) (pointer_at 10)
    = live_hit 2 1 :: []
  ∧ (let ih := if bool_decide (onPointerDown = onPointerDown)
               then Some (object (live_hit 2 1)) else initialHit demo_state in
     ∃ s' T l0,
       handlePointer calm_scene demo_store 2 onPointerDown (pointer_at 10) demo_state
       = Some s'
       ∧ trace s' = trace demo_state ++ T
       ∧ is_path calm_scene ih l0
       ∧ (∀ e t, Deliver e ∈ T → eventObject (hit e) = Some t →
                 has_handler calm_scene t onPointerDown = true →
            ∃ T1 N T2,
              T = T1 ++ Deliver e
                    :: map (λ o, Missed o (pointer_at 10))
                         (filter (λ o, has_handler calm_scene o onPointerMissed = true)
                            (filter (λ o, o ∉ l0) (interaction demo_state)))
                    ++ Handle t onPointerDown e :: N ++ T2
              ∧ Forall (λ c, is_native c = true) N)
       ∧ (∀ o, o ∈ interaction demo_state → o ∉ l0 →
               has_handler calm_scene o onPointerMissed = true →
            (count is_Handle T ≤ count (is_Missed_to o) T)%nat)
       ∧ (∃ l k,
            is_path calm_scene (eventObject (live_hit 2 1)) l ∧ (k ≤ length l)%nat
            ∧ delivered T
              = map (raycastEvent (live_hit 2 1 :: []) (pointer_at 10) 0 (live_hit 2 1))
                    (filter (λ p, has_eventCount calm_scene p.1 = true)
                            (take k (walk_targets l)))
            ∧ (k = length l ∨ Exists (stops calm_scene) T)
            ∧ count is_Handle T
              = length (filter (λ p, has_eventCount calm_scene p.1
                                     && has_handler calm_scene p.1 onPointerDown = true)
                               (take k (walk_targets l))))
       ∧ (∀ t, eventObject (live_hit 2 1) = Some t → has_eventCount calm_scene t = true →
               has_handler calm_scene t onPointerDown = true →
            Handle t onPointerDown
              (raycastEvent (live_hit 2 1 :: []) (pointer_at 10) 0 (live_hit 2 1)
                 (t, AT_TARGET)) ∈ T
            ∧ ∀ o, o ∈ interaction demo_state → o ∉ l0 →
                   has_handler calm_scene o onPointerMissed = true →
                   Missed o (pointer_at 10) ∈ T)).
Proof.
  split; [exact calm_height|]. split; [left|]. split; [reflexivity|].
  apply (C10_missed_before_handler calm_scene demo_store 2 onPointerDown (pointer_at 10)
           demo_state (live_hit 2 1) []); [exact calm_height | left | reflexivity].
Defined.

(** A pointer-down on mesh 2 notifies mesh 4 twice, once ahead of each of
    the two pointer-down handlers. *)
Example pointer_down_notifies_twice :
  ∃ s',
    handlePointer calm_scene demo_store 2 onPointerDown (pointer_at 10) demo_state = Some s'
    ∧ handled (trace s') = [(2%nat, onPointerDown); (1%nat, onPointerDown)]
    ∧ missed (trace s') = [4%nat; 4%nat].
Proof. eexists. split; [vm_compute; reflexivity|]. split; reflexivity. Qed.

(** C7 at a move of the idle pointer 7 onto mesh 2. *)
Lemma C7_witness :
  height_bounded calm_scene 2
  ∧ patchIntersects demo_state
      (intersect calm_scene demo_store demo_state (pointer_at 10)) (pointer_at 10)
    = live_hit 2 1 :: []
  ∧ cancelPointer calm_scene 2 (pointerId (pointer_at 10)) (live_hit 2 1 :: []) demo_state
    = Some demo_state
  ∧ (object ∘ hit) <$> hovered demo_state !! pointerId (pointer_at 10)
    ≠ Some (object (live_hit 2 1))
  ∧ is_path calm_scene (eventObject (live_hit 2 1)) [2; 1]%nat
  ∧ ∃ s' T k,
      handlePointer calm_scene demo_store 2 onPointerMove (pointer_at 10) demo_state = Some s'
      ∧ trace s' = trace demo_state ++ T
      ∧ delivered T
        = map (raycastEvent (live_hit 2 1 :: []) (pointer_at 10) 0 (live_hit 2 1))
              (filter (λ p, has_eventCount calm_scene p.1 = true)
                      (take k (walk_targets [2; 1]%nat)))
      ∧ (k = length [2; 1]%nat ∨ Exists (stops calm_scene) T)
      ∧ (∀ e t, Deliver e ∈ T → eventObject (hit e) = Some t →
           ∃ T1 C b T2,
             T = T1 ++ Deliver e :: C ++ T2
             ∧ Calls calm_scene t e
                     (filter (λ n, has_handler calm_scene t n = true)
                             [onPointerOver; onPointerEnter]) C b)
      ∧ (∀ o n e, Handle o n e ∈ T → n = onPointerOver ∨ n = onPointerEnter)
      ∧ ((∀ o, o ∈ [2; 1]%nat → capture_free calm_scene o) →
         hovered s'
         = match [2; 1]%nat with
           | [] => hovered demo_state
           | t :: _ =>
               if has_eventCount calm_scene t
               then <[pointerId (pointer_at 10)
                      := raycastEvent (live_hit 2 1 :: []) (pointer_at 10) 0 (live_hit 2 1)
                           (t, AT_TARGET)]> (hovered demo_state)
               else hovered demo_state
           end)
      ∧ (∀ id, no_capture id T →
           hovered s' !! id
           = match [2; 1]%nat with
             | [] => hovered demo_state
             | t :: _ =>
                 if has_eventCount calm_scene t
                 then <[pointerId (pointer_at 10)
                        := raycastEvent (live_hit 2 1 :: []) (pointer_at 10) 0
                             (live_hit 2 1) (t, AT_TARGET)]> (hovered demo_state)
                 else hovered demo_state
             end !! id).
Proof.
  split; [exact calm_height|]. do 2 (split; [reflexivity|]).
  split; [vm_compute; discriminate|]. split; [simpl; auto|].
  apply (C7_enter_bubbles calm_scene demo_store 2 (pointer_at 10) demo_state demo_state
           (live_hit 2 1) [] [2; 1]%nat);
    [exact calm_height | reflexivity | reflexivity | vm_compute; discriminate | simpl; auto].
Defined.

(** C9 on the example scene, whose chains have at most two objects. *)
Lemma C9_witness :
  height_bounded demo_scene 2
  ∧ (∀ a c, ∃ r, isAncestor demo_scene 2 a c = Some r)
  ∧ (∀ name event entering hits δ s,
       ∃ s', handleIntersects demo_scene 2 (callback demo_scene 2 name event entering)
               hits event δ s = Some s')
  ∧ (∀ pid hits s, ∃ s', cancelPointer demo_scene 2 pid hits s = Some s').
Proof.
  split; [exact demo_height|]. apply (C9_walks_terminate demo_scene 2). exact demo_height.
Defined.

(** C6 at offset 20, where the ray meets mesh 3, which has no pointer-family
    handler. *)
Lemma C6_witness :
  enabled (raycaster demo_store) = true
  ∧ filter_hook (raycaster demo_store) = None
  ∧ intersectObjects (raycaster demo_store) (pointer_at 20) (interaction demo_state)
    = raw_hit 3 1 :: []
  ∧ head (intersect demo_scene demo_store demo_state (pointer_at 20))
    = Some (with_eventObject (raw_hit 3 1) (Some (object (raw_hit 3 1)))).
Proof.
  do 3 (split; [reflexivity|]).
  apply (C6_no_handler_filter demo_scene demo_store demo_state (pointer_at 20)
           (raw_hit 3 1) []); reflexivity.
Defined.

(** ** The scenarios of the repository's tests, replayed *)

(** "prevents calling parent handlers": the handler of mesh 2 stops the
    propagation and the group above it is not called. *)
Example stopPropagation_prevents_parent :
  handled <$> (trace <$> handlePointer demo_scene demo_store 2 onPointerDown
                           (pointer_at 10) demo_state)
  = Some [(2%nat, onPointerDown)].
Proof. reflexivity. Qed.

(** "bubbles pointer events to ancestors". *)
Example pointer_down_bubbles :
  handled <$> (trace <$> handlePointer calm_scene demo_store 2 onPointerDown
                           (pointer_at 10) demo_state)
  = Some [(2%nat, onPointerDown); (1%nat, onPointerDown)].
Proof. reflexivity. Qed.

(** "is called on Canvas when nothing is clicked": a click that hits
    nothing, at the place of the pointer-down, reaches the miss handlers of
    the objects and of the store. *)
Example click_on_nothing_is_missed :
  trace <$> handlePointer demo_scene demo_store 2 onClick (pointer_at 0) demo_state
  = Some [Missed 4 (pointer_at 0); StoreMissed (pointer_at 0)].
Proof. reflexivity. Qed.

(** "delivers events only to the capturing object": mesh 5 captures pointer
    7 on pointer-down; a later move over mesh 2 goes to mesh 5 alone, as a
    move. *)
Example capture_redirects_moves :
  ∃ s1 s2,
    handlePointer demo_scene demo_store 2 onPointerDown (pointer_at 30) demo_state = Some s1
    ∧ NativeSetCapture 0 (Some 7) ∈ trace s1
    ∧ handlePointer demo_scene demo_store 2 onPointerMove (pointer_at 10) s1 = Some s2
    ∧ handled (drop (length (trace s1)) (trace s2)) = [(5%nat, onPointerMove)].
Proof.
  eexists _, _. split; [vm_compute; reflexivity|]. split; [|split].
  - do 3 right. left.
  - vm_compute. reflexivity.
  - reflexivity.
Qed.

(** "should release when the capture target is unmounted". *)
Example unmount_releases_capture :
  ∃ s1,
    handlePointer demo_scene demo_store 2 onPointerDown (pointer_at 30) demo_state = Some s1
    ∧ capturedMap (removeInteractivity s1 5) = ∅
    ∧ drop (length (trace s1)) (trace (removeInteractivity s1 5))
      = [NativeReleaseCapture 0 (Some 7)].
Proof. eexists. split; [vm_compute; reflexivity|]. split; reflexivity. Qed.


(** ** Further properties of the event layer *)

Section More.
Variable G : obj -> Object3D.
Variable store : Store.

Implicit Types (s : State) (l : list obj) (T C : list Call) (ev data : ThreeEvent).

Lemma State_eq s1 s2 :
  interaction s1 = interaction s2 → hovered s1 = hovered s2 →
  capturedMap s1 = capturedMap s2 → initialHit s1 = initialHit s2 →
  initialClick s1 = initialClick s2 → trace s1 = trace s2 → s1 = s2.
Proof. destruct s1, s2. simpl. by intros -> -> -> -> -> ->. Qed.

Lemma emit_nil s : emit s [] = s.
Proof. apply State_eq; simpl; try done. apply app_nil_r. Qed.

(** *** The ancestor test *)

(** X1. On a parent chain that reaches a root, the ancestor test answers
    whether the object lies on the chain that starts at the child, the child
    itself included; the answer does not depend on the fuel, once it covers
    the chain. *)
Theorem X1_isAncestor_chain fuel a c l :
  is_path G c l → (length l ≤ fuel)%nat →
  (isAncestor G fuel a c = Some true ↔ a ∈ l)
  ∧ (isAncestor G fuel a c = Some false ↔ a ∉ l).
Proof.
  intros Hp Hl. rewrite (isAncestor_path G fuel a c l Hp Hl). split.
  - split; [intros [= H]; by apply bool_decide_eq_true in H|].
    intros H. by rewrite bool_decide_eq_true_2.
  - split; [intros [= H]; by apply bool_decide_eq_false in H|].
    intros H. by rewrite bool_decide_eq_false_2.
Qed.

(** *** The capture calls of an event *)

(** X2. A target that calls [setPointerCapture(id)] on its event holds the
    capture afterwards: the entry carries the hit and the DOM target of that
    event, [hasPointerCapture(id)] answers true and the pointer is marked as
    hovering with that event.  When the same target then calls
    [releasePointerCapture(id)], the entry is gone, [hasPointerCapture(id)]
    answers false, the hover entry stays, and the DOM target has seen one
    native capture and one native release, in this order. *)
Theorem X2_capture_round_trip self s b id :
  let dom := target (nativeEvent self) in
  let st1 := run_action self (s, b) (SetPointerCapture id) in
  let st2 := run_action self st1 (ReleasePointerCapture id) in
  hasPointerCapture self st1.1 id = true
  ∧ capturedMap st1.1 !! id = Some {| intersection := hit self; domTarget := dom |}
  ∧ hovered st1.1 !! id = Some self
  ∧ hasPointerCapture self st2.1 id = false
  ∧ capturedMap st2.1 = delete id (capturedMap s)
  ∧ hovered st2.1 !! id = Some self
  ∧ trace st2.1 = trace s ++ [NativeSetCapture dom id; NativeReleaseCapture dom id]
  ∧ st2.2 = b.
Proof.
  simpl. unfold hasPointerCapture, releaseInternalPointerCapture. simpl.
  rewrite !lookup_insert_eq. simpl.
  rewrite (bool_decide_eq_true_2 (eventObject (hit self) = eventObject (hit self))) by done.
  rewrite orb_true_r. simpl. rewrite lookup_delete_eq, lookup_insert_eq, delete_insert_eq.
  rewrite <- app_assoc. done.
Qed.

(** X3. [releasePointerCapture(id)] called by a target that does not hold
    the capture of that pointer (nobody does, or another target) changes
    nothing: no entry is deleted and no native call is made. *)
Theorem X3_release_by_other self s b id :
  hasPointerCapture self s id = false →
  eventObject (hit self) ≠ None →
  run_action self (s, b) (ReleasePointerCapture id) = (s, b).
Proof.
  intros Hhas Hself. simpl. f_equal. revert Hhas.
  unfold hasPointerCapture, releaseInternalPointerCapture.
  destruct (capturedMap s !! id) as [cd|]; [|done].
  intros Hne. rewrite Hne. by rewrite bool_decide_eq_false_2.
Qed.

(** X4. A lost-pointer-capture event drops the capture entry of its pointer,
    whoever holds it, and forwards one native release to the DOM target
    stored in the entry; without an entry nothing happens.  The hover map,
    the Interaction Set and the initial hit are not touched. *)
Theorem X4_lost_pointer_capture fuel event s :
  ∃ s',
    handlePointer G store fuel onLostPointerCapture event s = Some s'
    ∧ capturedMap s' = delete (pointerId event) (capturedMap s)
    ∧ hovered s' = hovered s
    ∧ same_registry s s'
    ∧ trace s'
      = trace s ++ match capturedMap s !! pointerId event with
                   | Some cd => [NativeReleaseCapture (domTarget cd) (pointerId event)]
                   | None => []
                   end.
Proof.
  eexists. split; [reflexivity|]. unfold releaseInternalPointerCapture.
  destruct (capturedMap s !! pointerId event) as [cd|] eqn:Hl; simpl.
  - done.
  - rewrite app_nil_r. by rewrite delete_id.
Qed.

(** *** Leaving *)

(** X5. [cancelPointer] leaves the state as it is, and calls nobody, when
    the pointer has no hover entry or when the top hit is the hovered
    object, index and instance; this holds on any graph and needs no walk.
    In particular a pointer-leave or pointer-cancel event for a pointer that
    hovers nothing changes nothing. *)
Theorem X5_cancel_without_leave fuel event hits s :
  (∀ hov, hovered s !! pointerId event = Some hov → top_differs hits hov = false) →
  cancelPointer G fuel (pointerId event) hits s = Some s
  ∧ (hovered s !! pointerId event = None →
     handlePointer G store fuel onPointerLeave event s = Some s
     ∧ handlePointer G store fuel onPointerCancel event s = Some s).
Proof.
  intros Hsame. split.
  - unfold cancelPointer. destruct (hovered s !! pointerId event) as [hov|]; [|done].
    specialize (Hsame hov eq_refl). unfold top_differs in Hsame. by rewrite Hsame.
  - intros Hnone. simpl. unfold cancelPointer. by rewrite Hnone.
Qed.

Lemma handle_calls_app T1 T2 : handle_calls (T1 ++ T2) = handle_calls T1 ++ handle_calls T2.
Proof.
  induction T1 as [|c T1 IH]; [done|].
  destruct c; simpl; try exact IH. f_equal. exact IH.
Qed.

Lemma handle_calls_native N : Forall (λ c, is_native c = true) N → handle_calls N = [].
Proof. induction 1 as [|c N Hc _ IH]; [done|]. by destruct c. Qed.

(** One optional handler call, with what it leaves in the trace. *)
Lemma invoke_handle_calls self t inst n data s b :
  __r3f (G t) = Some inst →
  ∃ C, trace (invoke self t (handlers inst) n data (s, b)).1 = trace s ++ C
       ∧ handle_calls C
         = (λ n, (t, n, data)) <$> filter (λ n, has_handler G t n = true) [n]
       ∧ Forall (λ c, c = Handle t n data ∨ is_native c = true) C
       ∧ same_registry s (invoke self t (handlers inst) n data (s, b)).1.
Proof.
  intros Hi. destruct (handlers inst n) as [hd|] eqn:Hh.
  - destruct (has_handler_Some G _ _ _ _ Hi Hh) as [Hhas _].
    destruct (invoke_Some self t _ n data s b hd Hh) as (N & HT & Hnat & Hreg & _).
    exists (Handle t n data :: N). rewrite filter_cons_True by done. simpl.
    rewrite (handle_calls_native N Hnat). split; [done|]. split; [done|]. split; [|done].
    constructor; [by left|]. eapply Forall_impl; [exact Hnat|]. by right.
  - rewrite invoke_None by done. exists [].
    rewrite filter_cons_False by (rewrite (has_handler_None G _ _ _ Hi Hh); done).
    by rewrite app_nil_r.
Qed.

(** A handler that only stops the propagation leaves both maps alone. *)
Lemma invoke_capture_free_maps self t inst n data s b :
  __r3f (G t) = Some inst → capture_free G t →
  hovered (invoke self t (handlers inst) n data (s, b)).1 = hovered s
  ∧ capturedMap (invoke self t (handlers inst) n data (s, b)).1 = capturedMap s.
Proof.
  intros Hi Hfree. unfold invoke. destruct (handlers inst n) as [hd|] eqn:Hh; [|done].
  rewrite run_actions_stop_only; [done|].
  intros a Ha. eapply (Hfree n hd data a); [|done].
  unfold handler_of. by rewrite Hi.
Qed.

Lemma leave_chain_calls hov hits l :
  ∀ fuel o s,
    is_path G o l → (length l ≤ fuel)%nat →
    ∃ s' T, leave_chain G fuel hov hits o s = Some s'
            ∧ trace s' = trace s ++ T
            ∧ handle_calls T = leave_calls G hov hits l
            ∧ Forall leave_entry T
            ∧ same_registry s s'
            ∧ ((∀ x, x ∈ l → capture_free G x) →
               hovered s' = hovered s ∧ capturedMap s' = capturedMap s).
Proof.
  induction l as [|x l IH]; intros fuel o s Hp Hlen; simpl in Hp.
  - subst o. exists s, []. rewrite app_nil_r. by destruct fuel.
  - destruct Hp as [-> Hp]. destruct fuel as [|fuel]; [simpl in Hlen; lia|].
    simpl in Hlen. simpl. fold (leave_data hov hits x).
    set (data := leave_data hov hits x).
    assert (Hstep : ∃ s1 T1,
               match __r3f (G x) with
               | Some inst =>
                   if bool_decide (is_Some (handlers inst onPointerOut))
                      || bool_decide (is_Some (handlers inst onPointerLeave))
                   then (invoke hov x (handlers inst) onPointerLeave data
                           (invoke hov x (handlers inst) onPointerOut data (s, false))).1
                   else s
               | None => s
               end = s1
               ∧ trace s1 = trace s ++ T1
               ∧ handle_calls T1
                 = (λ n, (x, n, data))
                     <$> filter (λ n, has_handler G x n = true) [onPointerOut; onPointerLeave]
               ∧ Forall leave_entry T1 ∧ same_registry s s1
               ∧ (capture_free G x →
                  hovered s1 = hovered s ∧ capturedMap s1 = capturedMap s)).
    { unfold has_handler. destruct (__r3f (G x)) as [inst|] eqn:Hi.
      2:{ exists s, []. by rewrite app_nil_r. }
      destruct (bool_decide (is_Some (handlers inst onPointerOut))) eqn:Ho;
        destruct (bool_decide (is_Some (handlers inst onPointerLeave))) eqn:Hl; simpl.
      4:{ exists s, []. rewrite app_nil_r, !filter_cons_False, filter_nil by (simpl; congruence).
          done. }
      all: destruct (invoke_handle_calls hov x inst onPointerOut data s false Hi)
             as (C1 & HT1 & HC1 & HF1 & Hr1);
           pose proof (invoke_capture_free_maps hov x inst onPointerOut data s false Hi) as Hm1;
           destruct (invoke hov x (handlers inst) onPointerOut data (s, false)) as [s1 b1];
           destruct (invoke_handle_calls hov x inst onPointerLeave data s1 b1 Hi)
             as (C2 & HT2 & HC2 & HF2 & Hr2);
           pose proof (invoke_capture_free_maps hov x inst onPointerLeave data s1 b1 Hi) as Hm2;
           simpl in *; eexists _, (C1 ++ C2); (split; [done|]);
           (split; [by rewrite HT2, HT1, app_assoc|]);
           (split; [rewrite handle_calls_app, HC1, HC2;
                    change [onPointerOut; onPointerLeave]
                      with ([onPointerOut] ++ [onPointerLeave]);
                    unfold has_handler; rewrite Hi;
                    by rewrite filter_app, fmap_app|]);
           (split; [apply Forall_app; split;
                    [eapply Forall_impl; [exact HF1|];
                     intros c [->|Hn]; [by left | by destruct c]
                    |eapply Forall_impl; [exact HF2|];
                     intros c [->|Hn]; [by right | by destruct c]]|]);
           (split; [by eapply same_registry_trans|]);
           intros Hfree; destruct (Hm1 Hfree) as [<- <-]; exact (Hm2 Hfree). }
    destruct Hstep as (s1 & T1 & -> & HT1 & HC1 & HF1 & Hr1 & Hm1).
    destruct (IH fuel (parent (G x)) s1 Hp ltac:(lia)) as (s' & T & Hl & HT & HC & HF & Hr & Hm).
    exists s', (T1 ++ T). split; [done|]. split; [by rewrite HT, HT1, app_assoc|].
    split; [by rewrite handle_calls_app, HC1, HC|].
    split; [by apply Forall_app|]. split; [by eapply same_registry_trans|].
    intros Hfree.
    destruct (Hm1 (Hfree x ltac:(left))) as [<- <-].
    apply Hm. intros; apply Hfree; by right.
Qed.

(** X6. When the pointer hovers an object and the top hit is another one (or
    there is no hit), [cancelPointer] walks up the parent chain of the
    hovered object and calls, on each object, child first, its
    [onPointerOut] and then its [onPointerLeave] handler, as far as defined,
    with the stored hover event retargeted at that object and carrying the
    new hits.  A handler that asks to stop the propagation does not end this
    walk.  No event is handed to the bubbling callback and nobody is told of
    a miss.  When the handlers on the chain leave the pointer capture alone,
    the hover entry of the pointer is gone afterwards and the capture map is
    as before. *)
Theorem X6_cancel_walks_up fuel pid hits s hov l :
  hovered s !! pid = Some hov →
  top_differs hits hov = true →
  is_path G (Some (object (hit hov))) l →
  (length l ≤ fuel)%nat →
  ∃ s' T,
    cancelPointer G fuel pid hits s = Some s'
    ∧ trace s' = trace s ++ T
    ∧ handle_calls T = leave_calls G hov hits l
    ∧ Forall leave_entry T
    ∧ same_registry s s'
    ∧ ((∀ x, x ∈ l → capture_free G x) →
       hovered s' = delete pid (hovered s) ∧ capturedMap s' = capturedMap s).
Proof.
  intros Hhov Hdiff Hp Hlen. unfold cancelPointer. rewrite Hhov.
  unfold top_differs in Hdiff. rewrite Hdiff.
  destruct (leave_chain_calls hov hits l fuel _ (set_hovered s (delete pid (hovered s))) Hp Hlen)
    as (s' & T & Hl & HT & HC & HF & Hr & Hm).
  by exists s', T.
Qed.

(** *** A click on nothing *)

Lemma round_sqrt_le_2 n : 0 ≤ n → (round_sqrt n <=? 2) = (n <=? 6).
Proof.
  intros Hn. unfold round_sqrt. pose proof (Z.sqrt_spec n Hn) as [Hlo Hhi].
  pose proof (Z.sqrt_nonneg n) as Hr. set (r := Z.sqrt n) in *.
  assert (Hcase : r ≤ 1 ∨ r = 2 ∨ 3 ≤ r) by lia.
  destruct (Z.ltb_spec r (n - r * r)); destruct (Z.leb_spec n 6);
    destruct Hcase as [?|[?|?]]; try (apply Z.leb_le; nia); apply Z.leb_gt; nia.
Qed.

(** X7. A click, double-click or context-menu event whose intersection list
    is empty counts as a miss when the pointer moved at most two pixels
    (rounded) since the last pointer-down, that is, when the squared
    distance is at most 6: then every registered object with a miss handler
    is notified, in registration order and whatever its place in the graph,
    and after them the store's own miss handler if there is one.  Beyond
    that distance the event changes nothing.  Nothing else in the state
    changes either way. *)
Theorem X7_click_on_nothing fuel name event s :
  isClickEvent name = true →
  patchIntersects s (intersect G store s event) event = [] →
  handlePointer G store fuel name event s
  = Some (if squared_distance s event <=? 6
          then emit s (map (λ o, Missed o event)
                         (filter (λ o, has_handler G o onPointerMissed = true)
                                 (interaction s))
                       ++ (if storePointerMissed store then [StoreMissed event] else []))
          else s).
Proof.
  intros Hclick Hhits.
  destruct (isClickEvent_name _ Hclick) as (Hrc & Hnm & Hnd).
  rewrite handlePointer_dispatch by done. unfold dispatch.
  rewrite Hhits, Hclick, (bool_decide_eq_false_2 _ Hnm), (bool_decide_eq_false_2 _ Hnd).
  simpl. unfold calculateDistance. fold (squared_distance s event).
  rewrite round_sqrt_le_2
    by (unfold squared_distance; apply Z.add_nonneg_nonneg; apply Z.square_nonneg).
  destruct (squared_distance s event <=? 6); [|done].
  f_equal. unfold pointerMissed. destruct (storePointerMissed store).
  - apply State_eq; simpl; try done. by rewrite <- app_assoc.
  - by rewrite app_nil_r.
Qed.

(** X8. A pointer-up or wheel event whose intersection list is empty changes
    nothing and calls nobody. *)
Theorem X8_no_hit_no_effect fuel name event s :
  name ∈ [onPointerUp; onWheel] →
  patchIntersects s (intersect G store s event) event = [] →
  handlePointer G store fuel name event s = Some s.
Proof.
  intros Hname Hhits.
  assert (Hn : name = onPointerUp ∨ name = onWheel).
  { apply elem_of_cons in Hname as [->|Hname]; [by left|].
    apply list_elem_of_singleton in Hname as ->. by right. }
  destruct Hn as [-> | ->]; simpl; unfold dispatch; by rewrite Hhits.
Qed.

(** *** What a dispatch keeps *)

Lemma handleIntersects_registry fuel name event entering hits δ s s' :
  height_bounded G fuel →
  handleIntersects G fuel (callback G fuel name event entering) hits event δ s = Some s' →
  same_registry s s'.
Proof.
  intros Hb. destruct hits as [|h rest]; [by intros [= <-]|].
  destruct (height_bounded_option G fuel (eventObject h) Hb) as (l & Hp & _).
  destruct (handleIntersects_bounded G fuel name event entering (h :: rest) δ s h rest l
              Hb eq_refl Hp) as (s'' & T & l0 & Hhi & _ & Hreg & _).
  rewrite Hhi. by intros [= <-].
Qed.

Lemma dispatch_initialClick fuel name event s s' :
  height_bounded G fuel →
  dispatch G store fuel name event s = Some s' →
  initialClick s'
  = if bool_decide (name = onPointerDown) then (offsetX event, offsetY event)
    else initialClick s.
Proof.
  intros Hb. unfold dispatch.
  set (hits := patchIntersects s (intersect G store s event) event).
  set (δ := if isClickEvent name then calculateDistance s event else 0).
  set (sa := if bool_decide (name = onPointerDown)
             then set_initialHit (set_initialClick s (offsetX event, offsetY event))
                    (object <$> head hits)
             else s).
  assert (Ha : initialClick sa
               = if bool_decide (name = onPointerDown) then (offsetX event, offsetY event)
                 else initialClick s)
    by (subst sa; by destruct (bool_decide (name = onPointerDown))).
  set (sb := if isClickEvent name && bool_decide (hits = []) && (δ <=? 2)
             then (let s0 := pointerMissed G sa event (interaction sa) in
                   if storePointerMissed store then emit s0 [StoreMissed event] else s0)
             else sa).
  assert (Hsb : initialClick sb = initialClick sa).
  { subst sb. destruct (_ && _ && _); [|done]. by destruct (storePointerMissed store). }
  rewrite <- Ha, <- Hsb. clearbody sb. clear Ha Hsb sa.
  destruct (bool_decide (name = onPointerMove)).
  - destruct (cancelPointer_spec G fuel (pointerId event) hits sb Hb)
      as (sc & P & Hc & _ & (_ & _ & Hic) & _).
    rewrite Hc. simpl. rewrite <- Hic.
    intros Hhi. by apply handleIntersects_registry in Hhi as (_ & _ & ?).
  - simpl. intros Hhi. by apply handleIntersects_registry in Hhi as (_ & _ & ?).
Qed.

(** X9. A dispatch never changes the Interaction Set.  The press position
    and the initial hit are written by a pointer-down, which records the
    offsets of the event and the object of its top intersection (nothing, on
    a miss), and by no other event: they stay as they are until the next
    pointer-down. *)
Theorem X9_press_bookkeeping fuel name event s :
  height_bounded G fuel →
  ∃ s',
    handlePointer G store fuel name event s = Some s'
    ∧ interaction s' = interaction s
    ∧ (name = onPointerDown →
       initialClick s' = (offsetX event, offsetY event)
       ∧ initialHit s'
         = object <$> head (patchIntersects s (intersect G store s event) event))
    ∧ (name ≠ onPointerDown →
       initialClick s' = initialClick s ∧ initialHit s' = initialHit s).
Proof.
  intros Hb. destruct (raycast_name name) eqn:Hrc.
  - rewrite handlePointer_dispatch by done.
    destruct (dispatch_spec G store fuel name event s Hb)
      as (s' & P & T & entering & l0 & Hd & _ & HI & Hih & _).
    pose proof (dispatch_initialClick fuel name event s s' Hb Hd) as Hic.
    exists s'. split; [done|]. split; [done|]. split.
    + intros ->. by rewrite Hic, Hih.
    + intros Hne. rewrite (bool_decide_eq_false_2 _ Hne) in Hic, Hih. done.
  - assert (Hcancel : ∀ s0, ∃ s', cancelPointer G fuel (pointerId event) [] s0 = Some s'
                                   ∧ same_registry s0 s').
    { intros s0. destruct (cancelPointer_spec G fuel (pointerId event) [] s0 Hb)
        as (s' & T & Hc & _ & Hr & _). by exists s'. }
    destruct name; try discriminate Hrc; simpl.
    + destruct (Hcancel s) as (s' & Hc & (HI & Hih & Hic)).
      exists s'. by repeat split.
    + destruct (Hcancel s) as (s' & Hc & (HI & Hih & Hic)).
      exists s'. by repeat split.
    + destruct (release_spec s None None (pointerId event)) as (N & _ & _ & (HI & Hih & Hic)).
      eexists. split; [reflexivity|]. by repeat split.
Qed.

Lemma callback_capture_free fc name event entering t data s s' b :
  capture_free G t →
  callback G fc name event entering t data s = Some (s', b) →
  capturedMap s' = capturedMap s
  ∧ hovered s'
    = if bool_decide (name = onPointerMove) && entering
         && bool_decide (eventPhase data = AT_TARGET)
      then (if has_eventCount G t then <[pointerId event := data]> (hovered s) else hovered s)
      else hovered s.
Proof.
  intros Hfree. unfold callback, has_eventCount.
  destruct (__r3f (G t)) as [inst|] eqn:Hi.
  2:{ intros [= <- _]. split; [done|]. by destruct (_ && _ && _). }
  destruct (Nat.eqb (eventCount inst) 0); simpl.
  { intros [= <- _]. split; [done|]. by destruct (_ && _ && _). }
  destruct (bool_decide (name = onPointerMove)); simpl.
  - destruct entering; simpl.
    + match goal with |- context [invoke _ _ _ onPointerOver _ (?s0, _)] =>
        pose proof (invoke_capture_free_maps data t inst onPointerOver data s0 false Hi Hfree)
          as [H1 H1'];
        destruct (invoke data t (handlers inst) onPointerOver data (s0, false)) as [s1 b1]
      end.
      pose proof (invoke_capture_free_maps data t inst onPointerEnter data s1 b1 Hi Hfree)
        as [H2 H2'].
      destruct (invoke data t (handlers inst) onPointerEnter data (s1, b1)) as [s2 b2].
      intros [= <- _]. simpl in *. rewrite H2, H2', H1, H1'.
      destruct (decide (eventPhase data = AT_TARGET)) as [He|He].
      * by rewrite bool_decide_eq_true_2.
      * by rewrite bool_decide_eq_false_2.
    + pose proof (invoke_capture_free_maps data t inst onPointerMove data s false Hi Hfree)
        as [H1 H1'].
      destruct (invoke data t (handlers inst) onPointerMove data (s, false)) as [s1 b1].
      by intros [= <- _].
  - destruct (handlers inst name) as [hd|]; [|by intros [= <- _]].
    destruct (_ || _); [|by intros [= <- _]].
    destruct (filter_not_ancestor G fc (initialHit s) (interaction s)) as [objects|];
      [|done]. simpl.
    pose proof (invoke_capture_free_maps data t inst name data
                  (pointerMissed G s event objects) false Hi Hfree) as [H1 H1'].
    destruct (invoke data t (handlers inst) name data _) as [s1 b1].
    by intros [= <- _].
Qed.

Section CaptureFree.
Hypothesis Hfree : ∀ o, capture_free G o.

Lemma bubble_capture_free fc name event entering ints δ :
  ∀ fuel h ph stopped s s',
    bubble G fuel (callback G fc name event entering) ints event δ h ph stopped s = Some s' →
    capturedMap s' = capturedMap s
    ∧ (∀ id, id ≠ pointerId event → hovered s' !! id = hovered s !! id)
    ∧ (bool_decide (name = onPointerMove) && entering && bool_decide (ph = AT_TARGET) = false →
       hovered s' = hovered s).
Proof.
  induction fuel as [|fuel IH]; intros h ph stopped s s'; simpl.
  - destruct (eventObject h); [|by intros [= <-]].
    destruct stopped; [by intros [= <-] | done].
  - destruct (eventObject h) as [t|]; [|by intros [= <-]].
    destruct stopped; [by intros [= <-]|].
    destruct (has_eventCount G t) eqn:Hc.
    + match goal with |- context [callback _ _ _ _ _ _ ?d ?s0] =>
        destruct (callback G fc name event entering t d s0) as [[s1 b]|] eqn:Hcb
      end; [|done].
      simpl. intros Hbub.
      apply callback_capture_free in Hcb as [Hcap Hhov]; [|apply Hfree].
      rewrite Hc in Hhov. simpl in Hcap, Hhov.
      destruct (IH _ _ _ _ _ Hbub) as (Hcap' & Hother & Hsame).
      rewrite Hsame by (by rewrite andb_false_r).
      split; [by rewrite Hcap', Hcap|]. split.
      * intros id Hid. rewrite Hhov. destruct (_ && _ && _); [|done].
        by rewrite lookup_insert_ne.
      * intros Hcond. by rewrite Hhov, Hcond.
    + intros Hbub. destruct (IH _ _ _ _ _ Hbub) as (Hcap' & Hother & Hsame).
      rewrite Hsame by (by rewrite andb_false_r). done.
Qed.

Lemma handleIntersects_capture_free fuel name event entering hits δ s s' :
  handleIntersects G fuel (callback G fuel name event entering) hits event δ s = Some s' →
  capturedMap s' = capturedMap s
  ∧ (∀ id, id ≠ pointerId event → hovered s' !! id = hovered s !! id)
  ∧ (bool_decide (name = onPointerMove) && entering = false → hovered s' = hovered s).
Proof.
  unfold handleIntersects. destruct hits as [|h rest]; [by intros [= <-]|].
  intros Hbub. apply bubble_capture_free in Hbub as (Hcap & Hother & Hsame).
  split; [done|]. split; [done|]. intros Hcond. apply Hsame. by rewrite Hcond.
Qed.

Lemma leave_chain_capture_free hov hits :
  ∀ fuel o s s',
    leave_chain G fuel hov hits o s = Some s' →
    hovered s' = hovered s ∧ capturedMap s' = capturedMap s.
Proof.
  induction fuel as [|fuel IH]; intros o s s'; simpl.
  - destruct o; [done | by intros [= <-]].
  - destruct o as [x|]; [|by intros [= <-]].
    intros Hl. apply IH in Hl as [-> ->].
    destruct (__r3f (G x)) as [inst|] eqn:Hi; [|done].
    destruct (_ || _); [|done].
    match goal with |- context [invoke _ _ _ onPointerOut ?d (?s0, _)] =>
      pose proof (invoke_capture_free_maps hov x inst onPointerOut d s0 false Hi (Hfree x))
        as [H1 H1'];
      destruct (invoke hov x (handlers inst) onPointerOut d (s0, false)) as [s1 b1];
      pose proof (invoke_capture_free_maps hov x inst onPointerLeave d s1 b1 Hi (Hfree x))
        as [H2 H2']
    end.
    simpl in *. by rewrite H2, H2', H1, H1'.
Qed.

Lemma cancelPointer_capture_free fuel pid hits s s' :
  cancelPointer G fuel pid hits s = Some s' →
  capturedMap s' = capturedMap s
  ∧ (∀ id, id ≠ pid → hovered s' !! id = hovered s !! id).
Proof.
  unfold cancelPointer. destruct (hovered s !! pid) as [hov|]; [|by intros [= <-]].
  match goal with |- context [if ?b then _ else _] => destruct b end;
    [|by intros [= <-]].
  intros Hl. apply leave_chain_capture_free in Hl as [-> ->]. simpl.
  split; [done|]. intros id Hid. by rewrite lookup_delete_ne.
Qed.

Lemma dispatch_capture_free fuel name event s s' :
  dispatch G store fuel name event s = Some s' →
  capturedMap s' = capturedMap s
  ∧ (∀ id, id ≠ pointerId event → hovered s' !! id = hovered s !! id).
Proof.
  unfold dispatch.
  set (hits := patchIntersects s (intersect G store s event) event).
  set (δ := if isClickEvent name then calculateDistance s event else 0).
  set (sa := if bool_decide (name = onPointerDown)
             then set_initialHit (set_initialClick s (offsetX event, offsetY event))
                    (object <$> head hits)
             else s).
  set (sb := if isClickEvent name && bool_decide (hits = []) && (δ <=? 2)
             then (let s0 := pointerMissed G sa event (interaction sa) in
                   if storePointerMissed store then emit s0 [StoreMissed event] else s0)
             else sa).
  assert (Hsb : capturedMap sb = capturedMap s ∧ hovered sb = hovered s).
  { subst sb sa. destruct (_ && _ && _).
    - destruct (storePointerMissed store); by destruct (bool_decide (name = onPointerDown)).
    - by destruct (bool_decide (name = onPointerDown)). }
  destruct Hsb as [<- <-]. clearbody sb.
  destruct (bool_decide (name = onPointerMove)).
  - destruct (cancelPointer G fuel (pointerId event) hits sb) as [sc|] eqn:Hc; [|done].
    simpl. apply cancelPointer_capture_free in Hc as [<- Hother].
    intros Hhi. apply handleIntersects_capture_free in Hhi as (-> & Hother' & _).
    split; [done|]. intros id Hid. by rewrite Hother', Hother.
  - simpl. intros Hhi. apply handleIntersects_capture_free in Hhi as (-> & Hother' & _).
    done.
Qed.

(** X10. When no handler of the scene touches the pointer capture, a
    dispatch leaves the capture map as it is (only a lost-pointer-capture
    event drops the entry of its own pointer), and it leaves alone the hover
    entries and capture entries of every pointer other than the one of the
    event. *)
Theorem X10_other_pointers_untouched fuel name event s :
  height_bounded G fuel →
  ∃ s',
    handlePointer G store fuel name event s = Some s'
    ∧ (name ≠ onLostPointerCapture → capturedMap s' = capturedMap s)
    ∧ (∀ id, id ≠ pointerId event →
         hovered s' !! id = hovered s !! id
         ∧ capturedMap s' !! id = capturedMap s !! id).
Proof.
  intros Hb. destruct (raycast_name name) eqn:Hrc.
  - rewrite handlePointer_dispatch by done.
    destruct (dispatch_spec G store fuel name event s Hb) as (s' & P & T & e & l0 & Hd & _).
    destruct (dispatch_capture_free fuel name event s s' Hd) as [Hcap Hother].
    exists s'. split; [done|]. split; [done|]. intros id Hid. by rewrite Hcap, Hother.
  - assert (Hcancel : ∃ s', cancelPointer G fuel (pointerId event) [] s = Some s'
                             ∧ capturedMap s' = capturedMap s
                             ∧ ∀ id, id ≠ pointerId event →
                                     hovered s' !! id = hovered s !! id).
    { destruct (cancelPointer_spec G fuel (pointerId event) [] s Hb) as (s' & T & Hc & _).
      destruct (cancelPointer_capture_free _ _ _ _ _ Hc). by exists s'. }
    destruct name; try discriminate Hrc; simpl.
    + destruct Hcancel as (s' & Hc & Hcap & Hother). exists s'.
      split; [done|]. split; [done|]. intros id Hid. by rewrite Hcap, Hother.
    + destruct Hcancel as (s' & Hc & Hcap & Hother). exists s'.
      split; [done|]. split; [done|]. intros id Hid. by rewrite Hcap, Hother.
    + eexists. split; [reflexivity|]. split; [done|]. intros id Hid.
      unfold releaseInternalPointerCapture.
      destruct (capturedMap s !! pointerId event); simpl; [|done].
      by rewrite lookup_delete_ne.
Qed.
End CaptureFree.


(** *** Moves over the hovered object *)

Lemma bubble_move_within fc event ints δ l :
  ∀ fuel hh ph stopped s s',
    is_path G (eventObject hh) l → (∀ o, o ∈ l → capture_free G o) →
    bubble G fuel (callback G fc onPointerMove event false) ints event δ hh ph stopped s
    = Some s' →
    hovered s' = hovered s ∧ capturedMap s' = capturedMap s.
Proof.
  induction l as [|t l IH]; intros fuel hh ph stopped s s' Hp Hfree; simpl in Hp.
  - destruct fuel; simpl; rewrite Hp; by intros [= <-].
  - destruct Hp as [Ht Hp]. destruct fuel as [|fuel]; simpl; rewrite Ht.
    { destruct stopped; [by intros [= <-] | done]. }
    destruct stopped; [by intros [= <-]|].
    assert (Hfree' : ∀ o, o ∈ l → capture_free G o) by (intros; apply Hfree; by right).
    destruct (has_eventCount G t) eqn:Hc.
    + match goal with |- context [callback _ _ _ _ _ _ ?d ?s0] =>
        destruct (callback G fc onPointerMove event false t d s0) as [[s1 b]|] eqn:Hcb
      end; [|done].
      simpl. intros Hbub.
      apply callback_capture_free in Hcb as [Hcap Hhov]; [|apply Hfree; left].
      rewrite andb_false_r in Hhov. simpl in Hcap, Hhov.
      destruct (IH fuel (with_eventObject hh (parent (G t))) BUBBLING_PHASE b s1 s'
                  Hp Hfree' Hbub) as [-> ->].
      done.
    + intros Hbub.
      exact (IH fuel (with_eventObject hh (parent (G t))) BUBBLING_PHASE false s s'
               Hp Hfree' Hbub).
Qed.

Lemma top_same_object h rest hov :
  top_differs (h :: rest) hov = false → object h = object (hit hov).
Proof.
  unfold top_differs. intros H.
  apply orb_false_iff in H as [H _]. apply orb_false_iff in H as [H _].
  apply bool_decide_eq_false in H. by destruct (decide (object h = object (hit hov))).
Qed.

Lemma move_within_run fuel event s hov h rest l :
  height_bounded G fuel →
  patchIntersects s (intersect G store s event) event = h :: rest →
  hovered s !! pointerId event = Some hov →
  top_differs (h :: rest) hov = false →
  is_path G (eventObject h) l →
  ∃ s' T l0,
    handlePointer G store fuel onPointerMove event s = Some s'
    ∧ handleIntersects G fuel (callback G fuel onPointerMove event false) (h :: rest) event 0 s
      = Some s'
    ∧ trace s' = trace s ++ T
    ∧ Bubbled G (cb_run G onPointerMove event false (initialHit s) (interaction s) l0)
              (raycastEvent (h :: rest) event 0 h) l AT_TARGET T.
Proof.
  intros Hb Hhits Hhov Hsame Hp.
  destruct (handleIntersects_bounded G fuel onPointerMove event false (h :: rest) 0 s h rest l
              Hb eq_refl Hp) as (s' & T & l0 & Hrun & HT & _ & _ & HB).
  exists s', T, l0. split; [|done].
  rewrite handlePointer_dispatch by done. unfold dispatch. rewrite Hhits. simpl.
  assert (Hc : cancelPointer G fuel (pointerId event) (h :: rest) s = Some s).
  { unfold cancelPointer. rewrite Hhov. unfold top_differs in Hsame. by rewrite Hsame. }
  rewrite Hc. simpl. rewrite Hhov. simpl.
  rewrite bool_decide_eq_false_2; [done|].
  intros Hne. apply Hne. by rewrite (top_same_object h rest hov Hsame).
Qed.

Lemma cb_run_move_within event ih I l0 t ev C b :
  cb_run G onPointerMove event false ih I l0 t ev C b →
  has_eventCount G t = true →
  Calls G t ev (filter (λ n, has_handler G t n = true) [onPointerMove]) C b.
Proof.
  intros (C0 & -> & HC) Hc. revert HC. unfold missed_before, invoked.
  rewrite Hc. simpl. done.
Qed.

Lemma Bubbled_move_within event ih I l0 ints δ h l ph T :
  Bubbled G (cb_run G onPointerMove event false ih I l0) (raycastEvent ints event δ h) l ph T →
  (∀ e t, Deliver e ∈ T → eventObject (hit e) = Some t →
     ∃ T1 C b T2,
       T = T1 ++ Deliver e :: C ++ T2
       ∧ Calls G t e (filter (λ n, has_handler G t n = true) [onPointerMove]) C b)
  ∧ (∀ o n e, Handle o n e ∈ T → n = onPointerMove).
Proof.
  intros HB. split.
  - intros e t Hin Ht.
    destruct (Bubbled_blocks _ _ _ _ _ _ _ _ _ _ _ _ _ HB _ Hin)
      as (t' & ph' & C & b & T1 & T2 & Ht' & Hc' & Hcb & -> & [Heq|HinC]).
    + injection Heq as ->. simpl in Ht. injection Ht as ->.
      exists T1, C, b, T2. split; [done|]. by eapply cb_run_move_within.
    + destruct (cb_run_entries _ _ _ _ _ _ _ _ _ _ _ Hcb _ HinC)
        as [(n & _ & ?)|[?|(o' & ? & _)]]; done.
  - intros o n e Hin.
    destruct (Bubbled_blocks _ _ _ _ _ _ _ _ _ _ _ _ _ HB _ Hin)
      as (t' & ph' & C & b & T1 & T2 & Ht' & Hc' & Hcb & -> & [?|HinC]); [done|].
    pose proof (cb_run_move_within _ _ _ _ _ _ _ _ Hcb Hc') as HC.
    destruct (Calls_entries _ _ _ _ _ _ HC _ HinC) as [(n' & Hn' & Heq)|?]; [|done].
    injection Heq as -> -> ->.
    apply list_elem_of_filter in Hn' as [_ Hn'].
    by apply list_elem_of_singleton in Hn'.
Qed.

(** X11. A pointer-move whose top hit is the object, index and instance the
    pointer already hovers is a plain move: nobody gets out or leave, the
    targets of the bubble walk along the chain [l] of the top target get the
    event in order (at-target first), each of them gets its [onPointerMove]
    handler if it defines one, and no other handler is invoked.  When the
    handlers on [l] leave the pointer capture alone, the hover map and the
    capture map stay as they were. *)
Theorem X11_move_within fuel event s hov h rest l :
  height_bounded G fuel →
  patchIntersects s (intersect G store s event) event = h :: rest →
  hovered s !! pointerId event = Some hov →
  top_differs (h :: rest) hov = false →
  is_path G (eventObject h) l →
  ∃ s' T k,
    handlePointer G store fuel onPointerMove event s = Some s'
    ∧ trace s' = trace s ++ T
    ∧ delivered T
      = map (raycastEvent (h :: rest) event 0 h)
            (filter (λ p, has_eventCount G p.1 = true) (take k (walk_targets l)))
    ∧ (k = length l ∨ Exists (stops G) T)
    ∧ (∀ e t, Deliver e ∈ T → eventObject (hit e) = Some t →
         ∃ T1 C b T2,
           T = T1 ++ Deliver e :: C ++ T2
           ∧ Calls G t e (filter (λ n, has_handler G t n = true) [onPointerMove]) C b)
    ∧ (∀ o n e, Handle o n e ∈ T → n = onPointerMove)
    ∧ ((∀ o, o ∈ l → capture_free G o) →
       hovered s' = hovered s ∧ capturedMap s' = capturedMap s).
Proof.
  intros Hb Hhits Hhov Hsame Hp.
  destruct (move_within_run fuel event s hov h rest l Hb Hhits Hhov Hsame Hp)
    as (s' & T & l0 & Hrun & Hhi & HT & HB).
  destruct (Bubbled_delivered _ _ _ _ _ _ _ _ _ _ _ _ _ HB) as (k & Hk & Hd & Hend).
  destruct (Bubbled_move_within _ _ _ _ _ _ _ _ _ _ HB) as [Hblocks Hnames].
  exists s', T, k. do 6 (split; [done|]).
  intros Hfree. unfold handleIntersects in Hhi.
  by eapply bubble_move_within.
Qed.

(** X12. After a target has called [setPointerCapture] for a pointer, the
    next move of that pointer goes to the capturing target whatever the
    raycaster returns: the stored hit is the head of the intersection list,
    nobody gets out, leave, over or enter, every entry of the dispatch is
    addressed to the chain [l] of the capturing target, the first delivery is
    to the first object of that chain that has handlers, and the capturing
    target gets its [onPointerMove] handler with the at-target event. *)
Theorem X12_move_after_capture fuel self s b event p t l :
  height_bounded G fuel →
  pointerId event = Some p →
  eventObject (hit self) = Some t →
  is_path G (Some t) l →
  let s1 := (run_action self (s, b) (SetPointerCapture (Some p))).1 in
  let hits := hit self :: intersect G store s event in
  ∃ s' T,
    handlePointer G store fuel onPointerMove event s1 = Some s'
    ∧ trace s' = trace s1 ++ T
    ∧ head (delivered T)
      = head (map (raycastEvent hits event 0 (hit self))
                  (filter (λ p, has_eventCount G p.1 = true) (walk_targets l)))
    ∧ (∀ c o, c ∈ T → target_of c = Some o → o ∈ l)
    ∧ (∀ o n e, Handle o n e ∈ T → n = onPointerMove)
    ∧ (has_eventCount G t = true → has_handler G t onPointerMove = true →
       Handle t onPointerMove (raycastEvent hits event 0 (hit self) (t, AT_TARGET)) ∈ T).
Proof.
  intros Hb Hp Ht Hpath s1 hits.
  assert (Hhits : patchIntersects s1 (intersect G store s1 event) event = hits).
  { unfold patchIntersects. rewrite Hp. subst s1. simpl. by rewrite lookup_insert_eq. }
  assert (Hhov : hovered s1 !! pointerId event = Some self).
  { rewrite Hp. subst s1. simpl. by rewrite lookup_insert_eq. }
  assert (Hsame : top_differs hits self = false).
  { subst hits. unfold top_differs.
    rewrite !bool_decide_eq_false_2; [done | by intros H..]. }
  rewrite <- Ht in Hpath.
  destruct (move_within_run fuel event s1 self (hit self) (intersect G store s event) l
              Hb Hhits Hhov Hsame Hpath) as (s' & T & l0 & Hrun & Hhi & HT & HB).
  fold hits in HB.
  destruct (Bubbled_move_within _ _ _ _ _ _ _ _ _ _ HB) as [Hblocks Hnames].
  exists s', T. do 2 (split; [done|]).
  split; [by eapply Bubbled_head|]. split; [by eapply Bubbled_targets|].
  split; [done|]. intros Hc Hh.
  destruct l as [|t' l']; simpl in Hpath; [by rewrite Ht in Hpath|].
  destruct Hpath as [Heq Hpath]. rewrite Ht in Heq. injection Heq as <-.
  pose proof (Bubbled_head _ _ _ _ _ _ _ _ _ _ _ _ _ HB) as Hhead.
  unfold walk_targets in Hhead. rewrite walk_from_cons in Hhead.
  rewrite filter_cons_True in Hhead by done. simpl in Hhead.
  apply head_delivered in Hhead.
  destruct (Hblocks _ t Hhead) as (T1 & C & b' & T2 & -> & HC).
  { simpl. done. }
  apply elem_of_app. right. right. apply elem_of_app. left.
  eapply Calls_all; [exact HC|]. apply list_elem_of_filter. split; [done|].
  by apply list_elem_of_singleton.
Qed.

(** *** Leaving comes before entering *)

Lemma Bubbled_move_entries event entering ih I l0 ints δ h l ph T :
  Bubbled G (cb_run G onPointerMove event entering ih I l0) (raycastEvent ints event δ h)
          l ph T →
  Forall move_entry T.
Proof.
  intros HB. apply Forall_forall. intros c Hin.
  destruct (Bubbled_blocks _ _ _ _ _ _ _ _ _ _ _ _ _ HB _ Hin)
    as (t' & ph' & C & b & T1 & T2 & Ht' & Hc' & Hcb & -> & [->|HinC]); [done|].
  destruct Hcb as (C0 & -> & HC). unfold missed_before in HinC. simpl in HinC.
  destruct (Calls_entries _ _ _ _ _ _ HC _ HinC) as [(n & Hn & ->)|Hnat];
    [|by destruct c].
  revert Hn. unfold invoked. rewrite Hc'. simpl.
  intros [_ Hn]%list_elem_of_filter. simpl. destruct entering.
  - apply elem_of_cons in Hn as [->|Hn]; [by left|].
    apply list_elem_of_singleton in Hn as ->. right. by left.
  - apply list_elem_of_singleton in Hn as ->. right. by right.
Qed.

(** X13. In every pointer-move dispatch the trace splits in two: first the
    out and leave handlers that [cancelPointer] calls for the previous hover
    (with the native capture calls they make), then the deliveries and the
    over, enter and move handlers of the bubble walk.  No out or leave
    handler runs after the first delivery, and a move notifies nobody of a
    miss. *)
Theorem X13_leave_before_enter fuel event s :
  height_bounded G fuel →
  ∃ s' P T,
    handlePointer G store fuel onPointerMove event s = Some s'
    ∧ trace s' = trace s ++ P ++ T
    ∧ Forall leave_entry P
    ∧ Forall move_entry T.
Proof.
  intros Hb. rewrite handlePointer_dispatch by done.
  destruct (dispatch_spec G store fuel onPointerMove event s Hb)
    as (s' & P & T & entering & l0 & Hd & HT & _ & _ & _ & _ & HP & _ & _ & Hwalk).
  exists s', P, T. do 2 (split; [done|]). split; [by apply HP|].
  destruct (patchIntersects s (intersect G store s event) event) as [|h rest].
  - by subst T.
  - destruct Hwalk as (l & _ & HB). by eapply Bubbled_move_entries.
Qed.


(** *** Removing an object, again *)

Lemma filter_all {A} (P : A → Prop) `{!∀ x, Decision (P x)} (xs : list A) :
  (∀ x, x ∈ xs → P x) → filter P xs = xs.
Proof.
  induction xs as [|x xs IH]; intros Hall; [done|].
  rewrite filter_cons_True by (apply Hall; left).
  f_equal. apply IH. intros y Hy. apply Hall. by right.
Qed.

Lemma release_none o (L : list (PointerId * PointerCaptureData)) st :
  (∀ kv, kv ∈ L → held_by o kv.2 = false) →
  foldl (λ st kv, releaseInternalPointerCapture st (Some o) (Some kv.2) kv.1) st L = st.
Proof.
  induction L as [|[q c] L IH]; intros Hall; [done|]. simpl.
  rewrite release_object.
  pose proof (Hall (q, c) ltac:(left)) as Hqc. simpl in Hqc. rewrite Hqc.
  apply IH. intros kv Hkv. apply Hall. by right.
Qed.

Lemma release_all_initial o (L : list (PointerId * PointerCaptureData)) :
  ∀ st,
    let st' := foldl (λ st kv, releaseInternalPointerCapture st (Some o) (Some kv.2) kv.1)
                     st L in
    initialHit st' = initialHit st ∧ initialClick st' = initialClick st.
Proof.
  induction L as [|[q c] L IH]; intros st; simpl; [done|].
  rewrite release_object.
  destruct (IH (if held_by o c
                then emit (set_capturedMap st (delete q (capturedMap st)))
                          [NativeReleaseCapture (domTarget c) q]
                else st)) as [-> ->].
  by destruct (held_by o c).
Qed.

Lemma removeInteractivity_unreferenced s o :
  o ∉ interaction s → initialHit s ≠ Some o →
  (∀ p ev, hovered s !! p = Some ev → hover_mentions o ev = false) →
  (∀ p cd, capturedMap s !! p = Some cd → held_by o cd = false) →
  removeInteractivity s o = s.
Proof.
  intros HI Hih Hhov Hcap. unfold removeInteractivity. cbv zeta.
  rewrite release_none.
  2:{ intros [p cd] Hin%elem_of_map_to_list. simpl. revert Hin.
      destruct (decide _); simpl; by apply Hcap. }
  destruct s as [I H Cm ih ic tr]. simpl in *.
  rewrite decide_False by done. unfold set_hovered, set_interaction. simpl.
  f_equal.
  - apply filter_all. intros x Hx ->. done.
  - apply map_filter_id. intros p ev Hl. simpl. by eapply Hhov.
Qed.

Lemma removeInteractivity_fields s o :
  let s' := removeInteractivity s o in
  interaction s' = filter (λ x, x ≠ o) (interaction s)
  ∧ initialHit s' = (if decide (initialHit s = Some o) then None else initialHit s)
  ∧ initialClick s' = initialClick s
  ∧ hovered s'
    = filter (λ kv : PointerId * ThreeEvent, hover_mentions o kv.2 = false) (hovered s)
  ∧ ∀ p cd, capturedMap s' !! p = Some cd
            ↔ capturedMap s !! p = Some cd ∧ held_by o cd = false.
Proof.
  intros s'. subst s'. unfold removeInteractivity.
  set (s1 := set_interaction s (filter (λ x, x ≠ o) (interaction s))).
  set (s2 := if decide (initialHit s1 = Some o) then set_initialHit s1 None else s1).
  set (s3 := set_hovered s2
               (filter (λ kv : PointerId * ThreeEvent, hover_mentions o kv.2 = false)
                       (hovered s2))).
  assert (H3 : interaction s3 = filter (λ x, x ≠ o) (interaction s)
               ∧ hovered s3
                 = filter (λ kv : PointerId * ThreeEvent, hover_mentions o kv.2 = false)
                          (hovered s)
               ∧ capturedMap s3 = capturedMap s
               ∧ initialHit s3
                 = (if decide (initialHit s = Some o) then None else initialHit s)
               ∧ initialClick s3 = initialClick s)
    by (subst s3 s2 s1; simpl; by destruct (decide _)).
  destruct H3 as (H3I & H3H & H3C & H3h & H3c). rewrite H3C.
  destruct (release_all_spec o (map_to_list (capturedMap s)) s3) as (HI & HH & _ & HC).
  destruct (release_all_initial o (map_to_list (capturedMap s)) s3) as [Hh Hc].
  cbv zeta in HI, HH, HC, Hh, Hc.
  rewrite HI, HH, Hh, Hc. do 4 (split; [done|]).
  intros p cd. rewrite HC, H3C. split.
  - intros [Hl Hall]. split; [done|]. apply (Hall cd). by apply elem_of_map_to_list.
  - intros [Hl Hne]. split; [done|]. intros cd' Hin%elem_of_map_to_list.
    rewrite Hl in Hin. by injection Hin as <-.
Qed.

(** X14. Removing an object that the registry does not mention (it is not in
    the Interaction Set, it is not the initial hit, no hover entry has it as
    object or event target and no capture entry has it as target) changes
    nothing and makes no native call. *)
Theorem X14_remove_unreferenced s o :
  o ∉ interaction s →
  initialHit s ≠ Some o →
  (∀ p ev, hovered s !! p = Some ev → eventObject (hit ev) ≠ Some o ∧ object (hit ev) ≠ o) →
  (∀ p cd, capturedMap s !! p = Some cd → eventObject (intersection cd) ≠ Some o) →
  removeInteractivity s o = s.
Proof.
  intros HI Hih Hhov Hcap. apply removeInteractivity_unreferenced; [done..| |].
  - intros p ev Hl. destruct (Hhov p ev Hl) as [He Ho]. unfold hover_mentions.
    by rewrite !bool_decide_eq_false_2.
  - intros p cd Hl. unfold held_by. rewrite bool_decide_eq_false_2; [done|].
    by eapply Hcap.
Qed.

(** X15. [removeInteractivity] forgets the initial hit when it is the object
    removed and keeps it otherwise, and it keeps the coordinates of the last
    pointer-down.  Removing the same object a second time changes nothing:
    in particular no pointer is released twice. *)
Theorem X15_remove_idempotent s o :
  let s' := removeInteractivity s o in
  initialHit s' ≠ Some o
  ∧ (initialHit s ≠ Some o → initialHit s' = initialHit s)
  ∧ initialClick s' = initialClick s
  ∧ removeInteractivity s' o = s'.
Proof.
  intros s'. destruct (removeInteractivity_fields s o) as (HI & Hh & Hc & HH & HC).
  fold s' in HI, Hh, Hc, HH, HC.
  assert (Hne : initialHit s' ≠ Some o).
  { rewrite Hh. by destruct (decide _). }
  split; [done|]. split; [by intros ?; rewrite Hh, decide_False|]. split; [done|].
  apply removeInteractivity_unreferenced; [|done| |].
  - rewrite HI. intros [Ho _]%list_elem_of_filter. done.
  - intros p ev. rewrite HH. by intros [_ ?]%map_lookup_filter_Some.
  - intros p cd. rewrite HC. by intros [_ ?].
Qed.

(** *** What [intersect] returns *)

Lemma dedup_covers seen items :
  ∀ x, x ∈ items →
    makeId G x ∈ seen ∨ ∃ y, y ∈ dedup G seen items ∧ makeId G y = makeId G x.
Proof.
  revert seen. induction items as [|item rest IH]; intros seen x Hx.
  - by apply elem_of_nil in Hx.
  - simpl. apply elem_of_cons in Hx as [->|Hx].
    + destruct (decide _) as [Hin|Hnin]; [by left|]. right. exists item. split; [left|done].
    + destruct (decide _) as [Hin|Hnin]; [by apply IH|].
      destruct (IH ({[makeId G item]} ∪ seen) x Hx) as [Hs|(y & Hy & Heq)].
      * apply elem_of_union in Hs as [->%elem_of_singleton|Hs]; [|by left].
        right. exists item. split; [left|done].
      * right. exists y. split; [by right | done].
Qed.

(** X16. [intersect] returns nothing when the raycaster is disabled.
    Otherwise every record it returns is its own event target.  Without a
    [filter] hook the records are the raycaster's hits for the Interaction
    Set, in the raycaster's order, thinned out so that no identity string
    occurs twice while every identity string of a raw hit is still
    represented. *)
Theorem X16_intersect_normal s event :
  let rc := raycaster store in
  let raw := intersectObjects rc event (interaction s) in
  (enabled rc = false → intersect G store s event = [])
  ∧ (∀ i, i ∈ intersect G store s event → eventObject i = Some (object i))
  ∧ (enabled rc = true → filter_hook rc = None →
     ∃ kept,
       intersect G store s event = map (λ i, with_eventObject i (Some (object i))) kept
       ∧ kept `sublist_of` raw
       ∧ NoDup (makeId G <$> kept)
       ∧ ∀ x, x ∈ raw → ∃ y, y ∈ kept ∧ makeId G y = makeId G x).
Proof.
  intros rc raw. unfold intersect. fold rc. fold raw. split; [|split].
  - by intros ->.
  - destruct (enabled rc); simpl; [|by intros i ?%elem_of_nil].
    by intros i (j & -> & _)%list_elem_of_fmap.
  - intros -> ->. simpl. exists (dedup G ∅ raw). split; [done|].
    split; [apply dedup_sublist|]. split; [apply dedup_ids|].
    intros x Hx. destruct (dedup_covers ∅ raw x Hx) as [Hin|Hy]; [|done].
    by apply not_elem_of_empty in Hin.
Qed.

(** *** The distance of a click *)

(** X17. For integer offsets whose squared distance from the last
    pointer-down is below [2 ^ 48], the range in which the double-precision
    computation of the source is exact, [calculateDistance] is the integer
    nearest to the Euclidean distance between the event and the last
    pointer-down: it is the one natural number [d] with
    [d - 1/2 ≤ sqrt(dx² + dy²) < d + 1/2]. *)
Theorem X17_distance_nearest s event d :
  squared_distance s event < 2 ^ 48 →
  d = calculateDistance s event
  ↔ 0 ≤ d
    ∧ 4 * squared_distance s event < (2 * d + 1) * (2 * d + 1)
    ∧ (0 < d → (2 * d - 1) * (2 * d - 1) ≤ 4 * squared_distance s event).
Proof.
  intros _. unfold calculateDistance, squared_distance, round_sqrt.
  set (n := (offsetX event - (initialClick s).1) * (offsetX event - (initialClick s).1)
            + (offsetY event - (initialClick s).2) * (offsetY event - (initialClick s).2)).
  assert (Hn : 0 ≤ n).
  { subst n. apply Z.add_nonneg_nonneg; apply Z.square_nonneg. }
  clearbody n. cbv zeta.
  pose proof (Z.sqrt_spec n Hn) as [Hlo Hhi].
  pose proof (Z.sqrt_nonneg n) as Hr. set (r := Z.sqrt n) in *. clearbody r.
  assert (Huniq : ∀ a c, 0 ≤ a → 0 ≤ c →
            4 * n < (2 * a + 1) * (2 * a + 1) →
            (0 < c → (2 * c - 1) * (2 * c - 1) ≤ 4 * n) → c ≤ a).
  { intros a c Ha Hc Hup Hdown. destruct (Z.le_gt_cases c a) as [|Hgt]; [done|].
    exfalso. assert (H0 : 0 < c) by lia. specialize (Hdown H0).
    assert (2 * a + 1 ≤ 2 * c - 1) by lia.
    assert ((2 * a + 1) * (2 * a + 1) ≤ (2 * c - 1) * (2 * c - 1)).
    { apply Z.mul_le_mono_nonneg; lia. }
    lia. }
  destruct (Z.ltb_spec r (n - r * r)) as [Hup|Hdown].
  - assert (Hd : 0 ≤ r + 1
                 ∧ 4 * n < (2 * (r + 1) + 1) * (2 * (r + 1) + 1)
                 ∧ (0 < r + 1 → (2 * (r + 1) - 1) * (2 * (r + 1) - 1) ≤ 4 * n)).
    { split; [lia|]. split; [lia | intros _; lia]. }
    split; [by intros ->|]. intros (H0 & H1 & H2). destruct Hd as (D0 & D1 & D2).
    apply Z.le_antisymm; by apply Huniq.
  - assert (Hd : 0 ≤ r
                 ∧ 4 * n < (2 * r + 1) * (2 * r + 1)
                 ∧ (0 < r → (2 * r - 1) * (2 * r - 1) ≤ 4 * n)).
    { split; [lia|]. split; [lia | intros ?; lia]. }
    split; [by intros ->|]. intros (H0 & H1 & H2). destruct Hd as (D0 & D1 & D2).
    apply Z.le_antisymm; by apply Huniq.
Qed.

(** *** What an event carries *)

Lemma Bubbled_payload name event entering ih I l0 ints δ h l ph T :
  Bubbled G (cb_run G name event entering ih I l0) (raycastEvent ints event δ h) l ph T →
  ∀ c, c ∈ T →
    match c with
    | Deliver e => ∃ t ph', e = raycastEvent ints event δ h (t, ph') ∧ t ∈ l
    | Handle o n e => ∃ ph', e = raycastEvent ints event δ h (o, ph') ∧ o ∈ l
    | _ => True
    end.
Proof.
  intros HB c Hin.
  destruct (Bubbled_blocks _ _ _ _ _ _ _ _ _ _ _ _ _ HB _ Hin)
    as (t' & ph' & C & b & T1 & T2 & Ht' & Hc' & Hcb & -> & [->|HinC]); [by eauto|].
  destruct (cb_run_entries _ _ _ _ _ _ _ _ _ _ _ Hcb _ HinC)
    as [(n & _ & ->)|[Hn|(o' & -> & _)]]; [by eauto | by destruct c | done].
Qed.

(** X18. Every event a dispatch hands out during its bubble walk, to the
    callback or to a handler, is the top intersection with only the event
    target replaced: it carries the top hit's object, index and distance,
    the raw event, the whole intersection list of the dispatch and its
    delta, which is the rounded click distance for the click family and 0
    for every other event.  A handler gets the event whose target it is
    registered on.  What precedes the walk in the trace holds no delivery. *)
Theorem X18_event_payload fuel name event s :
  height_bounded G fuel →
  raycast_name name = true →
  let hits := patchIntersects s (intersect G store s event) event in
  let δ := if isClickEvent name then calculateDistance s event else 0 in
  ∃ s' P T,
    handlePointer G store fuel name event s = Some s'
    ∧ trace s' = trace s ++ P ++ T
    ∧ delivered P = []
    ∧ (hits = [] → T = [])
    ∧ ∀ h, head hits = Some h →
        (∀ e, Deliver e ∈ T →
           e = raycastEvent hits event δ h (default 0%nat (eventObject (hit e)), eventPhase e)
           ∧ is_Some (eventObject (hit e)))
        ∧ (∀ o n e, Handle o n e ∈ T →
             e = raycastEvent hits event δ h (o, eventPhase e)).
Proof.
  intros Hb Hrc hits δ. rewrite handlePointer_dispatch by done.
  destruct (dispatch_spec G store fuel name event s Hb)
    as (s' & P & T & entering & l0 & Hd & HT & _ & _ & _ & HP & _ & _ & _ & Hwalk).
  fold hits in Hwalk. fold δ in Hwalk.
  exists s', P, T. do 3 (split; [done|]).
  destruct hits as [|h rest]; [split; [done | by intros h [=]]|].
  split; [done|]. intros h' [= <-].
  destruct Hwalk as (l & _ & HB).
  pose proof (Bubbled_payload _ _ _ _ _ _ _ _ _ _ _ _ HB) as Hpay.
  split.
  - intros e Hin. destruct (Hpay _ Hin) as (t & ph' & -> & _). simpl. eauto.
  - intros o n e Hin. by destruct (Hpay _ Hin) as (ph' & -> & _).
Qed.


(** *** Press, then click *)


(** *** The hover entry settles *)

Lemma intersect_registry s s' event :
  interaction s' = interaction s → intersect G store s' event = intersect G store s event.
Proof. intros H. unfold intersect. by rewrite H. Qed.

Lemma patchIntersects_registry s s' ints event :
  capturedMap s' = capturedMap s →
  patchIntersects s' ints event = patchIntersects s ints event.
Proof. intros H. unfold patchIntersects. by rewrite H. Qed.

Lemma cancelPointer_hover_after fuel pid hits s sc :
  (∀ o, capture_free G o) →
  cancelPointer G fuel pid hits s = Some sc →
  hovered sc !! pid = None
  ∨ (sc = s ∧ ∃ hov, hovered s !! pid = Some hov ∧ top_differs hits hov = false).
Proof.
  intros Hfree. unfold cancelPointer.
  destruct (hovered s !! pid) as [hov|] eqn:Hhov; [|intros [= <-]; by left].
  fold (top_differs hits hov). destruct (top_differs hits hov) eqn:Hdiff.
  - intros Hl. apply (leave_chain_capture_free Hfree) in Hl as [-> _]. simpl.
    left. apply lookup_delete_eq.
  - intros [= <-]. right. split; [done|]. by exists hov.
Qed.

(** X20. With handlers that leave the pointer capture alone: after a
    pointer-move whose top target has handlers, the pointer hovers the top
    hit (object, index and instance), whether the move entered it or found
    it hovered already.  A second move with the same raw event therefore
    meets the same intersection list as a plain move: only [onPointerMove]
    handlers run, no over, enter, out or leave, and the hover map stays. *)
Theorem X20_hover_settles fuel event s h rest t :
  height_bounded G fuel →
  (∀ o, capture_free G o) →
  patchIntersects s (intersect G store s event) event = h :: rest →
  eventObject h = Some t →
  has_eventCount G t = true →
  ∃ s1 hov,
    handlePointer G store fuel onPointerMove event s = Some s1
    ∧ hovered s1 !! pointerId event = Some hov
    ∧ top_differs (h :: rest) hov = false
    ∧ patchIntersects s1 (intersect G store s1 event) event = h :: rest
    ∧ ∃ s2 T,
        handlePointer G store fuel onPointerMove event s1 = Some s2
        ∧ trace s2 = trace s1 ++ T
        ∧ (∀ o n e, Handle o n e ∈ T → n = onPointerMove)
        ∧ hovered s2 = hovered s1.
Proof.
  intros Hb Hfree Hhits Ht Hc.
  destruct (height_bounded_option G fuel (eventObject h) Hb) as (l & Hp & Hl).
  assert (Hfree' : ∀ o, o ∈ l → capture_free G o) by (intros; apply Hfree).
  destruct (dispatch_spec G store fuel onPointerMove event s Hb)
    as (s1 & P1 & T1 & e1 & l1 & Hd1 & _ & HI1 & _).
  destruct (dispatch_capture_free Hfree fuel onPointerMove event s s1 Hd1) as [Hcap1 _].
  assert (Hhits1 : patchIntersects s1 (intersect G store s1 event) event = h :: rest).
  { by rewrite (intersect_registry s s1 event HI1),
               (patchIntersects_registry s s1 _ event Hcap1). }
  assert (Hhov1 : ∃ hov, hovered s1 !! pointerId event = Some hov
                         ∧ top_differs (h :: rest) hov = false).
  { revert Hd1. unfold dispatch. rewrite Hhits. simpl.
    destruct (cancelPointer G fuel (pointerId event) (h :: rest) s) as [sc|] eqn:Hcancel;
      [|done].
    simpl.
    destruct (cancelPointer_hover_after _ _ _ _ _ Hfree Hcancel)
      as [Hnone|(-> & hov & Hhov & Hsame)].
    - rewrite Hnone. simpl. intros Hhi.
      rewrite (handleIntersects_enter_hovered G fuel event h rest 0 l sc s1 Hp Hfree' Hhi).
      destruct l as [|t' l']; simpl in Hp; [by rewrite Ht in Hp|].
      destruct Hp as [Heq _]. rewrite Ht in Heq. injection Heq as <-. rewrite Hc.
      eexists. rewrite lookup_insert_eq. split; [done|]. simpl.
      rewrite !bool_decide_eq_false_2; [done | by intros H..].
    - rewrite Hhov. simpl.
      rewrite bool_decide_eq_false_2.
      2:{ intros Hne. apply Hne. by rewrite (top_same_object h rest hov Hsame). }
      intros Hhi.
      destruct (bubble_move_within _ _ _ _ l _ _ _ _ _ _ Hp Hfree' Hhi) as [Hh _].
      exists hov. by rewrite Hh. }
  destruct Hhov1 as (hov & Hhov & Hsame).
  exists s1, hov. rewrite handlePointer_dispatch by done. do 4 (split; [done|]).
  destruct (move_within_run fuel event s1 hov h rest l Hb Hhits1 Hhov Hsame Hp)
    as (s2 & T & l0 & Hrun & Hhi & HT & HB).
  destruct (Bubbled_move_within _ _ _ _ _ _ _ _ _ _ HB) as [_ Hnames].
  rewrite handlePointer_dispatch in Hrun by done.
  exists s2, T. do 3 (split; [done|]).
  unfold handleIntersects in Hhi.
  by destruct (bubble_move_within _ _ _ _ l _ _ _ _ _ _ Hp Hfree' Hhi).
Qed.

End More.

(** ** The further properties at work *)

Lemma leave_height : height_bounded leave_scene 2.
Proof.
  intros o.
  exists (match parent (leave_scene o) with Some p => [o; p] | None => [o] end).
  do 8 (destruct o as [|o]; [simpl; split; [repeat split | lia]|]).
  simpl. split; [repeat split | lia].
Qed.

Lemma leave_free o : capture_free leave_scene o.
Proof.
  intros n h ev a Hh Ha. unfold handler_of in Hh.
  do 8 (destruct o as [|o]; [destruct n; simpl in Hh; try discriminate Hh;
                             injection Hh as <-; simpl in Ha;
                             repeat (apply elem_of_cons in Ha as [->|Ha]; [done|]);
                             by apply elem_of_nil in Ha|]).
  simpl in Hh. discriminate Hh.
Qed.

(** X1 on the chain of mesh 2: the group above it is an ancestor. *)
Lemma X1_witness :
  is_path calm_scene (Some 2%nat) [2; 1]%nat
  ∧ (length [2; 1]%nat ≤ 2)%nat
  ∧ (isAncestor calm_scene 2 1%nat (Some 2%nat) = Some true ↔ 1%nat ∈ [2; 1]%nat)
  ∧ (isAncestor calm_scene 2 1%nat (Some 2%nat) = Some false ↔ 1%nat ∉ [2; 1]%nat).
Proof.
  split; [simpl; auto|]. split; [simpl; lia|].
  apply (X1_isAncestor_chain calm_scene 2 1%nat (Some 2%nat) [2; 1]%nat);
    [simpl; auto | simpl; lia].
Defined.

(** X3 when nobody holds the capture of pointer 7. *)
Lemma X3_witness :
  hasPointerCapture hover_event demo_state (Some 7) = false
  ∧ eventObject (hit hover_event) ≠ None
  ∧ run_action hover_event (demo_state, false) (ReleasePointerCapture (Some 7))
    = (demo_state, false).
Proof.
  split; [reflexivity|]. split; [discriminate|].
  apply (X3_release_by_other hover_event demo_state false (Some 7));
    [reflexivity | discriminate].
Defined.

(** X5 at a move of pointer 7 over mesh 2, which it hovers already. *)
Lemma X5_witness :
  (∀ hov, hovered hovering_state !! pointerId (pointer_at 10) = Some hov →
          top_differs [live_hit 2 1] hov = false)
  ∧ cancelPointer calm_scene 2 (pointerId (pointer_at 10)) [live_hit 2 1] hovering_state
    = Some hovering_state
  ∧ (hovered hovering_state !! pointerId (pointer_at 10) = None →
     handlePointer calm_scene demo_store 2 onPointerLeave (pointer_at 10) hovering_state
     = Some hovering_state
     ∧ handlePointer calm_scene demo_store 2 onPointerCancel (pointer_at 10) hovering_state
       = Some hovering_state).
Proof.
  assert (H : ∀ hov, hovered hovering_state !! pointerId (pointer_at 10) = Some hov →
                     top_differs [live_hit 2 1] hov = false).
  { intros hov Hl. vm_compute in Hl. injection Hl as <-. reflexivity. }
  split; [exact H|].
  exact (X5_cancel_without_leave calm_scene demo_store 2 (pointer_at 10) [live_hit 2 1]
           hovering_state H).
Defined.

(** X6 when pointer 7 leaves the canvas while it hovers object 6: object 6
    gets its out handler, which asks to stop, and group 7 still gets out and
    leave. *)
Lemma X6_witness :
  let hov := raycastEvent [live_hit 6 1] (pointer_at 40) 0 (live_hit 6 1) (6%nat, AT_TARGET) in
  hovered leaving_state !! Some 7 = Some hov
  ∧ top_differs [] hov = true
  ∧ is_path leave_scene (Some (object (hit hov))) [6; 7]%nat
  ∧ (length [6; 7]%nat ≤ 2)%nat
  ∧ ∃ s' T,
      cancelPointer leave_scene 2 (Some 7) [] leaving_state = Some s'
      ∧ trace s' = trace leaving_state ++ T
      ∧ handle_calls T = leave_calls leave_scene hov [] [6; 7]%nat
      ∧ Forall leave_entry T
      ∧ same_registry leaving_state s'
      ∧ ((∀ x, x ∈ [6; 7]%nat → capture_free leave_scene x) →
         hovered s' = delete (Some 7) (hovered leaving_state)
         ∧ capturedMap s' = capturedMap leaving_state).
Proof.
  intros hov. split; [reflexivity|]. split; [reflexivity|]. split; [simpl; auto|].
  split; [simpl; lia|].
  apply (X6_cancel_walks_up leave_scene 2 (Some 7) [] leaving_state hov [6; 7]%nat);
    [reflexivity | reflexivity | simpl; auto | simpl; lia].
Defined.

(** X7 at a click on empty space, at the place of the last pointer-down. *)
Lemma X7_witness :
  isClickEvent onClick = true
  ∧ patchIntersects demo_state
      (intersect demo_scene demo_store demo_state (pointer_at 0)) (pointer_at 0) = []
  ∧ handlePointer demo_scene demo_store 2 onClick (pointer_at 0) demo_state
    = Some (if squared_distance demo_state (pointer_at 0) <=? 6
            then emit demo_state
                   (map (λ o, Missed o (pointer_at 0))
                      (filter (λ o, has_handler demo_scene o onPointerMissed = true)
                         (interaction demo_state))
                    ++ (if storePointerMissed demo_store
                        then [StoreMissed (pointer_at 0)] else []))
            else demo_state).
Proof.
  split; [reflexivity|]. split; [reflexivity|].
  apply (X7_click_on_nothing demo_scene demo_store 2 onClick (pointer_at 0) demo_state);
    reflexivity.
Defined.

(** X8 at a pointer-up over empty space. *)
Lemma X8_witness :
  onPointerUp ∈ [onPointerUp; onWheel]
  ∧ patchIntersects demo_state
      (intersect demo_scene demo_store demo_state (pointer_at 0)) (pointer_at 0) = []
  ∧ handlePointer demo_scene demo_store 2 onPointerUp (pointer_at 0) demo_state
    = Some demo_state.
Proof.
  split; [left|]. split; [reflexivity|].
  apply (X8_no_hit_no_effect demo_scene demo_store 2 onPointerUp (pointer_at 0) demo_state);
    [left | reflexivity].
Defined.

(** X9 at a pointer-down on mesh 2. *)
Lemma X9_witness :
  height_bounded calm_scene 2
  ∧ ∃ s',
      handlePointer calm_scene demo_store 2 onPointerDown (pointer_at 10) demo_state = Some s'
      ∧ interaction s' = interaction demo_state
      ∧ (onPointerDown = onPointerDown →
         initialClick s' = (offsetX (pointer_at 10), offsetY (pointer_at 10))
         ∧ initialHit s'
           = object <$> head (patchIntersects demo_state
                                (intersect calm_scene demo_store demo_state (pointer_at 10))
                                (pointer_at 10)))
      ∧ (onPointerDown ≠ onPointerDown →
         initialClick s' = initialClick demo_state ∧ initialHit s' = initialHit demo_state).
Proof.
  split; [exact calm_height|].
  apply (X9_press_bookkeeping calm_scene demo_store 2 onPointerDown (pointer_at 10) demo_state).
  exact calm_height.
Defined.

(** X10 in the scene of objects 6 and 7, whose handlers at most stop the
    propagation: pointer 7 moves onto object 6. *)
Lemma X10_witness :
  (∀ o, capture_free leave_scene o)
  ∧ height_bounded leave_scene 2
  ∧ ∃ s',
      handlePointer leave_scene leave_store 2 onPointerMove (pointer_at 40) leave_state = Some s'
      ∧ (onPointerMove ≠ onLostPointerCapture → capturedMap s' = capturedMap leave_state)
      ∧ (∀ id, id ≠ pointerId (pointer_at 40) →
           hovered s' !! id = hovered leave_state !! id
           ∧ capturedMap s' !! id = capturedMap leave_state !! id).
Proof.
  split; [exact leave_free|]. split; [exact leave_height|].
  apply (X10_other_pointers_untouched leave_scene leave_store leave_free 2 onPointerMove
           (pointer_at 40) leave_state).
  exact leave_height.
Defined.

(** X11 at a move of pointer 7 over mesh 2, which it hovers already. *)
Lemma X11_witness :
  height_bounded calm_scene 2
  ∧ patchIntersects hovering_state
      (intersect calm_scene demo_store hovering_state (pointer_at 10)) (pointer_at 10)
    = live_hit 2 1 :: []
  ∧ hovered hovering_state !! pointerId (pointer_at 10) = Some hover_event
  ∧ top_differs (live_hit 2 1 :: []) hover_event = false
  ∧ is_path calm_scene (eventObject (live_hit 2 1)) [2; 1]%nat
  ∧ ∃ s' T k,
      handlePointer calm_scene demo_store 2 onPointerMove (pointer_at 10) hovering_state
      = Some s'
      ∧ trace s' = trace hovering_state ++ T
      ∧ delivered T
        = map (raycastEvent (live_hit 2 1 :: []) (pointer_at 10) 0 (live_hit 2 1))
              (filter (λ p, has_eventCount calm_scene p.1 = true)
                      (take k (walk_targets [2; 1]%nat)))
      ∧ (k = length [2; 1]%nat ∨ Exists (stops calm_scene) T)
      ∧ (∀ e t, Deliver e ∈ T → eventObject (hit e) = Some t →
           ∃ T1 C b T2,
             T = T1 ++ Deliver e :: C ++ T2
             ∧ Calls calm_scene t e
                     (filter (λ n, has_handler calm_scene t n = true) [onPointerMove]) C b)
      ∧ (∀ o n e, Handle o n e ∈ T → n = onPointerMove)
      ∧ ((∀ o, o ∈ [2; 1]%nat → capture_free calm_scene o) →
         hovered s' = hovered hovering_state ∧ capturedMap s' = capturedMap hovering_state).
Proof.
  split; [exact calm_height|]. do 3 (split; [reflexivity|]). split; [simpl; auto|].
  apply (X11_move_within calm_scene demo_store 2 (pointer_at 10) hovering_state hover_event
           (live_hit 2 1) [] [2; 1]%nat);
    [exact calm_height | reflexivity | reflexivity | reflexivity | simpl; auto].
Defined.

(** X12 when mesh 2 has taken the capture of pointer 7 and the pointer moves
    to offset 20, over mesh 3. *)
Lemma X12_witness :
  height_bounded calm_scene 2
  ∧ pointerId (pointer_at 20) = Some 7
  ∧ eventObject (hit hover_event) = Some 2%nat
  ∧ is_path calm_scene (Some 2%nat) [2; 1]%nat
  ∧ (let s1 := (run_action hover_event (demo_state, false) (SetPointerCapture (Some 7))).1 in
     let hits := hit hover_event :: intersect calm_scene demo_store demo_state (pointer_at 20) in
     ∃ s' T,
       handlePointer calm_scene demo_store 2 onPointerMove (pointer_at 20) s1 = Some s'
       ∧ trace s' = trace s1 ++ T
       ∧ head (delivered T)
         = head (map (raycastEvent hits (pointer_at 20) 0 (hit hover_event))
                     (filter (λ p, has_eventCount calm_scene p.1 = true)
                             (walk_targets [2; 1]%nat)))
       ∧ (∀ c o, c ∈ T → target_of c = Some o → o ∈ [2; 1]%nat)
       ∧ (∀ o n e, Handle o n e ∈ T → n = onPointerMove)
       ∧ (has_eventCount calm_scene 2 = true → has_handler calm_scene 2 onPointerMove = true →
          Handle 2%nat onPointerMove
            (raycastEvent hits (pointer_at 20) 0 (hit hover_event) (2%nat, AT_TARGET)) ∈ T)).
Proof.
  split; [exact calm_height|]. do 2 (split; [reflexivity|]). split; [simpl; auto|].
  apply (X12_move_after_capture calm_scene demo_store 2 hover_event demo_state false
           (pointer_at 20) 7 2%nat [2; 1]%nat);
    [exact calm_height | reflexivity | reflexivity | simpl; auto].
Defined.

(** X13 at a move of pointer 7 from object 6 to empty space. *)
Lemma X13_witness :
  height_bounded leave_scene 2
  ∧ ∃ s' P T,
      handlePointer leave_scene leave_store 2 onPointerMove (pointer_at 0) leaving_state
      = Some s'
      ∧ trace s' = trace leaving_state ++ P ++ T
      ∧ Forall leave_entry P
      ∧ Forall move_entry T.
Proof.
  split; [exact leave_height|].
  apply (X13_leave_before_enter leave_scene leave_store 2 (pointer_at 0) leaving_state).
  exact leave_height.
Defined.

(** X14 when an object that was never registered is removed. *)
Lemma X14_witness :
  (6%nat ∉ interaction demo_state)
  ∧ initialHit demo_state ≠ Some 6%nat
  ∧ (∀ p ev, hovered demo_state !! p = Some ev →
             eventObject (hit ev) ≠ Some 6%nat ∧ object (hit ev) ≠ 6%nat)
  ∧ (∀ p cd, capturedMap demo_state !! p = Some cd →
             eventObject (intersection cd) ≠ Some 6%nat)
  ∧ removeInteractivity demo_state 6 = demo_state.
Proof.
  assert (H1 : 6%nat ∉ interaction demo_state).
  { intros H. simpl in H.
    repeat (apply elem_of_cons in H as [H|H]; [discriminate H|]). by apply elem_of_nil in H. }
  assert (H2 : ∀ p ev, hovered demo_state !! p = Some ev →
                       eventObject (hit ev) ≠ Some 6%nat ∧ object (hit ev) ≠ 6%nat).
  { intros p ev H. simpl in H. by rewrite lookup_empty in H. }
  assert (H3 : ∀ p cd, capturedMap demo_state !! p = Some cd →
                       eventObject (intersection cd) ≠ Some 6%nat).
  { intros p cd H. simpl in H. by rewrite lookup_empty in H. }
  split; [exact H1|]. split; [discriminate|]. split; [exact H2|]. split; [exact H3|].
  apply (X14_remove_unreferenced demo_state 6%nat H1); [discriminate | exact H2 | exact H3].
Defined.

(** X17 three pixels to the right of the last pointer-down. *)
Lemma X17_witness :
  squared_distance pressed_state (pointer_at 13) < 2 ^ 48
  ∧ (3 = calculateDistance pressed_state (pointer_at 13)
     ↔ 0 ≤ 3
       ∧ 4 * squared_distance pressed_state (pointer_at 13) < (2 * 3 + 1) * (2 * 3 + 1)
       ∧ (0 < 3 →
          (2 * 3 - 1) * (2 * 3 - 1) ≤ 4 * squared_distance pressed_state (pointer_at 13))).
Proof.
  split; [reflexivity|].
  apply (X17_distance_nearest pressed_state (pointer_at 13) 3). reflexivity.
Defined.

(** X18 at a pointer-down on mesh 2. *)
Lemma X18_witness :
  height_bounded calm_scene 2
  ∧ raycast_name onPointerDown = true
  ∧ (let hits := patchIntersects demo_state
                   (intersect calm_scene demo_store demo_state (pointer_at 10))
                   (pointer_at 10) in
     let δ := if isClickEvent onPointerDown
              then calculateDistance demo_state (pointer_at 10) else 0 in
     ∃ s' P T,
       handlePointer calm_scene demo_store 2 onPointerDown (pointer_at 10) demo_state = Some s'
       ∧ trace s' = trace demo_state ++ P ++ T
       ∧ delivered P = []
       ∧ (hits = [] → T = [])
       ∧ ∀ h, head hits = Some h →
           (∀ e, Deliver e ∈ T →
              e = raycastEvent hits (pointer_at 10) δ h
                    (default 0%nat (eventObject (hit e)), eventPhase e)
              ∧ is_Some (eventObject (hit e)))
           ∧ (∀ o n e, Handle o n e ∈ T →
                e = raycastEvent hits (pointer_at 10) δ h (o, eventPhase e))).
Proof.
  split; [exact calm_height|]. split; [reflexivity|].
  apply (X18_event_payload calm_scene demo_store 2 onPointerDown (pointer_at 10) demo_state);
    [exact calm_height | reflexivity].
Defined.


(** X20 when pointer 7 comes over object 6 and moves on it once more. *)
Lemma X20_witness :
  height_bounded leave_scene 2
  ∧ (∀ o, capture_free leave_scene o)
  ∧ patchIntersects leave_state
      (intersect leave_scene leave_store leave_state (pointer_at 40)) (pointer_at 40)
    = live_hit 6 1 :: []
  ∧ eventObject (live_hit 6 1) = Some 6%nat
  ∧ has_eventCount leave_scene 6 = true
  ∧ ∃ s1 hov,
      handlePointer leave_scene leave_store 2 onPointerMove (pointer_at 40) leave_state
      = Some s1
      ∧ hovered s1 !! pointerId (pointer_at 40) = Some hov
      ∧ top_differs (live_hit 6 1 :: []) hov = false
      ∧ patchIntersects s1 (intersect leave_scene leave_store s1 (pointer_at 40))
          (pointer_at 40)
        = live_hit 6 1 :: []
      ∧ ∃ s2 T,
          handlePointer leave_scene leave_store 2 onPointerMove (pointer_at 40) s1 = Some s2
          ∧ trace s2 = trace s1 ++ T
          ∧ (∀ o n e, Handle o n e ∈ T → n = onPointerMove)
          ∧ hovered s2 = hovered s1.
Proof.
  split; [exact leave_height|]. split; [exact leave_free|]. do 3 (split; [reflexivity|]).
  apply (X20_hover_settles leave_scene leave_store 2 (pointer_at 40) leave_state
           (live_hit 6 1) [] 6%nat);
    [exact leave_height | exact leave_free | reflexivity..].
Defined.
